(** * Smart-routing grid of the path-finding link factory

    A shallow embedding of [PathFindingLinkFactory] (the class that builds
    the canvas matrix and the routing matrix used by smart routing, and
    that turns a found path into a drawable one), with the properties of
    its dimension computation, coordinate translation, obstacle marking,
    matrix caches and path emission.

    Numbers.  JavaScript numbers are IEEE doubles.  The module [Double]
    embeds the arithmetic of the class over them: NaN, the infinities,
    and operations that round their exact result.  The dimension
    computation, the coordinate translation and the indices that the
    loops of marking compute are embedded there, and what is stated about
    the values of numbers is stated there.

    The part of the class that works on matrices (the store, the caches,
    the cells that marking writes) is embedded over exact rationals
    ([Qc], canonical rationals, so that equality is Leibniz equality):
    rounding, the infinities and NaN are not in that part, where
    [Math.floor] and [Math.ceil] return integers, kept as [Z] and injected
    back with [num] where the code uses them as numbers again.

    Arrays.  A [number[][]] is an array of row arrays.  Rows are mutable
    objects that live in a store ([Heap]); a matrix is the list of the
    references of its rows.  No code of the class mutates an outer array
    (fields are only re-assigned), so outer arrays are kept as values. *)

From Stdlib Require Import QArith Qcanon Qround Qabs Qpower ZArith Lia Lqa.
From stdpp Require Import base decidable option numbers list.

Local Open Scope Qc_scope.

(** ** Numbers *)

Module Num.

Definition num (z : Z) : Qc := Qc_of_Z z.

(** [Math.floor], [Math.ceil], [Math.abs], [Math.min], [Math.max]. *)
Definition floor (q : Qc) : Z := Qfloor q.
Definition ceil (q : Qc) : Z := Qceiling q.
Definition abs (q : Qc) : Qc := if decide (0 ≤ q) then q else - q.
Definition min (a b : Qc) : Qc := if decide (a ≤ b) then a else b.
Definition max (a b : Qc) : Qc := if decide (a ≤ b) then b else a.

(** An array index: [a[q]] names an element only when [q] is a
    non-negative integer; any other number names a property that an
    array of numbers does not have, and reads as [undefined]. *)
Definition index (q : Qc) : option nat :=
  if decide (num (floor q) = q) then
    if decide (0 ≤ floor q)%Z then Some (Z.to_nat (floor q)) else None
  else None.

End Num.

(** ** The geometry read from the engine *)

(** A node or port as the factory reads it: [x], [y], [width], [height]. *)
Record Box := mkBox { x : Qc; y : Qc; width : Qc; height : Qc }.

(** A link point. *)
Record Point := mkPoint { px : Qc; py : Qc }.

(** A link: its two ports ([None] is [null]) and its points. *)
Record Link := mkLink {
  sourcePort : option Box;
  targetPort : option Box;
  points : list Point
}.

(** What the factory reads through [this.engine]: the values of
    [diagramModel.nodes] and [diagramModel.links] in their enumeration
    order, and [canvas.offsetWidth], [canvas.offsetHeight] (layout sizes
    of an element: non-negative integers). *)
Record Engine := mkEngine {
  nodes : list Box;
  links : list Link;
  offsetWidth : N;
  offsetHeight : N
}.

(** ** lodash reductions *)

Section Extremum.
Context {A : Type} (key : A → Qc).

(** [_.minBy] and [_.maxBy] keep the first element and replace it by a
    later one only when its key is strictly smaller (greater). *)
Fixpoint minBy_from (cur : A) (l : list A) : A :=
  match l with
  | [] => cur
  | a :: l' => if decide (key a < key cur) then minBy_from a l' else minBy_from cur l'
  end.

Fixpoint maxBy_from (cur : A) (l : list A) : A :=
  match l with
  | [] => cur
  | a :: l' => if decide (key cur < key a) then maxBy_from a l' else maxBy_from cur l'
  end.

(** On an empty array both return [undefined], here [None]. *)
Definition minBy (l : list A) : option A :=
  match l with [] => None | a :: l' => Some (minBy_from a l') end.

Definition maxBy (l : list A) : option A :=
  match l with [] => None | a :: l' => Some (maxBy_from a l') end.
End Extremum.

(** ** Dimensions *)

Record Dimensions := mkDimensions {
  dim_width : Qc;
  dim_hAdjustmentFactor : Qc;
  dim_height : Qc;
  dim_vAdjustmentFactor : Qc
}.

Definition allNodesCoords (e : Engine) : list Box :=
  map (λ item, mkBox (x item) (y item) (width item) (height item)) (nodes e).

(** [_.flatMap(allLinks.map(link => [link.sourcePort, link.targetPort]))]
    followed by [filter(port => port !== null)]. *)
Definition linkPorts (e : Engine) : list Box :=
  omap id (concat (map (λ link, [sourcePort link; targetPort link]) (links e))).

Definition allPortsCoords (e : Engine) : list Box :=
  map (λ item, mkBox (x item) (y item) (width item) (height item)) (linkPorts e).

Definition allPointsCoords (e : Engine) : list Box :=
  map (λ item, mkBox (px item) (py item) 0 0) (concat (map points (links e))).

(** [_.concat(allNodesCoords, allPortsCoords, allPointsCoords)]. *)
Definition allCoords (e : Engine) : list Box :=
  allNodesCoords e ++ allPortsCoords e ++ allPointsCoords e.

(** [calculateMatrixDimensions].  Reading [.x] of the [undefined] that
    [_.minBy] returns on an empty array throws a TypeError: the result
    is [None] then.  [s] is [this.ROUTING_SCALING_FACTOR]. *)
Definition calculateMatrixDimensions (s : Qc) (e : Engine) : option Dimensions :=
  minXElement ← minBy x (allCoords e);
  let minX := Num.num (Num.floor (Num.min (x minXElement) 0 / s)) * s in
  maxXElement ← maxBy (λ item, x item + width item) (allCoords e);
  let maxX := Num.max (x maxXElement + width maxXElement) (Num.num (Z.of_N (offsetWidth e))) in
  minYElement ← minBy y (allCoords e);
  let minY := Num.num (Num.floor (Num.min (y minYElement) 0 / s)) * s in
  maxYElement ← maxBy (λ item, y item + height item) (allCoords e);
  let maxY := Num.max (y maxYElement + height maxYElement) (Num.num (Z.of_N (offsetHeight e))) in
  Some {|
    dim_width := Num.num (Num.ceil (Num.abs minX + maxX));
    dim_hAdjustmentFactor := Num.abs minX / s + 1;
    dim_height := Num.num (Num.ceil (Num.abs minY + maxY));
    dim_vAdjustmentFactor := Num.abs minY / s + 1
  |}.

(** ** The store, matrices and the factory object *)

(** A reference to a row array. *)
Abbreviation loc := nat (only parsing).

(** The store holds the row arrays in allocation order; a reference is a
    position in it.  Arrays are never freed. *)
Abbreviation Heap := (list (list Z)) (only parsing).

(** A [number[][]] value: the references of its rows. *)
Abbreviation Matrix := (list loc) (only parsing).

Definition alloc (row : list Z) (h : Heap) : loc * Heap := (length h, h ++ [row]).

(** The cells of a matrix, read through the store. *)
Definition cell (h : Heap) (m : Matrix) (row col : nat) : option Z :=
  l ← m !! row; r ← h !! l; r !! col.

Definition rowsOf (h : Heap) (m : Matrix) : list (list Z) :=
  omap (λ l : loc, h !! l) m.

(** The fields of a [PathFindingLinkFactory]. *)
Record Factory := mkFactory {
  ROUTING_SCALING_FACTOR : Qc;
  canvasMatrix : Matrix;
  routingMatrix : Matrix;
  hAdjustmentFactor : Qc;
  vAdjustmentFactor : Qc
}.

(** The field initialisers: scaling factor 5, both matrices [[]], both
    adjustment factors 0. *)
Definition constructor : Factory :=
  mkFactory (Num.num 5) [] [] 0 0.

Definition set_canvasMatrix (m : Matrix) (f : Factory) : Factory :=
  mkFactory (ROUTING_SCALING_FACTOR f) m (routingMatrix f)
            (hAdjustmentFactor f) (vAdjustmentFactor f).

Definition set_routingMatrix (m : Matrix) (f : Factory) : Factory :=
  mkFactory (ROUTING_SCALING_FACTOR f) (canvasMatrix f) m
            (hAdjustmentFactor f) (vAdjustmentFactor f).

Definition set_adjustmentFactors (ha va : Qc) (f : Factory) : Factory :=
  mkFactory (ROUTING_SCALING_FACTOR f) (canvasMatrix f) (routingMatrix f) ha va.

(** The state a method runs in: the store and the factory's fields. *)
Record World := mkWorld { store : Heap; self : Factory }.

Definition initial : World := mkWorld [] constructor.

(** ** Methods that may throw *)

Inductive JsError := TypeError | RangeError.

(** A method call either returns a value or throws; both leave a state. *)
Inductive Outcome (A : Type) :=
  | Return (a : A) (w : World)
  | Throw (err : JsError) (w : World).
Arguments Return {A} a w.
Arguments Throw {A} err w.

Definition bind {A B} (c : World → Outcome A) (k : A → World → Outcome B)
    (w : World) : Outcome B :=
  match c w with
  | Return a w' => k a w'
  | Throw err w' => Throw err w'
  end.

Notation "'call' x ':=' c 'in' k" := (bind c (λ x, k))
  (at level 10, x binder, c at level 100, k at level 200).

(** ** Coordinate translation *)

Definition translateRoutingX (f : Factory) (x : Qc) (reverse : bool) : Qc :=
  x + hAdjustmentFactor f * (if reverse then - 1 else 1).

Definition translateRoutingY (f : Factory) (y : Qc) (reverse : bool) : Qc :=
  y + vAdjustmentFactor f * (if reverse then - 1 else 1).

(** ** The canvas matrix *)

(** [_.range(0, n)] for an integer [n]: [0, 1, ..., n-1], and
    [0, -1, ..., n+1] when [n] is negative. *)
Definition range0 (n : Z) : list Z :=
  if decide (0 ≤ n)%Z then seqZ 0 n else Z.opp <$> seqZ 0 (- n).

(** [new Array(n).fill(v)] for an integer [n]; a negative length is a
    RangeError. *)
Definition newArrayFill (n : Z) (v : Z) : option (list Z) :=
  if decide (0 ≤ n)%Z then Some (replicate (Z.to_nat n) v) else None.

(** [elems.map(() => new Array(n).fill(0))]: one fresh row per element. *)
Fixpoint mapNewRows (n : Z) (elems : list Z) (h : Heap) : option (Matrix * Heap) :=
  match elems with
  | [] => Some ([], h)
  | _ :: elems' =>
      row ← newArrayFill n 0%Z;
      let '(l, h1) := alloc row h in
      match mapNewRows n elems' h1 with
      | Some (m, h2) => Some (l :: m, h2)
      | None => None
      end
  end.

Definition calculateCanvasMatrix (e : Engine) (w : World) : Outcome unit :=
  let s := ROUTING_SCALING_FACTOR (self w) in
  match calculateMatrixDimensions s e with
  | None => Throw TypeError w
  | Some d =>
      let f1 := set_adjustmentFactors (dim_hAdjustmentFactor d)
                  (dim_vAdjustmentFactor d) (self w) in
      let matrixWidth := Num.ceil (dim_width d / s) in
      let matrixHeight := Num.ceil (dim_height d / s) in
      match mapNewRows matrixWidth (range0 matrixHeight) (store w) with
      | None => Throw RangeError (mkWorld (store w) f1)
      | Some (m, h) => Return tt (mkWorld h (set_canvasMatrix m f1))
      end
  end.

Definition getCanvasMatrix (e : Engine) (w : World) : Outcome Matrix :=
  if decide (length (canvasMatrix (self w)) = 0%nat) then
    (call _ := calculateCanvasMatrix e in
     λ w', Return (canvasMatrix (self w')) w') w
  else Return (canvasMatrix (self w)) w.

(** ** Marking obstacles *)

(** [for (let i = lo; i <= hi; i++) body] and
    [for (let i = lo; i < hi; i++) body] on integers. *)
Definition for_le {S} (lo hi : Z) (body : Z → S → S) (s : S) : S :=
  foldl (λ s i, body i s) s (seqZ lo (hi + 1 - lo)).

Definition for_lt {S} (lo hi : Z) (body : Z → S → S) (s : S) : S :=
  foldl (λ s i, body i s) s (seqZ lo (hi - lo)).

(** [markMatrixPoint]: the write happens only when row [y] and its
    element [x] exist. *)
Definition markMatrixPoint (matrix : Matrix) (x y : Qc) (h : Heap) : Heap :=
  match Num.index y ≫= (matrix !!.) with
  | None => h
  | Some l =>
      match h !! l, Num.index x with
      | Some row, Some j =>
          if decide (j < length row)%nat then <[l := <[j := 1%Z]> row]> h else h
      | _, _ => h
      end
  end.

(** The body that [markNodes] runs for a node and [markPorts] for a
    port: the two methods have the same text there. *)
Definition markElement (f : Factory) (matrix : Matrix) (b : Box) (h : Heap) : Heap :=
  let s := ROUTING_SCALING_FACTOR f in
  let startX := Num.floor (x b / s) in
  let endX := Num.ceil ((x b + width b) / s) in
  let startY := Num.floor (y b / s) in
  let endY := Num.ceil ((y b + height b) / s) in
  for_le (startX - 1) (endX + 1) (λ x,
    for_lt (startY - 1) (endY + 1) (λ y,
      markMatrixPoint matrix
        (translateRoutingX f (Num.num x) false)
        (translateRoutingY f (Num.num y) false))) h.

Definition markNodes (e : Engine) (f : Factory) (matrix : Matrix) (h : Heap) : Heap :=
  foldl (λ h node, markElement f matrix node h) h (nodes e).

Definition markPorts (e : Engine) (f : Factory) (matrix : Matrix) (h : Heap) : Heap :=
  foldl (λ h port, markElement f matrix port h) h (linkPorts e).

(** ** The routing matrix *)

(** [_.cloneDeep] of a matrix: a new row array for every row, with the
    same elements.  (lodash maps a row met twice to one copy; the rows of
    a matrix built by [calculateCanvasMatrix] are pairwise distinct.) *)
Fixpoint cloneDeep (m : Matrix) (h : Heap) : Matrix * Heap :=
  match m with
  | [] => ([], h)
  | l :: m' =>
      let '(l', h1) := alloc (default [] (h !! l)) h in
      let '(r, h2) := cloneDeep m' h1 in
      (l' :: r, h2)
  end.

Definition calculateRoutingMatrix (e : Engine) : World → Outcome unit :=
  call canvas := getCanvasMatrix e in λ w,
  let '(matrix, h1) := cloneDeep canvas (store w) in
  let h2 := markNodes e (self w) matrix h1 in
  let h3 := markPorts e (self w) matrix h2 in
  Return tt (mkWorld h3 (set_routingMatrix matrix (self w))).

Definition getRoutingMatrix (e : Engine) (w : World) : Outcome Matrix :=
  if decide (length (routingMatrix (self w)) = 0%nat) then
    (call _ := calculateRoutingMatrix e in
     λ w', Return (routingMatrix (self w')) w') w
  else Return (routingMatrix (self w)) w.

(** ** Emitting the path *)

(** The value built with [paths-js]: [Path()] is the empty instruction
    list, [moveto] and [lineto] return the path extended by one
    instruction, and [print] serialises the instructions in order. *)
Inductive Instruction :=
  | M (x y : Qc)
  | L (x y : Qc).

Definition Path : Type := list Instruction.
Definition moveto (path : Path) (x y : Qc) : Path := path ++ [M x y].
Definition lineto (path : Path) (x y : Qc) : Path := path ++ [L x y].

Section PathEmitter.
(** [path.print()], the serialisation of [paths-js]. *)
Context {Printed : Type} (print : Path → Printed).

(** [generateDynamicPath]; a path point is the array [[x, y]].  On an
    empty [pathCoords], reading [pathCoords[0][0]] throws a TypeError:
    the result is [None] then. *)
Definition generateDynamicPath (f : Factory) (pathCoords : list (Qc * Qc))
    : option Printed :=
  first ← pathCoords !! 0%nat;
  let path : Path := [] in
  let path := moveto path (first.1 * ROUTING_SCALING_FACTOR f)
                          (first.2 * ROUTING_SCALING_FACTOR f) in
  let path := foldl (λ path coords,
                lineto path (coords.1 * ROUTING_SCALING_FACTOR f)
                            (coords.2 * ROUTING_SCALING_FACTOR f))
                path (drop 1 pathCoords) in
  Some (print path).
End PathEmitter.

(** ** Invalidation *)

(** Modelled from the spec: the invalidation of the cache, which the
    class leaves to its callers.  It "clears both matrices together";
    the adjustment factors stay as they are. *)
Definition invalidate (w : World) : World :=
  mkWorld (store w) (set_routingMatrix [] (set_canvasMatrix [] (self w))).

(** ** Notions used by the statements *)

(** The integer cells a box is padded to, before translation, in the
    order the two loops of [markElement] visit them. *)
Definition paddedCells (s : Qc) (b : Box) : list (Z * Z) :=
  let startX := Num.floor (x b / s) in
  let endX := Num.ceil ((x b + width b) / s) in
  let startY := Num.floor (y b / s) in
  let endY := Num.ceil ((y b + height b) / s) in
  cx ← seqZ (startX - 1) (endX + 1 + 1 - (startX - 1));
  cy ← seqZ (startY - 1) (endY + 1 - (startY - 1));
  [(cx, cy)].

(** The indices [markElement] passes to [markMatrixPoint] for a box. *)
Definition markedIndices (f : Factory) (b : Box) : list (Qc * Qc) :=
  (λ c, (translateRoutingX f (Num.num c.1) false,
         translateRoutingY f (Num.num c.2) false))
  <$> paddedCells (ROUTING_SCALING_FACTOR f) b.

(** The cell of column [col] and row [row] is hit by a box when one of
    the indices marked for the box names it. *)
Definition hit (f : Factory) (row col : nat) (b : Box) : Prop :=
  Exists (λ c, Num.index c.1 = Some col ∧ Num.index c.2 = Some row)
         (markedIndices f b).

(** [m] is the least (greatest) element of [qs]. *)
Definition is_minimum (m : Qc) (qs : list Qc) : Prop :=
  m ∈ qs ∧ ∀ q, q ∈ qs → m ≤ q.

Definition is_maximum (m : Qc) (qs : list Qc) : Prop :=
  m ∈ qs ∧ ∀ q, q ∈ qs → q ≤ m.

(** Every row reference of [m] names a row of the store. *)
Definition allocated (h : Heap) (m : Matrix) : Prop :=
  Forall (λ l, l < length h)%nat m.

(** Every cell of [m] holds 0. *)
Definition zeroed (h : Heap) (m : Matrix) : Prop :=
  ∀ row col v, cell h m row col = Some v → v = 0%Z.

(** The states a factory can be in: the one after construction, and
    those left by a getter (returning or throwing) or by an invalidation,
    for any geometry the engine holds at the time of the call. *)
Inductive reachable : World → Prop :=
  | reachable_initial : reachable initial
  | reachable_getCanvasMatrix e w canvas w' :
      reachable w → getCanvasMatrix e w = Return canvas w' → reachable w'
  | reachable_getCanvasMatrix_throw e w err w' :
      reachable w → getCanvasMatrix e w = Throw err w' → reachable w'
  | reachable_getRoutingMatrix e w routing w' :
      reachable w → getRoutingMatrix e w = Return routing w' → reachable w'
  | reachable_getRoutingMatrix_throw e w err w' :
      reachable w → getRoutingMatrix e w = Throw err w' → reachable w'
  | reachable_invalidate w :
      reachable w → reachable (invalidate w).

(** The state a call leaves, and the matrix a getter returns ([[]] when
    it throws). *)
Definition worldOf {A} (o : Outcome A) : World :=
  match o with Return _ w | Throw _ w => w end.

Definition matrixOf (o : Outcome (list nat)) : Matrix :=
  match o with Return m _ => m | Throw _ _ => [] end.

(** ** Scenarios *)

(** Viewport 800×600, one node at (100,100) of size 50×50, no links. *)
Definition scenarioEngine : Engine :=
  mkEngine [mkBox (Num.num 100) (Num.num 100) (Num.num 50) (Num.num 50)] [] 800 600.

(** No nodes and no links. *)
Definition emptyEngine (viewportWidth viewportHeight : N) : Engine :=
  mkEngine [] [] viewportWidth viewportHeight.

(** A node at the origin that has no size yet, in a canvas that has no
    layout size (hidden, or not laid out yet). *)
Definition unsizedEngine : Engine :=
  mkEngine [mkBox 0 0 0 0] [] 0 0.

(** The same box as the source port of a link, and no node. *)
Definition portEngine : Engine :=
  mkEngine []
    [mkLink (Some (mkBox (Num.num 100) (Num.num 100) (Num.num 50) (Num.num 50))) None []]
    800 600.

(** A node at the origin of size 5×5 in a 10×10 viewport: a 2×2 matrix. *)
Definition smallEngine : Engine :=
  mkEngine [mkBox 0 0 (Num.num 5) (Num.num 5)] [] 10 10.

(** ** Link points (the bundled [LinkModel]) *)

Module LinkModel.
Local Close Scope Qc_scope.

(** A point of a link is an object; [indexOf] compares references, so a
    point is its reference here.  The [points] array of a link is the
    list of the references of its points. *)

(** [Array.prototype.indexOf]: the first position of [t], or -1. *)
Fixpoint indexOf_from (pts : list nat) (t : nat) (i : Z) : Z :=
  match pts with
  | [] => (-1)%Z
  | p :: pts' => if decide (p = t) then i else indexOf_from pts' t (i + 1)
  end.

Definition indexOf (pts : list nat) (t : nat) : Z := indexOf_from pts t 0.

(** [Array.prototype.splice(start, deleteCount, ...items)] for integer
    arguments: the array after the call.  A negative [start] counts from
    the end, and both arguments are clamped to the array. *)
Definition splice {A} (l : list A) (start deleteCount : Z) (items : list A) : list A :=
  let len := Z.of_nat (length l) in
  let actualStart :=
    if decide (start < 0)%Z then Z.max (len + start) 0 else Z.min start len in
  let actualDeleteCount := Z.min (Z.max deleteCount 0) (len - actualStart) in
  take (Z.to_nat actualStart) l ++ items
    ++ drop (Z.to_nat (actualStart + actualDeleteCount)) l.

Definition getPointIndex (pts : list nat) (t : nat) : Z := indexOf pts t.

(** [isLastPoint]: [getPointIndex(t) === points.length - 1]. *)
Definition isLastPoint (pts : list nat) (t : nat) : bool :=
  bool_decide (getPointIndex pts t = Z.of_nat (length pts) - 1)%Z.

(** [points[0]] and [points[points.length - 1]]; [None] is [undefined]. *)
Definition getFirstPoint (pts : list nat) : option nat := pts !! 0%nat.

Definition getLastPoint (pts : list nat) : option nat :=
  if decide (0 ≤ Z.of_nat (length pts) - 1)%Z
  then pts !! Z.to_nat (Z.of_nat (length pts) - 1)
  else None.

(** [removePoint]: [points.splice(getPointIndex(t), 1)]. *)
Definition removePoint (pts : list nat) (t : nat) : list nat :=
  splice pts (getPointIndex pts t) 1 [].

(** [addPoint(t, index = 1)]: [points.splice(index, 0, t)]; [None] is an
    omitted index. *)
Definition addPoint (pts : list nat) (t : nat) (index : option Z) : list nat :=
  splice pts (default 1%Z index) 0 [t].

End LinkModel.

(** ** The boxes of a geometry *)

(** Following the spec, not the code: the bounding boxes of a geometry
    are its nodes, the ports that its links have at their two ends, and
    its link points, a point being a box of width and height 0. *)
Definition geometryBox (e : Engine) (box : Box) : Prop :=
  box ∈ nodes e ∨
  (∃ link, link ∈ links e ∧
     (sourcePort link = Some box ∨ targetPort link = Some box)) ∨
  (∃ link point, link ∈ links e ∧ point ∈ points link ∧
     box = mkBox (px point) (py point) 0 0).

(** ** Numbers as IEEE doubles *)

(** The arithmetic of the class as JavaScript performs it.  A number is
    NaN, an infinity or a finite value, and every operation returns the
    exact result rounded to the nearest double, ties to even (binary64:
    53 significant bits, least exponent -1074, overflow at 2^1024).  The
    sign of zero is not modelled: a zero divisor is read as +0.  The
    coordinates of a box are finite; they range over the rationals, the
    doubles among them. *)
Module Double.
Local Open Scope Q_scope.

Inductive number := NaN | Infinity (negative : bool) | Finite (q : Qc).

Definition pow2 (e : Z) : Q := 2 ^ e.

(** [floor (log2 |q|)] for [q] other than 0. *)
Definition ilog2 (q : Q) : Z :=
  let e := (Z.log2 (Z.abs (Qnum q)) - Z.log2 (Zpos (Qden q)))%Z in
  if Qle_bool (pow2 e) (Qabs q) then e else (e - 1)%Z.

(** The nearest integer, the even one of two that are equally near. *)
Definition rne (a : Q) : Z :=
  let f := Qfloor a in
  match Qcompare (a - inject_Z f) (1 # 2) with
  | Lt => f
  | Gt => (f + 1)%Z
  | Eq => if Z.even f then f else (f + 1)%Z
  end.

(** The distance between the doubles around [q]: 52 binary places below
    its leading bit, and 2^-1074 for the subnormal numbers. *)
Definition ulp (q : Q) : Q := pow2 (Z.max (ilog2 q) (-1022) - 52).

Definition round (q : Q) : Q := inject_Z (rne (q / ulp q)) * ulp q.

(** The double that an exact result is rounded to. *)
Definition rnd (q : Q) : number :=
  let r := round q in
  if Qle_bool (pow2 1024) (Qabs r) then Infinity (negb (Qle_bool 0 r))
  else Finite (Q2Qc r).

(** The finite number that a decimal literal such as [0.1] denotes. *)
Definition literal (q : Q) : Qc :=
  match rnd q with Finite r => r | _ => 0%Qc end.

(** An integer value, such as the literals [0], [1] and [-1]. *)
Definition of_Z (z : Z) : number := Finite (Qc_of_Z z).

Definition is_negative (q : Qc) : bool := negb (Qle_bool 0 q).

(** [a + b], [a - b], [a * b], [a / b]. *)
Definition add (a b : number) : number :=
  match a, b with
  | NaN, _ | _, NaN => NaN
  | Infinity s, Infinity t => if Bool.eqb s t then Infinity s else NaN
  | Infinity s, Finite _ | Finite _, Infinity s => Infinity s
  | Finite p, Finite q => rnd (p + q)
  end.

Definition neg (a : number) : number :=
  match a with
  | NaN => NaN
  | Infinity s => Infinity (negb s)
  | Finite q => Finite (- q)%Qc
  end.

Definition sub (a b : number) : number := add a (neg b).

Definition mul (a b : number) : number :=
  match a, b with
  | NaN, _ | _, NaN => NaN
  | Infinity s, Infinity t => Infinity (xorb s t)
  | Infinity s, Finite q | Finite q, Infinity s =>
      if Qeq_bool q 0 then NaN else Infinity (xorb s (is_negative q))
  | Finite p, Finite q => rnd (p * q)
  end.

Definition div (a b : number) : number :=
  match a, b with
  | NaN, _ | _, NaN => NaN
  | Infinity _, Infinity _ => NaN
  | Infinity s, Finite q => Infinity (xorb s (is_negative q))
  | Finite _, Infinity _ => of_Z 0
  | Finite p, Finite q =>
      if Qeq_bool q 0 then
        if Qeq_bool p 0 then NaN else Infinity (is_negative p)
      else rnd (p / q)
  end.

(** [a < b] and [a <= b]: false when an operand is NaN. *)
Definition ltb (a b : number) : bool :=
  match a, b with
  | NaN, _ | _, NaN => false
  | Infinity s, Infinity t => s && negb t
  | Infinity s, Finite _ => s
  | Finite _, Infinity t => negb t
  | Finite p, Finite q => negb (Qle_bool q p)
  end.

Definition leb (a b : number) : bool :=
  match a, b with
  | NaN, _ | _, NaN => false
  | Infinity s, Infinity t => s || negb t
  | Infinity s, Finite _ => s
  | Finite _, Infinity t => negb t
  | Finite p, Finite q => Qle_bool p q
  end.

(** [a === b]. *)
Definition eqb (a b : number) : bool :=
  match a, b with
  | Infinity s, Infinity t => Bool.eqb s t
  | Finite p, Finite q => Qeq_bool p q
  | _, _ => false
  end.

Definition le (a b : number) : Prop := leb a b = true.

(** [Math.abs], [Math.min], [Math.max], [Math.floor], [Math.ceil]. *)
Definition abs (a : number) : number :=
  match a with
  | NaN => NaN
  | Infinity _ => Infinity false
  | Finite q => if Qle_bool 0 q then Finite q else Finite (- q)%Qc
  end.

Definition min (a b : number) : number :=
  match a, b with
  | NaN, _ | _, NaN => NaN
  | _, _ => if leb a b then a else b
  end.

Definition max (a b : number) : number :=
  match a, b with
  | NaN, _ | _, NaN => NaN
  | _, _ => if leb a b then b else a
  end.

Definition floor (a : number) : number :=
  match a with
  | Finite q => of_Z (Qfloor q)
  | _ => a
  end.

Definition ceil (a : number) : number :=
  match a with
  | Finite q => of_Z (Qceiling q)
  | _ => a
  end.

(** A coordinate read from the geometry. *)
Definition coord (q : Qc) : number := Finite q.

(** The number fields of the factory. *)
Record Factory := mkFactory {
  ROUTING_SCALING_FACTOR : number;
  hAdjustmentFactor : number;
  vAdjustmentFactor : number
}.

Definition translateRoutingX (f : Factory) (x : number) (reverse : bool) : number :=
  add x (mul (hAdjustmentFactor f) (if reverse then of_Z (-1) else of_Z 1)).

Definition translateRoutingY (f : Factory) (y : number) (reverse : bool) : number :=
  add y (mul (vAdjustmentFactor f) (if reverse then of_Z (-1) else of_Z 1)).

(** lodash's [baseExtremum], which [_.minBy] runs with [<] and [_.maxBy]
    with [>]: the first element whose key is not NaN is taken, and
    replaced by a later one whose key compares strictly before it. *)
Section Extremum.
Context {A : Type} (iteratee : A → number) (comparator : number → number → bool).

Fixpoint baseExtremum (array : list A) (computed : option number) (result : option A)
    : option A :=
  match array with
  | [] => result
  | value :: array' =>
      let current := iteratee value in
      let take :=
        match computed with
        | None => match current with NaN => false | _ => true end
        | Some c => comparator current c
        end in
      if take then baseExtremum array' (Some current) (Some value)
      else baseExtremum array' computed result
  end.
End Extremum.

Definition minBy {A} (array : list A) (iteratee : A → number) : option A :=
  baseExtremum iteratee ltb array None None.

Definition maxBy {A} (array : list A) (iteratee : A → number) : option A :=
  baseExtremum iteratee (λ a b, ltb b a) array None None.

Record Dimensions := mkDimensions {
  dim_width : number;
  dim_hAdjustmentFactor : number;
  dim_height : number;
  dim_vAdjustmentFactor : number
}.

(** [calculateMatrixDimensions] on doubles; [None] is the TypeError of
    reading [.x] of [undefined]. *)
Definition calculateMatrixDimensions (s : number) (e : Engine) : option Dimensions :=
  let all := allCoords e in
  minXElement ← minBy all (λ item, coord (x item));
  let minX := mul (floor (div (min (coord (x minXElement)) (of_Z 0)) s)) s in
  maxXElement ← maxBy all (λ item, add (coord (x item)) (coord (width item)));
  let maxX := max (add (coord (x maxXElement)) (coord (width maxXElement)))
                  (of_Z (Z.of_N (offsetWidth e))) in
  minYElement ← minBy all (λ item, coord (y item));
  let minY := mul (floor (div (min (coord (y minYElement)) (of_Z 0)) s)) s in
  maxYElement ← maxBy all (λ item, add (coord (y item)) (coord (height item)));
  let maxY := max (add (coord (y maxYElement)) (coord (height maxYElement)))
                  (of_Z (Z.of_N (offsetHeight e))) in
  Some {|
    dim_width := ceil (add (abs minX) maxX);
    dim_hAdjustmentFactor := add (div (abs minX) s) (of_Z 1);
    dim_height := ceil (add (abs minY) maxY);
    dim_vAdjustmentFactor := add (div (abs minY) s) (of_Z 1)
  |}.

(** The values the counter of [for (let i = lo; i <= hi; i++)] (or
    [i < hi]) takes.  On doubles the loop need not end (the increment of
    a counter of 2^53 or more is rounded, and can leave it as it is), so
    the values of the first [fuel] iterations are given. *)
Fixpoint counter (strict : bool) (fuel : nat) (i hi : number) : list number :=
  match fuel with
  | O => []
  | S fuel' =>
      if (if strict then ltb i hi else leb i hi)
      then i :: counter strict fuel' (add i (of_Z 1)) hi
      else []
  end.

(** The arguments of the calls of [markMatrixPoint] that the body of
    [markNodes] (and of [markPorts], which has the same text) makes for
    one element, in order, each loop cut after [fuel] iterations. *)
Definition markElement (fuel : nat) (f : Factory) (b : Box) : list (number * number) :=
  let s := ROUTING_SCALING_FACTOR f in
  let startX := floor (div (coord (x b)) s) in
  let endX := ceil (div (add (coord (x b)) (coord (width b))) s) in
  let startY := floor (div (coord (y b)) s) in
  let endY := ceil (div (add (coord (y b)) (coord (height b))) s) in
  cx ← counter false fuel (sub startX (of_Z 1)) (add endX (of_Z 1));
  cy ← counter true fuel (sub startY (of_Z 1)) (add endY (of_Z 1));
  [(translateRoutingX f cx false, translateRoutingY f cy false)].

(** The calls of [markMatrixPoint] made by [markNodes], node by node, and
    by [markPorts], port by port. *)
Definition markNodes (fuel : nat) (e : Engine) (f : Factory) : list (number * number) :=
  node ← nodes e; markElement fuel f node.

Definition markPorts (fuel : nat) (e : Engine) (f : Factory) : list (number * number) :=
  port ← linkPorts e; markElement fuel f port.

(** [m] is the least (greatest) value of [key] over the boxes of the
    geometry. *)
Definition least_over (e : Engine) (key : Box → number) (m : number) : Prop :=
  (∃ box, geometryBox e box ∧ key box = m) ∧
  ∀ box, geometryBox e box → le m (key box).

Definition greatest_over (e : Engine) (key : Box → number) (m : number) : Prop :=
  (∃ box, geometryBox e box ∧ key box = m) ∧
  ∀ box, geometryBox e box → le (key box) m.

(** A node at (-200,-200) of size 50×50, and a link from a port at
    (-300,40) of size 10×10 through the point (-350.5,900), in an 800×600
    viewport. *)
Definition mixedEngine : Engine :=
  mkEngine
    [mkBox (Num.num (-200)) (Num.num (-200)) (Num.num 50) (Num.num 50)]
    [mkLink (Some (mkBox (Num.num (-300)) (Num.num 40) (Num.num 10) (Num.num 10))) None
            [mkPoint (Q2Qc (-701 # 2)) (Num.num 900)]]
    800 600.


End Double.

(* ===================================================================== *)
(** * Arithmetic of the number model *)

Module NumFacts.
Import Num.

(** Goals on [Qc] are moved to [Q], where [lra] decides linear ones. *)
Ltac to_Q :=
  unfold Qcle, Qclt, Qcdiv, Qcminus, Qcplus, Qcmult, Qcopp, Qcinv, num, Qc_of_Z in *;
  simpl in *; rewrite ?Qred_correct in *.

Lemma num_le a b : (a ≤ b)%Z ↔ num a ≤ num b.
Proof. to_Q. by rewrite Zle_Qle. Qed.

Lemma num_mono a b : (a ≤ b)%Z → num a ≤ num b.
Proof. apply num_le. Qed.

Lemma num_plus a b : num (a + b) = num a + num b.
Proof. apply Qc_is_canon. to_Q. by rewrite inject_Z_plus. Qed.

Lemma num_opp a : num (- a) = - num a.
Proof. apply Qc_is_canon. to_Q. by rewrite inject_Z_opp. Qed.

Lemma num_0 : num 0 = 0.
Proof. by apply Qc_is_canon. Qed.

Lemma num_1 : num 1 = 1.
Proof. by apply Qc_is_canon. Qed.

Lemma num_nonneg a : (0 ≤ a)%Z → 0 ≤ num a.
Proof. intros H. rewrite <-num_0. by apply num_mono. Qed.

Lemma num_inj a b : num a = num b → a = b.
Proof. intros H. apply Z.le_antisymm; apply num_le; rewrite H; done. Qed.

Lemma floor_num z : floor (num z) = z.
Proof. unfold floor. to_Q. apply Qfloor_Z. Qed.

Lemma ceil_num z : ceil (num z) = z.
Proof. unfold ceil. to_Q. apply Qceiling_Z. Qed.

Lemma floor_le q : num (floor q) ≤ q.
Proof. unfold floor. to_Q. apply Qfloor_le. Qed.

Lemma le_ceil q : q ≤ num (ceil q).
Proof. unfold ceil. to_Q. apply Qle_ceiling. Qed.

Lemma floor_mono a b : a ≤ b → (floor a ≤ floor b)%Z.
Proof. unfold floor. to_Q. apply Qfloor_resp_le. Qed.

Lemma ceil_mono a b : a ≤ b → (ceil a ≤ ceil b)%Z.
Proof. unfold ceil. to_Q. apply Qceiling_resp_le. Qed.

Lemma floor_nonpos q : q ≤ 0 → (floor q ≤ 0)%Z.
Proof. intros H. rewrite <-(floor_num 0), num_0. by apply floor_mono. Qed.

Lemma ceil_nonneg q : 0 ≤ q → (0 ≤ ceil q)%Z.
Proof. intros H. rewrite <-(ceil_num 0), num_0. by apply ceil_mono. Qed.

Lemma abs_nonneg q : 0 ≤ abs q.
Proof.
  unfold abs. case_decide as H; [done|].
  apply Qcnot_le_lt in H. to_Q. lra.
Qed.

Lemma abs_nonpos q : q ≤ 0 → abs q = - q.
Proof.
  intros H. unfold abs. case_decide as H0; [|done].
  assert (q = 0) as -> by (by apply Qcle_antisym). by apply Qc_is_canon.
Qed.

Lemma min_le_l a b : min a b ≤ a.
Proof. unfold min. case_decide as H; [done|]. apply Qcnot_le_lt in H. by apply Qclt_le_weak. Qed.

Lemma min_le_r a b : min a b ≤ b.
Proof. unfold min. by case_decide. Qed.

Lemma max_ge_r a b : b ≤ max a b.
Proof. unfold max. case_decide as H; [done|]. apply Qcnot_le_lt in H. by apply Qclt_le_weak. Qed.

Lemma max_ge_l a b : a ≤ max a b.
Proof. unfold max. by case_decide. Qed.

Lemma div_mono s a b : 0 < s → a ≤ b → a / s ≤ b / s.
Proof.
  intros Hs Hab. unfold Qcdiv. apply Qcmult_le_compat_r; [done|].
  apply Qclt_le_weak. to_Q. by apply Qinv_lt_0_compat.
Qed.

Lemma div_nonneg s a : 0 < s → 0 ≤ a → 0 ≤ a / s.
Proof.
  intros Hs Ha. replace 0 with (0 / s); [by apply div_mono|].
  unfold Qcdiv. apply Qcmult_0_l.
Qed.

Lemma div_nonpos s a : 0 < s → a ≤ 0 → a / s ≤ 0.
Proof.
  intros Hs Ha. replace 0 with (0 / s); [by apply div_mono|].
  unfold Qcdiv. apply Qcmult_0_l.
Qed.

Lemma mul_nonpos_pos a s : a ≤ 0 → 0 < s → a * s ≤ 0.
Proof.
  intros Ha Hs. rewrite <-(Qcmult_0_l s).
  apply Qcmult_le_compat_r; [done | by apply Qclt_le_weak].
Qed.

End NumFacts.

Import NumFacts.

(** * The reductions *)

(** Membership in an explicit list. *)
Ltac in_list := rewrite ?elem_of_cons in *; intuition (subst; auto).

Section ExtremumFacts.
Context {A : Type} (key : A → Qc).

Lemma minBy_from_spec cur l :
  minBy_from key cur l ∈ cur :: l ∧
  ∀ a, a ∈ cur :: l → key (minBy_from key cur l) ≤ key a.
Proof.
  revert cur. induction l as [|b l IH]; intros cur; simpl.
  - split; [in_list|]. intros a ->%list_elem_of_singleton. done.
  - case_decide as Hlt.
    + destruct (IH b) as [Hin Hle]. split; [in_list|].
      intros a [->|Ha]%elem_of_cons; [|by apply Hle].
      trans (key b); [apply Hle; in_list | by apply Qclt_le_weak].
    + destruct (IH cur) as [Hin Hle]. split; [in_list|].
      intros a [->|[->|Ha]%elem_of_cons]%elem_of_cons.
      * apply Hle; in_list.
      * trans (key cur); [apply Hle; in_list | by apply Qcnot_lt_le].
      * apply Hle; in_list.
Qed.

Lemma maxBy_from_spec cur l :
  maxBy_from key cur l ∈ cur :: l ∧
  ∀ a, a ∈ cur :: l → key a ≤ key (maxBy_from key cur l).
Proof.
  revert cur. induction l as [|b l IH]; intros cur; simpl.
  - split; [in_list|]. intros a ->%list_elem_of_singleton. done.
  - case_decide as Hlt.
    + destruct (IH b) as [Hin Hle]. split; [in_list|].
      intros a [->|Ha]%elem_of_cons; [|by apply Hle].
      trans (key b); [by apply Qclt_le_weak | apply Hle; in_list].
    + destruct (IH cur) as [Hin Hle]. split; [in_list|].
      intros a [->|[->|Ha]%elem_of_cons]%elem_of_cons.
      * apply Hle; in_list.
      * trans (key cur); [by apply Qcnot_lt_le | apply Hle; in_list].
      * apply Hle; in_list.
Qed.

Lemma minBy_Some l : l ≠ [] → ∃ a, minBy key l = Some a ∧ is_minimum (key a) (key <$> l).
Proof.
  destruct l as [|c l]; [done|]. intros _. eexists; split; [done|].
  destruct (minBy_from_spec c l) as [Hin Hle]. split.
  - by apply list_elem_of_fmap_2.
  - intros q (a & -> & Ha)%list_elem_of_fmap. by apply Hle.
Qed.

Lemma maxBy_Some l : l ≠ [] → ∃ a, maxBy key l = Some a ∧ is_maximum (key a) (key <$> l).
Proof.
  destruct l as [|c l]; [done|]. intros _. eexists; split; [done|].
  destruct (maxBy_from_spec c l) as [Hin Hle]. split.
  - by apply list_elem_of_fmap_2.
  - intros q (a & -> & Ha)%list_elem_of_fmap. by apply Hle.
Qed.

End ExtremumFacts.

(** * The dimension computation *)

Lemma calculateMatrixDimensions_None s e :
  calculateMatrixDimensions s e = None ↔ allCoords e = [].
Proof.
  unfold calculateMatrixDimensions. split.
  - destruct (allCoords e); [done|]. simpl. done.
  - intros ->. done.
Qed.

Import Num.

Lemma min_comm a b : min a b = min b a.
Proof.
  unfold min. repeat case_decide; try done.
  - by apply Qcle_antisym.
  - apply Qcnot_le_lt in H, H0. destruct (Qclt_not_le _ _ H). by apply Qclt_le_weak.
Qed.

(** What the computation returns on a non-empty geometry, in terms of
    the four extremal boxes. *)
Lemma calculateMatrixDimensions_Some s e :
  allCoords e ≠ [] →
  ∃ a1 a2 a3 a4,
    is_minimum (x a1) (x <$> allCoords e) ∧
    is_maximum (x a2 + width a2) ((λ b, x b + width b) <$> allCoords e) ∧
    is_minimum (y a3) (y <$> allCoords e) ∧
    is_maximum (y a4 + height a4) ((λ b, y b + height b) <$> allCoords e) ∧
    calculateMatrixDimensions s e = Some {|
      dim_width := num (ceil (abs (num (floor (min (x a1) 0 / s)) * s)
                     + max (x a2 + width a2) (num (Z.of_N (offsetWidth e)))));
      dim_hAdjustmentFactor := abs (num (floor (min (x a1) 0 / s)) * s) / s + 1;
      dim_height := num (ceil (abs (num (floor (min (y a3) 0 / s)) * s)
                     + max (y a4 + height a4) (num (Z.of_N (offsetHeight e)))));
      dim_vAdjustmentFactor := abs (num (floor (min (y a3) 0 / s)) * s) / s + 1 |}.
Proof.
  intros Hne. unfold calculateMatrixDimensions.
  destruct (minBy_Some x _ Hne) as (a1 & -> & H1).
  destruct (maxBy_Some (λ b, x b + width b) _ Hne) as (a2 & -> & H2).
  destruct (minBy_Some y _ Hne) as (a3 & -> & H3).
  destruct (maxBy_Some (λ b, y b + height b) _ Hne) as (a4 & -> & H4).
  by exists a1, a2, a3, a4.
Qed.

Lemma num_of_N_nonneg n : 0 ≤ num (Z.of_N n).
Proof. apply num_nonneg. lia. Qed.

Lemma Qcplus_nonneg a b : 0 ≤ a → 0 ≤ b → 0 ≤ a + b.
Proof. intros. to_Q. lra. Qed.

(** The matrix sizes are never negative, so [new Array] does not throw. *)
Lemma calculateMatrixDimensions_sizes s e d :
  0 < s → calculateMatrixDimensions s e = Some d →
  (0 ≤ ceil (dim_width d / s))%Z ∧ (0 ≤ ceil (dim_height d / s))%Z.
Proof.
  intros Hs Hd.
  destruct (decide (allCoords e = [])) as [He|He].
  { apply calculateMatrixDimensions_None with (s:=s) in He. congruence. }
  destruct (calculateMatrixDimensions_Some s e He) as (a1 & a2 & a3 & a4 & _ & _ & _ & _ & Heq).
  rewrite Heq in Hd. injection Hd as <-. simpl.
  split; apply ceil_nonneg, div_nonneg; try done; apply num_nonneg, ceil_nonneg.
  - apply Qcplus_nonneg; [apply abs_nonneg|].
    eapply Qcle_trans; [apply num_of_N_nonneg | apply max_ge_r].
  - apply Qcplus_nonneg; [apply abs_nonneg|].
    eapply Qcle_trans; [apply num_of_N_nonneg | apply max_ge_r].
Qed.

Lemma mapNewRows_Some n elems h :
  (0 ≤ n)%Z →
  mapNewRows n elems h =
    Some (seq (length h) (length elems),
          h ++ replicate (length elems) (replicate (Z.to_nat n) 0%Z)).
Proof.
  intros Hn. revert h. induction elems as [|i elems IH]; intros h; simpl.
  - by rewrite app_nil_r.
  - unfold newArrayFill. rewrite decide_True by done. simpl.
    rewrite IH, length_app. simpl. rewrite Nat.add_1_r, <-app_assoc. done.
Qed.

Lemma length_range0 n : length (range0 n) = Z.abs_nat n.
Proof.
  unfold range0. case_decide; rewrite ?length_fmap, length_seqZ; lia.
Qed.

(** [calculateCanvasMatrix] on a non-empty geometry: it returns, stores
    the computed factors and a fresh matrix of zeros. *)
Lemma calculateCanvasMatrix_Return e w :
  0 < ROUTING_SCALING_FACTOR (self w) → allCoords e ≠ [] →
  ∃ d, calculateMatrixDimensions (ROUTING_SCALING_FACTOR (self w)) e = Some d ∧
    let s := ROUTING_SCALING_FACTOR (self w) in
    let rows := Z.to_nat (ceil (dim_height d / s)) in
    let cols := Z.to_nat (ceil (dim_width d / s)) in
    calculateCanvasMatrix e w =
      Return tt (mkWorld (store w ++ replicate rows (replicate cols 0%Z))
        (set_canvasMatrix (seq (length (store w)) rows)
          (set_adjustmentFactors (dim_hAdjustmentFactor d) (dim_vAdjustmentFactor d) (self w)))).
Proof.
  intros Hs He.
  destruct (calculateMatrixDimensions (ROUTING_SCALING_FACTOR (self w)) e) as [d|] eqn:Hd.
  2:{ apply calculateMatrixDimensions_None in Hd. done. }
  exists d. split; [done|]. simpl.
  destruct (calculateMatrixDimensions_sizes _ _ _ Hs Hd) as [Hw Hh].
  unfold calculateCanvasMatrix. rewrite Hd.
  rewrite mapNewRows_Some by done.
  rewrite length_range0. by rewrite Zabs2Nat.abs_nat_nonneg.
Qed.

(** C2 (as amended).  With no nodes and no links the dimension
    computation does not return: it throws, and [calculateCanvasMatrix]
    and [getCanvasMatrix] on an empty cache throw with it, leaving the
    factory as it was.  The computation returns exactly when there is at
    least one node, port or point box. *)
Theorem calculateMatrixDimensions_empty_geometry
    (s : Qc) (viewportWidth viewportHeight : N) (e : Engine) (w : World) :
  calculateMatrixDimensions s (emptyEngine viewportWidth viewportHeight) = None ∧
  calculateCanvasMatrix (emptyEngine viewportWidth viewportHeight) w = Throw TypeError w ∧
  (is_Some (calculateMatrixDimensions s e) ↔ allCoords e ≠ []).
Proof.
  split; [done|]. split; [done|].
  rewrite <-not_eq_None_Some. by rewrite calculateMatrixDimensions_None.
Qed.

(** C2 (as stated) fails: for a viewport of 800×600 without nodes and
    links the computation throws instead of returning viewport-only
    dimensions. *)
Lemma calculateMatrixDimensions_empty_geometry_throws :
  calculateMatrixDimensions (num 5) (emptyEngine 800 600) = None ∧
  getCanvasMatrix (emptyEngine 800 600) initial = Throw TypeError initial ∧
  calculateMatrixDimensions (num 5) (emptyEngine 800 600)
    ≠ Some (mkDimensions (num 800) 1 (num 600) 1).
Proof. by vm_compute. Qed.

Lemma foldl_lineto (s : Qc) (acc : Path) (rest : list (Qc * Qc)) :
  foldl (λ path coords, lineto path (coords.1 * s) (coords.2 * s)) acc rest
  = acc ++ ((λ p, L (p.1 * s) (p.2 * s)) <$> rest).
Proof.
  revert acc. induction rest as [|p rest IH]; intros acc; simpl.
  - by rewrite app_nil_r.
  - rewrite IH. unfold lineto. by rewrite <-app_assoc.
Qed.

(** C9.  For a path of at least one point, [generateDynamicPath] prints
    the path that moves to the first point and draws a line to every
    later point in order, every coordinate multiplied by the scaling
    factor; no point is dropped or merged.  For [(0,0),(2,3)] and factor
    5 this is move-to (0,0), line-to (10,15). *)
Theorem generateDynamicPath_instructions
    {Printed : Type} (print : Path → Printed) (f : Factory)
    (first : Qc * Qc) (rest : list (Qc * Qc)) :
  let s := ROUTING_SCALING_FACTOR f in
  generateDynamicPath print f (first :: rest) =
    Some (print (M (first.1 * s) (first.2 * s)
                 :: ((λ p, L (p.1 * s) (p.2 * s)) <$> rest))) ∧
  generateDynamicPath print constructor [(0, 0); (num 2, num 3)] =
    Some (print [M 0 0; L (num 10) (num 15)]).
Proof.
  simpl. split.
  - unfold generateDynamicPath. simpl. rewrite drop_0. do 2 f_equal.
    by rewrite foldl_lineto.
  - unfold generateDynamicPath, lineto, moveto. simpl. do 2 f_equal.
    repeat f_equal; by apply Qc_is_canon.
Qed.

(** * The cells visited while marking *)

Lemma elem_of_paddedCells s b cx cy :
  (cx, cy) ∈ paddedCells s b ↔
  (floor (x b / s) - 1 ≤ cx ≤ ceil ((x b + width b) / s) + 1)%Z ∧
  (floor (y b / s) - 1 ≤ cy < ceil ((y b + height b) / s) + 1)%Z.
Proof.
  unfold paddedCells. rewrite list_elem_of_bind. split.
  - intros (cx' & (cy' & Hc & Hy%elem_of_seqZ)%list_elem_of_bind & Hx%elem_of_seqZ).
    apply list_elem_of_singleton in Hc. injection Hc as -> ->. lia.
  - intros [Hx Hy]. exists cx. split; [|apply elem_of_seqZ; lia].
    apply list_elem_of_bind. exists cy. split; [by apply list_elem_of_singleton|].
    apply elem_of_seqZ. lia.
Qed.

(** The two loops of [markElement] pass exactly [markedIndices], in
    order, to [markMatrixPoint]. *)
Lemma markElement_markedIndices f matrix b h :
  markElement f matrix b h =
  foldl (λ h c, markMatrixPoint matrix c.1 c.2 h) h (markedIndices f b).
Proof.
  unfold markElement, markedIndices, paddedCells, for_le, for_lt.
  cbv zeta.
  generalize (seqZ (floor (y b / ROUTING_SCALING_FACTOR f) - 1)
    (ceil ((y b + height b) / ROUTING_SCALING_FACTOR f) + 1
     - (floor (y b / ROUTING_SCALING_FACTOR f) - 1))).
  generalize (seqZ (floor (x b / ROUTING_SCALING_FACTOR f) - 1)
    (ceil ((x b + width b) / ROUTING_SCALING_FACTOR f) + 1 + 1
     - (floor (x b / ROUTING_SCALING_FACTOR f) - 1))).
  intros xs ys. revert h. induction xs as [|cx xs IH]; intros h; [done|].
  rewrite bind_cons, fmap_app, foldl_app, <-IH. cbn [foldl]. f_equal.
  clear. revert h. induction ys as [|cy ys IH]; intros h; [done|].
  rewrite bind_cons. cbn [foldl fmap list_fmap app fst snd]. by rewrite IH.
Qed.

(** * The store under the methods *)

Lemma getCanvasMatrix_cached e w :
  canvasMatrix (self w) ≠ [] →
  getCanvasMatrix e w = Return (canvasMatrix (self w)) w.
Proof.
  intros Hne. unfold getCanvasMatrix. rewrite decide_False; [done|].
  by destruct (canvasMatrix (self w)).
Qed.

Lemma getRoutingMatrix_cached e w :
  routingMatrix (self w) ≠ [] →
  getRoutingMatrix e w = Return (routingMatrix (self w)) w.
Proof.
  intros Hne. unfold getRoutingMatrix. rewrite decide_False; [done|].
  by destruct (routingMatrix (self w)).
Qed.

Lemma getCanvasMatrix_empty e w :
  canvasMatrix (self w) = [] →
  getCanvasMatrix e w =
    match calculateCanvasMatrix e w with
    | Return _ w' => Return (canvasMatrix (self w')) w'
    | Throw err w' => Throw err w'
    end.
Proof. intros Hm. unfold getCanvasMatrix, bind. by rewrite Hm. Qed.

Lemma getRoutingMatrix_empty e w :
  routingMatrix (self w) = [] →
  getRoutingMatrix e w =
    match calculateRoutingMatrix e w with
    | Return _ w' => Return (routingMatrix (self w')) w'
    | Throw err w' => Throw err w'
    end.
Proof. intros Hm. unfold getRoutingMatrix, bind. by rewrite Hm. Qed.

(** Rows made by [map(() => new Array(n).fill(0))], when it returns. *)
Lemma mapNewRows_inv n elems h m h' :
  mapNewRows n elems h = Some (m, h') →
  m = seq (length h) (length elems) ∧
  h' = h ++ replicate (length elems) (replicate (Z.to_nat n) 0%Z).
Proof.
  destruct (decide (0 ≤ n)%Z) as [Hn|Hn].
  - rewrite mapNewRows_Some by done. by intros [= <- <-].
  - destruct elems as [|i elems]; simpl.
    + intros [= <- <-]. by rewrite app_nil_r.
    + unfold newArrayFill. by rewrite decide_False.
Qed.

(** What a returning [calculateCanvasMatrix] leaves: fresh rows of zeros
    appended to the store, referenced by the canvas matrix; the routing
    matrix and the scaling factor are not touched. *)
Lemma calculateCanvasMatrix_inv e w w' :
  calculateCanvasMatrix e w = Return tt w' →
  ∃ rows cols,
    store w' = store w ++ replicate rows (replicate cols 0%Z) ∧
    canvasMatrix (self w') = seq (length (store w)) rows ∧
    routingMatrix (self w') = routingMatrix (self w) ∧
    ROUTING_SCALING_FACTOR (self w') = ROUTING_SCALING_FACTOR (self w).
Proof.
  unfold calculateCanvasMatrix.
  destruct (calculateMatrixDimensions _ e) as [d|]; [|done].
  destruct (mapNewRows _ _ _) as [[m h]|] eqn:Hrows; [|done].
  intros [= <-]. apply mapNewRows_inv in Hrows as [-> ->].
  by eexists _, _.
Qed.

Lemma cloneDeep_spec m h :
  allocated h m →
  cloneDeep m h = (seq (length h) (length m), h ++ ((λ l, default [] (h !! l)) <$> m)).
Proof.
  revert h. induction m as [|l m IH]; intros h Hm; simpl.
  - by rewrite app_nil_r.
  - apply Forall_cons in Hm as [Hl Hm].
    rewrite IH.
    2:{ eapply Forall_impl; [exact Hm|]. simpl. intros l' ?. rewrite length_app. lia. }
    rewrite length_app. simpl. rewrite Nat.add_1_r, <-app_assoc. simpl.
    do 3 f_equal. apply Forall_fmap_ext_1.
    eapply Forall_impl; [exact Hm|]. simpl. intros l' Hl'.
    by rewrite lookup_app_l.
Qed.

Lemma cloneDeep_fresh m h :
  (cloneDeep m h).1 = seq (length h) (length m) ∧
  ∃ rows, (cloneDeep m h).2 = h ++ rows ∧ length rows = length m.
Proof.
  revert h. induction m as [|l m IH]; intros h; simpl.
  - split; [done|]. exists []. by rewrite app_nil_r.
  - destruct (cloneDeep m (h ++ [default [] (h !! l)])) as [r h2] eqn:Hc.
    destruct (IH (h ++ [default [] (h !! l)])) as [Hr (rows & Hh & Hlen)].
    rewrite Hc in Hr, Hh. simpl in *. subst r h2. split.
    + rewrite length_app. simpl. by rewrite Nat.add_1_r.
    + eexists (_ :: rows). rewrite <-app_assoc. split; [done|]. simpl. lia.
Qed.

(** Marking writes only into rows of the matrix it is given. *)
Section MarkFrame.
Context (matrix : Matrix).

Lemma markMatrixPoint_length x y h :
  length (markMatrixPoint matrix x y h) = length h.
Proof.
  unfold markMatrixPoint.
  repeat case_match; try done. by rewrite length_insert.
Qed.

Lemma markMatrixPoint_frame x y h l :
  l ∉ matrix → markMatrixPoint matrix x y h !! l = h !! l.
Proof.
  intros Hl. unfold markMatrixPoint.
  destruct (index y ≫= _) as [l'|] eqn:Hy; [|done].
  apply bind_Some in Hy as (i & _ & Hi).
  repeat case_match; try done.
  rewrite list_lookup_insert_ne; [done|].
  intros ->. apply Hl. by eapply list_elem_of_lookup_2.
Qed.

Lemma markElement_length f b h : length (markElement f matrix b h) = length h.
Proof.
  rewrite markElement_markedIndices.
  revert h. induction (markedIndices f b) as [|c cs IH]; intros h; [done|].
  simpl. by rewrite IH, markMatrixPoint_length.
Qed.

Lemma markElement_frame f b h l :
  l ∉ matrix → markElement f matrix b h !! l = h !! l.
Proof.
  intros Hl. rewrite markElement_markedIndices.
  revert h. induction (markedIndices f b) as [|c cs IH]; intros h; [done|].
  simpl. by rewrite IH, markMatrixPoint_frame.
Qed.

Lemma markNodes_frame e f h l :
  l ∉ matrix → markNodes e f matrix h !! l = h !! l.
Proof.
  intros Hl. unfold markNodes.
  revert h. induction (nodes e) as [|b bs IH]; intros h; [done|].
  simpl. by rewrite IH, markElement_frame.
Qed.

Lemma markPorts_frame e f h l :
  l ∉ matrix → markPorts e f matrix h !! l = h !! l.
Proof.
  intros Hl. unfold markPorts.
  revert h. induction (linkPorts e) as [|b bs IH]; intros h; [done|].
  simpl. by rewrite IH, markElement_frame.
Qed.

Lemma markNodes_length e f h : length (markNodes e f matrix h) = length h.
Proof.
  unfold markNodes.
  revert h. induction (nodes e) as [|b bs IH]; intros h; [done|].
  simpl. by rewrite IH, markElement_length.
Qed.

Lemma markPorts_length e f h : length (markPorts e f matrix h) = length h.
Proof.
  unfold markPorts.
  revert h. induction (linkPorts e) as [|b bs IH]; intros h; [done|].
  simpl. by rewrite IH, markElement_length.
Qed.

End MarkFrame.

(** * The canvas matrix under the routing computation *)

Lemma cell_ext h h' (m : Matrix) :
  (∀ l, l ∈ m → h' !! l = h !! l) →
  ∀ row col, cell h' m row col = cell h m row col.
Proof.
  intros Hext row col. unfold cell.
  destruct (m !! row) as [l|] eqn:Hl; [|done]. simpl.
  rewrite Hext; [done|]. by eapply list_elem_of_lookup_2.
Qed.

Lemma allocated_app h rows (m : Matrix) : allocated h m → allocated (h ++ rows) m.
Proof.
  unfold allocated. intros Hm. eapply Forall_impl; [exact Hm|].
  intros l Hl. simpl in *. rewrite length_app. lia.
Qed.

Lemma allocated_seq (h rows : Heap) :
  allocated (h ++ rows) (seq (length h) (length rows)).
Proof.
  apply Forall_seq. intros l Hl. rewrite length_app. lia.
Qed.

Lemma zeroed_fresh (h : Heap) rows cols :
  zeroed (h ++ replicate rows (replicate cols 0%Z)) (seq (length h) rows).
Proof.
  intros row col v. unfold cell.
  destruct (seq (length h) rows !! row) as [l|] eqn:Hl; [|done]. simpl.
  apply lookup_seq in Hl as [-> Hrow].
  rewrite lookup_app_r by lia.
  replace (length h + row - length h)%nat with row by lia.
  rewrite lookup_replicate_2 by done. simpl.
  by intros [-> _]%lookup_replicate.
Qed.

(** What a returning [getCanvasMatrix] leaves. *)
Lemma getCanvasMatrix_inv e w canvas w1 :
  allocated (store w) (canvasMatrix (self w)) →
  zeroed (store w) (canvasMatrix (self w)) →
  getCanvasMatrix e w = Return canvas w1 →
  canvasMatrix (self w1) = canvas ∧
  allocated (store w1) canvas ∧
  zeroed (store w1) canvas ∧
  routingMatrix (self w1) = routingMatrix (self w) ∧
  ∃ rows, store w1 = store w ++ rows.
Proof.
  intros Halloc Hzero.
  destruct (decide (canvasMatrix (self w) = [])) as [Hm|Hm].
  - rewrite getCanvasMatrix_empty by done.
    destruct (calculateCanvasMatrix e w) as [[] w'|] eqn:Hc; [|done].
    intros [= <- <-].
    apply calculateCanvasMatrix_inv in Hc as (rows & cols & Hs & Hcanvas & Hr & _).
    rewrite Hs, Hcanvas. split; [done|]. split; [|split; [|split]].
    + replace rows with (length (replicate rows (replicate cols 0%Z))) at 2
        by apply length_replicate.
      apply allocated_seq.
    + apply zeroed_fresh.
    + done.
    + by eexists.
  - rewrite getCanvasMatrix_cached by done. intros [= <- <-].
    repeat split; try done. exists []. by rewrite app_nil_r.
Qed.

(** The routing computation after the canvas matrix has been obtained:
    clone, mark nodes, mark ports, assign. *)
Lemma calculateRoutingMatrix_unfold e w canvas w1 :
  getCanvasMatrix e w = Return canvas w1 →
  calculateRoutingMatrix e w =
    Return tt (mkWorld
      (markPorts e (self w1) (cloneDeep canvas (store w1)).1
        (markNodes e (self w1) (cloneDeep canvas (store w1)).1
          (cloneDeep canvas (store w1)).2))
      (set_routingMatrix (cloneDeep canvas (store w1)).1 (self w1))).
Proof.
  intros Hc. unfold calculateRoutingMatrix, bind. rewrite Hc.
  by destruct (cloneDeep canvas (store w1)).
Qed.

Lemma calculateRoutingMatrix_throw e w err w1 :
  getCanvasMatrix e w = Throw err w1 →
  calculateRoutingMatrix e w = Throw err w1.
Proof. intros Hc. unfold calculateRoutingMatrix, bind. by rewrite Hc. Qed.

(** The routing computation writes into no row of the canvas matrix. *)
Lemma calculateRoutingMatrix_frame
    (e : Engine) (w w1 : World) (canvas : Matrix) :
  allocated (store w) (canvasMatrix (self w)) →
  zeroed (store w) (canvasMatrix (self w)) →
  getCanvasMatrix e w = Return canvas w1 →
  ∃ w2, calculateRoutingMatrix e w = Return tt w2 ∧
    canvasMatrix (self w2) = canvas ∧
    (∀ l, l ∈ canvas → store w2 !! l = store w1 !! l) ∧
    (∀ row col, cell (store w2) canvas row col = cell (store w1) canvas row col) ∧
    zeroed (store w2) canvas ∧
    allocated (store w2) canvas ∧
    (∀ l, l ∈ routingMatrix (self w2) → l ∉ canvas).
Proof.
  intros Halloc Hzero Hc.
  destruct (getCanvasMatrix_inv e w canvas w1 Halloc Hzero Hc)
    as (Hcanvas & Halloc1 & Hzero1 & _ & _).
  eexists. split; [by apply calculateRoutingMatrix_unfold|].
  cbn [self store canvasMatrix routingMatrix set_routingMatrix].
  destruct (cloneDeep_fresh canvas (store w1)) as [Hm (rows & Hh & Hlen)].
  rewrite Hm, Hh.
  assert (∀ l, l ∈ canvas → l ∉ seq (length (store w1)) (length canvas)) as Hdisj.
  { intros l Hl [? _]%elem_of_seq.
    unfold allocated in Halloc1. rewrite Forall_forall in Halloc1.
    specialize (Halloc1 l Hl). lia. }
  assert (∀ l, l ∈ canvas →
    markPorts e (self w1) (seq (length (store w1)) (length canvas))
      (markNodes e (self w1) (seq (length (store w1)) (length canvas))
        (store w1 ++ rows)) !! l = store w1 !! l) as Hframe.
  { intros l Hl.
    rewrite markPorts_frame, markNodes_frame by by apply Hdisj.
    apply lookup_app_l.
    unfold allocated in Halloc1. rewrite Forall_forall in Halloc1. by apply Halloc1. }
  split; [done|]. split; [done|].
  split; [by apply cell_ext|].
  split; [|split].
  - intros row col v. rewrite (cell_ext (store w1)) by done. apply Hzero1.
  - unfold allocated. rewrite markPorts_length, markNodes_length.
    by apply allocated_app.
  - intros l Hl Hl'. by apply (Hdisj l).
Qed.

(** What a throwing getter leaves: the store and the two matrices are
    those before the call. *)
Lemma getCanvasMatrix_throw_inv e w err w' :
  getCanvasMatrix e w = Throw err w' →
  store w' = store w ∧
  canvasMatrix (self w') = canvasMatrix (self w) ∧
  routingMatrix (self w') = routingMatrix (self w) ∧
  ROUTING_SCALING_FACTOR (self w') = ROUTING_SCALING_FACTOR (self w).
Proof.
  unfold getCanvasMatrix, bind. case_decide; [|done].
  unfold calculateCanvasMatrix.
  destruct (calculateMatrixDimensions _ e) as [d|]; [|by intros [= _ <-]].
  destruct (mapNewRows _ _ _) as [[m h]|]; [done|]. by intros [= _ <-].
Qed.

(** The invariant of the reachable states: the rows of the canvas matrix
    exist and hold zeros, and the scaling factor is 5. *)
Lemma reachable_invariant w :
  reachable w →
  allocated (store w) (canvasMatrix (self w)) ∧
  zeroed (store w) (canvasMatrix (self w)) ∧
  ROUTING_SCALING_FACTOR (self w) = num 5.
Proof.
  induction 1 as [|e w canvas w' _ (Ha & Hz & Hs) Hc|e w err w' _ (Ha & Hz & Hs) Hc
                  |e w routing w' _ (Ha & Hz & Hs) Hr|e w err w' _ (Ha & Hz & Hs) Hr
                  |w _ (Ha & Hz & Hs)].
  - split; [by apply Forall_nil|]. split; [|done]. intros row col v. by destruct row.
  - destruct (getCanvasMatrix_inv e w canvas w' Ha Hz Hc) as (<- & Ha' & Hz' & _ & _).
    split; [done|]. split; [done|].
    revert Hc. unfold getCanvasMatrix, bind. case_decide; [|by intros [= _ <-]].
    destruct (calculateCanvasMatrix e w) as [[] w''|] eqn:Hcalc; [|done].
    intros [= _ <-].
    apply calculateCanvasMatrix_inv in Hcalc as (? & ? & _ & _ & _ & ->). done.
  - apply getCanvasMatrix_throw_inv in Hc as (-> & -> & _ & ->). done.
  - destruct (decide (routingMatrix (self w) = [])) as [Hm|Hm].
    2:{ rewrite getRoutingMatrix_cached in Hr by done. by injection Hr as _ <-. }
    rewrite getRoutingMatrix_empty in Hr by done.
    destruct (getCanvasMatrix e w) as [canvas wc|err wc] eqn:Hc.
    2:{ by rewrite (calculateRoutingMatrix_throw _ _ _ _ Hc) in Hr. }
    destruct (calculateRoutingMatrix_frame e w wc canvas Ha Hz Hc)
      as (w2 & Hw2 & Hcanvas & _ & _ & Hz2 & Ha2 & _).
    rewrite Hw2 in Hr. injection Hr as _ <-. rewrite Hcanvas.
    split; [done|]. split; [done|].
    rewrite (calculateRoutingMatrix_unfold _ _ _ _ Hc) in Hw2. injection Hw2 as <-.
    cbn [self ROUTING_SCALING_FACTOR set_routingMatrix].
    revert Hc. unfold getCanvasMatrix, bind. case_decide; [|by intros [= _ <-]].
    destruct (calculateCanvasMatrix e w) as [[] w''|] eqn:Hcalc; [|done].
    intros [= _ <-].
    apply calculateCanvasMatrix_inv in Hcalc as (? & ? & _ & _ & _ & ->). done.
  - destruct (decide (routingMatrix (self w) = [])) as [Hm|Hm].
    2:{ by rewrite getRoutingMatrix_cached in Hr. }
    rewrite getRoutingMatrix_empty in Hr by done.
    destruct (getCanvasMatrix e w) as [canvas wc|err' wc] eqn:Hc.
    { by rewrite (calculateRoutingMatrix_unfold _ _ _ _ Hc) in Hr. }
    rewrite (calculateRoutingMatrix_throw _ _ _ _ Hc) in Hr. injection Hr as _ <-.
    apply getCanvasMatrix_throw_inv in Hc as (-> & -> & _ & ->). done.
  - cbn [invalidate store self canvasMatrix set_routingMatrix set_canvasMatrix
         ROUTING_SCALING_FACTOR].
    split; [by apply Forall_nil|]. split; [|done]. intros row col v. by destruct row.
Qed.

(** C7.  In every state the factory can be in, a routing-matrix
    computation leaves the canvas matrix as it is: the field still
    refers to the same rows, every cell of it holds the value it held
    when the computation obtained the matrix, which is 0, and no row of
    the new routing matrix is a row of the canvas matrix (the obstacles
    are marked on a deep copy). *)
Theorem calculateRoutingMatrix_keeps_canvas
    (e : Engine) (w w1 : World) (canvas : Matrix) :
  reachable w →
  getCanvasMatrix e w = Return canvas w1 →
  ∃ w2, calculateRoutingMatrix e w = Return tt w2 ∧
    canvasMatrix (self w2) = canvas ∧
    (∀ row col, cell (store w2) canvas row col = cell (store w1) canvas row col) ∧
    zeroed (store w2) canvas ∧
    (∀ l, l ∈ routingMatrix (self w2) → l ∉ canvas).
Proof.
  intros (Ha & Hz & _)%reachable_invariant Hc.
  destruct (calculateRoutingMatrix_frame e w w1 canvas Ha Hz Hc)
    as (w2 & Hw2 & Hcanvas & _ & Hcells & Hz2 & _ & Hdisj).
  by exists w2.
Qed.

Lemma calculateRoutingMatrix_keeps_canvas_witness :
  ∃ canvas w1 w2,
    getCanvasMatrix smallEngine initial = Return canvas w1 ∧
    calculateRoutingMatrix smallEngine initial = Return tt w2 ∧
    canvasMatrix (self w2) = canvas ∧
    (∀ row col, cell (store w2) canvas row col = cell (store w1) canvas row col) ∧
    zeroed (store w2) canvas.
Proof.
  destruct (getCanvasMatrix smallEngine initial) as [canvas w1|err w1] eqn:Hc;
    [|by vm_compute in Hc].
  destruct (calculateRoutingMatrix_keeps_canvas smallEngine initial w1 canvas)
    as (w2 & H2 & Hcanvas & Hcells & Hzero & _).
  - apply reachable_initial.
  - exact Hc.
  - by exists canvas, w1, w2.
Defined.

(** * Totality of the getters *)

Lemma getCanvasMatrix_returns e w :
  0 < ROUTING_SCALING_FACTOR (self w) → allCoords e ≠ [] →
  ∃ canvas w1, getCanvasMatrix e w = Return canvas w1 ∧
    ROUTING_SCALING_FACTOR (self w1) = ROUTING_SCALING_FACTOR (self w).
Proof.
  intros Hs He. destruct (decide (canvasMatrix (self w) = [])) as [Hm|Hm].
  - rewrite getCanvasMatrix_empty by done.
    destruct (calculateCanvasMatrix_Return e w Hs He) as (d & _ & ->).
    by eexists _, _.
  - rewrite getCanvasMatrix_cached by done. by eexists _, _.
Qed.

Lemma getRoutingMatrix_returns e w :
  0 < ROUTING_SCALING_FACTOR (self w) → allCoords e ≠ [] →
  ∃ routing w1, getRoutingMatrix e w = Return routing w1.
Proof.
  intros Hs He. destruct (decide (routingMatrix (self w) = [])) as [Hm|Hm].
  - rewrite getRoutingMatrix_empty by done.
    destruct (getCanvasMatrix_returns e w Hs He) as (canvas & w1 & Hc & _).
    rewrite (calculateRoutingMatrix_unfold _ _ _ _ Hc). by eexists _, _.
  - rewrite getRoutingMatrix_cached by done. by eexists _, _.
Qed.

(** * The two caches *)

(** C8 (as amended).  Each getter computes its matrix only when its
    field is empty, and otherwise returns the field without touching the
    state: a read that returned a matrix with at least one row is
    repeated by every later read, whatever the geometry has become.  On
    a factory whose two fields are empty (as after construction or after
    an invalidation) a read of the routing matrix computes each matrix
    exactly once: the store grows by the rows of one canvas matrix and of
    one routing matrix, both fresh.  On a geometry with at least one box
    both getters return. *)
Theorem getters_memoize (e e' : Engine) (w w1 : World) (m : Matrix) :
  (m ≠ [] → getCanvasMatrix e w = Return m w1 → getCanvasMatrix e' w1 = Return m w1) ∧
  (m ≠ [] → getRoutingMatrix e w = Return m w1 → getRoutingMatrix e' w1 = Return m w1) ∧
  (canvasMatrix (self w) ≠ [] → getCanvasMatrix e w = Return (canvasMatrix (self w)) w) ∧
  (routingMatrix (self w) ≠ [] → getRoutingMatrix e w = Return (routingMatrix (self w)) w) ∧
  (canvasMatrix (self w) = [] → getCanvasMatrix e w = Return m w1 →
     m = seq (length (store w)) (length m) ∧
     length (store w1) = (length (store w) + length m)%nat) ∧
  (canvasMatrix (self w) = [] → routingMatrix (self w) = [] →
     getRoutingMatrix e w = Return m w1 →
     canvasMatrix (self w1) = seq (length (store w)) (length m) ∧
     m = seq (length (store w) + length m) (length m) ∧
     length (store w1) = (length (store w) + length m + length m)%nat) ∧
  (0 < ROUTING_SCALING_FACTOR (self w) → allCoords e ≠ [] →
     (∃ canvas wc, getCanvasMatrix e w = Return canvas wc) ∧
     (∃ routing wr, getRoutingMatrix e w = Return routing wr)).
Proof.
  assert (∀ w canvas w1, canvasMatrix (self w) = [] →
    getCanvasMatrix e w = Return canvas w1 →
    canvasMatrix (self w1) = canvas ∧
    canvas = seq (length (store w)) (length canvas) ∧
    length (store w1) = (length (store w) + length canvas)%nat) as Hfresh.
  { clear. intros w canvas w1 Hm. rewrite getCanvasMatrix_empty by done.
    destruct (calculateCanvasMatrix e w) as [[] w'|] eqn:Hc; [|done].
    intros [= <- <-].
    apply calculateCanvasMatrix_inv in Hc as (rows & cols & -> & -> & _).
    by rewrite length_seq, length_app, length_replicate. }
  assert (∀ w canvas w1, getCanvasMatrix e w = Return canvas w1 →
    canvasMatrix (self w1) = canvas) as Hfield.
  { clear -Hfresh. intros w canvas w1.
    destruct (decide (canvasMatrix (self w) = [])) as [Hm|Hm].
    - intros H. by apply Hfresh in H as [? _].
    - rewrite getCanvasMatrix_cached by done. by intros [= <- <-]. }
  split; [|split; [|split; [|split; [|split; [|split]]]]].
  - intros Hm Hc. apply Hfield in Hc as <-. by apply getCanvasMatrix_cached.
  - intros Hm Hr.
    assert (routingMatrix (self w1) = m) as <-; [|by apply getRoutingMatrix_cached].
    destruct (decide (routingMatrix (self w) = [])) as [He|He].
    + rewrite getRoutingMatrix_empty in Hr by done.
      destruct (calculateRoutingMatrix e w) as [[] w'|]; [|done]. by injection Hr as <- <-.
    + rewrite getRoutingMatrix_cached in Hr by done. by injection Hr as <- <-.
  - apply getCanvasMatrix_cached.
  - apply getRoutingMatrix_cached.
  - intros Hm Hc. by apply Hfresh in Hc as (_ & ? & ?).
  - intros Hc Hr. rewrite getRoutingMatrix_empty by done.
    destruct (getCanvasMatrix e w) as [canvas wc|err wc] eqn:Hcanvas.
    2:{ by rewrite (calculateRoutingMatrix_throw _ _ _ _ Hcanvas). }
    rewrite (calculateRoutingMatrix_unfold _ _ _ _ Hcanvas).
    cbn [self store canvasMatrix routingMatrix set_routingMatrix].
    intros [= <- <-].
    cbn [self store canvasMatrix routingMatrix set_routingMatrix].
    apply Hfresh in Hcanvas as (Hfield' & Hseq & Hlen); [|done].
    destruct (cloneDeep_fresh canvas (store wc)) as [Hm (rows & Hh & Hrows)].
    rewrite markPorts_length, markNodes_length, Hh, Hm, length_app, Hrows, Hlen.
    rewrite !length_seq. rewrite Hfield'. done.
  - intros Hs He. split; [|by apply getRoutingMatrix_returns].
    destruct (getCanvasMatrix_returns e w Hs He) as (canvas & wc & Hc & _).
    by exists canvas, wc.
Qed.

Lemma getters_memoize_witness :
  ∃ m w1 m' w2,
    m ≠ [] ∧
    getRoutingMatrix smallEngine initial = Return m w1 ∧
    getRoutingMatrix scenarioEngine w1 = Return m w1 ∧
    getRoutingMatrix scenarioEngine (invalidate w1) = Return m' w2 ∧
    length (store w2) = (length (store w1) + length m' + length m')%nat.
Proof.
  destruct (getRoutingMatrix smallEngine initial) as [m w1|err w1] eqn:Hr;
    [|by vm_compute in Hr].
  assert (m ≠ []) as Hm by (vm_compute in Hr; by injection Hr as <- _).
  destruct (getRoutingMatrix scenarioEngine (invalidate w1)) as [m' w2|err w2] eqn:Hr2.
  2:{ exfalso. vm_compute in Hr. injection Hr as _ <-. by vm_compute in Hr2. }
  exists m, w1, m', w2. split; [done|]. split; [done|].
  split; [by apply (getters_memoize smallEngine scenarioEngine initial w1 m)|].
  split; [done|].
  by apply (getters_memoize scenarioEngine scenarioEngine (invalidate w1) w2 m').
Defined.

(** C8 (as stated) fails: the first read computes a matrix without rows
    (a node without size at the origin, in a canvas without layout size),
    which leaves the field empty; the next read, with no invalidation in
    between, computes again and returns another matrix. *)
Lemma getRoutingMatrix_not_memoized_when_empty :
  ∃ m1 w1 m2 w2,
    getRoutingMatrix unsizedEngine initial = Return m1 w1 ∧
    getRoutingMatrix scenarioEngine w1 = Return m2 w2 ∧
    m1 = [] ∧ length m2 = 120%nat ∧ m2 ≠ m1 ∧
    length (store w1) = 0%nat ∧ length (store w2) = 240%nat.
Proof.
  destruct (getRoutingMatrix unsizedEngine initial) as [m1 w1|err w1] eqn:H1;
    [|by vm_compute in H1].
  destruct (getRoutingMatrix scenarioEngine w1) as [m2 w2|err w2] eqn:H2.
  - exists m1, w1, m2, w2. split; [done|]. split; [done|].
    vm_compute in H1. injection H1 as <- <-.
    vm_compute in H2. injection H2 as <- <-. by vm_compute.
  - exfalso. vm_compute in H1. injection H1 as <- <-. by vm_compute in H2.
Qed.

(** * The first read of the routing matrix *)

(** C10 (as amended).  A read of the routing matrix while both fields
    are empty first computes the canvas matrix, which stores the two
    adjustment factors that the dimension computation returns and a
    matrix of zeros; the obstacles are then marked, with those stored
    factors, on a deep copy of that matrix, which becomes the routing
    matrix.  Afterwards the factory still holds that canvas matrix and
    those factors, and when the canvas matrix has at least one row
    [getCanvasMatrix] returns it without computing, whatever the
    geometry has become. *)
Theorem getRoutingMatrix_first_read (e : Engine) (w : World) :
  canvasMatrix (self w) = [] →
  routingMatrix (self w) = [] →
  0 < ROUTING_SCALING_FACTOR (self w) →
  allCoords e ≠ [] →
  ∃ d wc routing w',
    calculateMatrixDimensions (ROUTING_SCALING_FACTOR (self w)) e = Some d ∧
    calculateCanvasMatrix e w = Return tt wc ∧
    hAdjustmentFactor (self wc) = dim_hAdjustmentFactor d ∧
    vAdjustmentFactor (self wc) = dim_vAdjustmentFactor d ∧
    zeroed (store wc) (canvasMatrix (self wc)) ∧
    getRoutingMatrix e w = Return routing w' ∧
    routing = (cloneDeep (canvasMatrix (self wc)) (store wc)).1 ∧
    store w' = markPorts e (self wc) routing
                 (markNodes e (self wc) routing
                    (cloneDeep (canvasMatrix (self wc)) (store wc)).2) ∧
    self w' = set_routingMatrix routing (self wc) ∧
    canvasMatrix (self w') = canvasMatrix (self wc) ∧
    hAdjustmentFactor (self w') = dim_hAdjustmentFactor d ∧
    vAdjustmentFactor (self w') = dim_vAdjustmentFactor d ∧
    (canvasMatrix (self w') ≠ [] →
       ∀ e', getCanvasMatrix e' w' = Return (canvasMatrix (self w')) w').
Proof.
  intros Hc Hr Hs He.
  destruct (calculateCanvasMatrix_Return e w Hs He) as (d & Hd & Hret).
  cbv zeta in Hret.
  assert (getCanvasMatrix e w = getCanvasMatrix e w) as Hg by done.
  rewrite getCanvasMatrix_empty in Hg at 2 by done. rewrite Hret in Hg.
  eexists d, _, _, _. split; [done|]. split; [exact Hret|].
  rewrite getRoutingMatrix_empty by done.
  rewrite (calculateRoutingMatrix_unfold _ _ _ _ Hg).
  cbn [self store canvasMatrix routingMatrix hAdjustmentFactor vAdjustmentFactor
       set_routingMatrix set_canvasMatrix set_adjustmentFactors].
  split; [done|]. split; [done|]. split; [apply zeroed_fresh|].
  split; [reflexivity|]. split; [done|]. split; [done|]. split; [done|].
  split; [done|]. split; [done|]. split; [done|].
  intros Hne e'. by apply getCanvasMatrix_cached.
Qed.

Lemma getRoutingMatrix_first_read_witness :
  ∃ routing w',
    getRoutingMatrix smallEngine initial = Return routing w' ∧
    canvasMatrix (self w') ≠ [] ∧
    getCanvasMatrix scenarioEngine w' = Return (canvasMatrix (self w')) w'.
Proof.
  destruct (getRoutingMatrix_first_read smallEngine initial)
    as (d & wc & routing & w' & _ & _ & _ & _ & _ & Hr & _ & _ & _ & _ & _ & _ & Hmemo).
  - reflexivity.
  - reflexivity.
  - by vm_compute.
  - vm_compute. discriminate.
  - exists routing, w'. split; [done|].
    assert (canvasMatrix (self w') ≠ []) as Hne.
    { vm_compute in Hr. by injection Hr as <- <-. }
    split; [done|]. by apply Hmemo.
Defined.

(** C10 (as stated) fails: when the computed canvas matrix has no row
    (a node without size at the origin, in a canvas without layout size)
    the field stays empty, and the [getCanvasMatrix] that follows computes
    again: it allocates rows and returns another matrix. *)
Lemma getCanvasMatrix_recomputes_after_first_read :
  ∃ routing w' canvas w'',
    getRoutingMatrix unsizedEngine initial = Return routing w' ∧
    getCanvasMatrix scenarioEngine w' = Return canvas w'' ∧
    canvasMatrix (self w') = [] ∧
    canvas ≠ canvasMatrix (self w') ∧
    length (store w') = 0%nat ∧ length (store w'') = 120%nat.
Proof.
  destruct (getRoutingMatrix unsizedEngine initial) as [m1 w1|err w1] eqn:H1;
    [|by vm_compute in H1].
  destruct (getCanvasMatrix scenarioEngine w1) as [m2 w2|err w2] eqn:H2.
  - exists m1, w1, m2, w2. split; [done|]. split; [done|].
    vm_compute in H1. injection H1 as <- <-.
    vm_compute in H2. injection H2 as <- <-. by vm_compute.
  - exfalso. vm_compute in H1. injection H1 as <- <-. by vm_compute in H2.
Qed.

(** * The 800×600 scenario *)

(** A property of all cells of an [R]×[C] grid, checked by evaluation. *)
Lemma forall_cells (P : nat → nat → Prop) `{∀ r c, Decision (P r c)} (R C : nat) :
  bool_decide (Forall (λ r, Forall (P r) (seq 0 C)) (seq 0 R)) = true →
  ∀ r c, (r < R)%nat → (c < C)%nat → P r c.
Proof.
  intros Hall%bool_decide_eq_true r c Hr Hc.
  rewrite Forall_seq in Hall. specialize (Hall r ltac:(lia)).
  rewrite Forall_seq in Hall. apply Hall. lia.
Qed.

(** A decidable closed statement, settled by evaluating its decision. *)
Ltac by_evaluation :=
  match goal with |- ?P => apply (bool_decide_eq_true_1 P); vm_compute; reflexivity end.

(** C3 (as amended).  Viewport 800×600, one node at (100,100) of size
    50×50, no links, scaling factor 5: the canvas matrix has 120 rows of
    160 cells, all 0; both adjustment factors are 1, so the node's cells
    19..31 × 19..30 are written one cell further; in the routing matrix,
    of 120 rows of 160 cells, every cell in columns 20..32 of rows 20..31
    is 1 and every cell outside columns 20..32 of rows 20..32 is 0. *)
Theorem scenario_matrices :
  ∃ routing w,
    getRoutingMatrix scenarioEngine initial = Return routing w ∧
    rowsOf (store w) (canvasMatrix (self w)) = replicate 120 (replicate 160 0%Z) ∧
    hAdjustmentFactor (self w) = 1 ∧ vAdjustmentFactor (self w) = 1 ∧
    length routing = 120%nat ∧
    Forall (λ row, length row = 160%nat) (rowsOf (store w) routing) ∧
    (∀ row col, (20 ≤ row ≤ 31)%nat → (20 ≤ col ≤ 32)%nat →
       cell (store w) routing row col = Some 1%Z) ∧
    (∀ row col, (row < 120)%nat → (col < 160)%nat →
       ¬ ((20 ≤ row ≤ 32)%nat ∧ (20 ≤ col ≤ 32)%nat) →
       cell (store w) routing row col = Some 0%Z).
Proof.
  set (o := getRoutingMatrix scenarioEngine initial).
  exists (matrixOf o), (worldOf o).
  split; [by vm_compute|].
  split; [by vm_compute|].
  split; [by apply Qc_is_canon|]. split; [by apply Qc_is_canon|].
  split; [by vm_compute|].
  split; [by_evaluation|].
  split.
  - intros row col Hrow Hcol.
    apply (forall_cells (λ r c, (20 ≤ r ≤ 31)%nat → (20 ≤ c ≤ 32)%nat →
             cell (store (worldOf o)) (matrixOf o) r c = Some 1%Z) 32 33);
      [by vm_compute|lia..|done|done].
  - intros row col Hrow Hcol.
    apply (forall_cells (λ r c, ¬ ((20 ≤ r ≤ 32)%nat ∧ (20 ≤ c ≤ 32)%nat) →
             cell (store (worldOf o)) (matrixOf o) r c = Some 0%Z) 120 160);
      [by vm_compute|lia..].
Qed.

(** C3 (as stated) fails, reading its grid columns and rows as indices
    of the routing matrix: the cell of row 19 and column 19 is 0 and the
    cell of row 25 and column 32 is 1, so the cells that are 1 are not
    those of columns 19..31 and rows 19..31. *)
Lemma scenario_matrices_not_as_stated :
  let o := getRoutingMatrix scenarioEngine initial in
  cell (store (worldOf o)) (matrixOf o) 19 19 = Some 0%Z ∧
  cell (store (worldOf o)) (matrixOf o) 25 32 = Some 1%Z ∧
  ¬ (∀ row col, (row < 120)%nat → (col < 160)%nat →
       cell (store (worldOf o)) (matrixOf o) row col = Some 1%Z
       ↔ (19 ≤ row ≤ 31)%nat ∧ (19 ≤ col ≤ 31)%nat).
Proof.
  intros o.
  assert (cell (store (worldOf o)) (matrixOf o) 19 19 = Some 0%Z) as H19
    by by vm_compute.
  split; [done|]. split; [by vm_compute|].
  intros Hclaim. specialize (Hclaim 19%nat 19%nat ltac:(lia) ltac:(lia)).
  rewrite H19 in Hclaim. destruct Hclaim as [_ Hclaim].
  discriminate Hclaim. lia.
Qed.

(** * What marking writes *)

(** One call of [markMatrixPoint]: the cell of row [y] and column [x]
    becomes 1 when it exists; every other cell, and the shape of the
    matrix, stay as they are.  Nothing happens, and nothing is thrown,
    when [(x, y)] names no cell. *)
Lemma markMatrixPoint_cell (matrix : Matrix) x y (h : Heap) row col :
  NoDup matrix →
  cell (markMatrixPoint matrix x y h) matrix row col =
    if decide (index x = Some col ∧ index y = Some row)
    then (λ _, 1%Z) <$> cell h matrix row col
    else cell h matrix row col.
Proof.
  intros Hnd. unfold markMatrixPoint.
  destruct (index y) as [i|] eqn:Hy; cbn [mbind option_bind].
  2:{ rewrite decide_False; [done|]. by intros [_ ?]. }
  destruct (matrix !! i) as [l|] eqn:Hl.
  2:{ case_decide as Hd; [|done]. destruct Hd as [_ [= <-]].
      unfold cell. by rewrite Hl. }
  destruct (h !! l) as [r|] eqn:Hr.
  2:{ case_decide as Hd; [|done]. destruct Hd as [_ [= <-]].
      unfold cell. rewrite Hl. cbn [mbind option_bind]. by rewrite Hr. }
  destruct (index x) as [j|] eqn:Hx.
  2:{ rewrite decide_False; [done|]. by intros [? _]. }
  destruct (decide (j < length r)%nat) as [Hj|Hj].
  2:{ case_decide as Hd; [|done]. destruct Hd as [[= <-] [= <-]].
      unfold cell. rewrite Hl. cbn [mbind option_bind]. rewrite Hr.
      cbn [mbind option_bind]. rewrite lookup_ge_None_2 by lia. done. }
  unfold cell. destruct (matrix !! row) as [l'|] eqn:Hl'; cbn [mbind option_bind].
  2:{ by case_decide. }
  destruct (decide (l' = l)) as [->|Hne].
  - assert (row = i) as -> by (by eapply NoDup_lookup).
    rewrite list_lookup_insert_eq by (by eapply lookup_lt_Some).
    rewrite Hr. cbn [mbind option_bind].
    destruct (decide (col = j)) as [->|Hcol].
    + rewrite decide_True by done. rewrite list_lookup_insert_eq by done.
      by destruct (lookup_lt_is_Some_2 r j Hj) as [v ->].
    + rewrite decide_False by (intros [[= ?] _]; done).
      by rewrite list_lookup_insert_ne.
  - rewrite list_lookup_insert_ne by done.
    rewrite decide_False; [done|]. intros [_ [= <-]]. congruence.
Qed.

(** A loop of marking steps marks a cell when one of its steps does. *)
Section MarkLoop.
Context {B : Type} (step : B → Heap → Heap) (hits : B → Prop) `{∀ b, Decision (hits b)}.
Context (matrix : Matrix) (row col : nat).
Hypothesis step_cell : ∀ b h,
  cell (step b h) matrix row col =
    if decide (hits b) then (λ _, 1%Z) <$> cell h matrix row col
    else cell h matrix row col.

Lemma foldl_step_cell (bs : list B) (h : Heap) :
  cell (foldl (λ h b, step b h) h bs) matrix row col =
    if decide (Exists hits bs) then (λ _, 1%Z) <$> cell h matrix row col
    else cell h matrix row col.
Proof.
  revert h. induction bs as [|b bs IH]; intros h.
  - cbn [foldl]. rewrite decide_False; [done|]. by intros ?%Exists_nil.
  - cbn [foldl]. rewrite IH, step_cell.
    destruct (decide (hits b)) as [Hb|Hb].
    + rewrite (decide_True (P := Exists _ (b :: bs))) by (by apply Exists_cons_hd).
      case_decide; [|done]. by destruct (cell h matrix row col).
    + destruct (decide (Exists hits bs)) as [Hi|Hi].
      * by rewrite decide_True by (by apply Exists_cons_tl).
      * rewrite decide_False; [done|]. by intros [?|?]%Exists_cons.
Qed.

End MarkLoop.


(** Marking a box: a cell of the matrix becomes 1 when one of the padded
    cells of the box translates to its column and row, and keeps its
    value otherwise; cells that do not exist are not created. *)
Lemma markElement_cell f (matrix : Matrix) b (h : Heap) row col :
  NoDup matrix →
  cell (markElement f matrix b h) matrix row col =
    if decide (hit f row col b)
    then (λ _, 1%Z) <$> cell h matrix row col
    else cell h matrix row col.
Proof.
  intros Hnd. rewrite markElement_markedIndices.
  apply (foldl_step_cell (λ c, markMatrixPoint matrix c.1 c.2)
           (λ c, index c.1 = Some col ∧ index c.2 = Some row)).
  intros c h'. by apply markMatrixPoint_cell.
Qed.

Lemma cloneDeep_cell (m : Matrix) (h : Heap) row col :
  allocated h m →
  cell (cloneDeep m h).2 (cloneDeep m h).1 row col = cell h m row col.
Proof.
  intros Ha. rewrite cloneDeep_spec by done. cbn [fst snd]. unfold cell.
  destruct (m !! row) as [l|] eqn:Hl.
  2:{ rewrite lookup_seq_ge; [done|]. by apply lookup_ge_None. }
  rewrite lookup_seq_lt by (by eapply lookup_lt_Some).
  cbn [mbind option_bind].
  rewrite lookup_app_r by lia.
  replace (length h + row - length h)%nat with row by lia.
  rewrite list_lookup_fmap, Hl. cbn [fmap option_fmap option_map mbind option_bind].
  unfold allocated in Ha. rewrite Forall_forall in Ha.
  destruct (lookup_lt_is_Some_2 h l) as [r Hr].
  { apply Ha. by eapply list_elem_of_lookup_2. }
  by rewrite Hr.
Qed.

Lemma markNodes_cell e f (matrix : Matrix) (h : Heap) row col :
  NoDup matrix →
  cell (markNodes e f matrix h) matrix row col =
    if decide (Exists (hit f row col) (nodes e))
    then (λ _, 1%Z) <$> cell h matrix row col
    else cell h matrix row col.
Proof.
  intros Hnd. unfold markNodes.
  apply (foldl_step_cell (markElement f matrix) (hit f row col)).
  intros b h'. by apply markElement_cell.
Qed.

Lemma markPorts_cell e f (matrix : Matrix) (h : Heap) row col :
  NoDup matrix →
  cell (markPorts e f matrix h) matrix row col =
    if decide (Exists (hit f row col) (linkPorts e))
    then (λ _, 1%Z) <$> cell h matrix row col
    else cell h matrix row col.
Proof.
  intros Hnd. unfold markPorts.
  apply (foldl_step_cell (markElement f matrix) (hit f row col)).
  intros b h'. by apply markElement_cell.
Qed.

(** The routing matrix that a read computes has the cells of the canvas
    matrix, and a cell of it is 1 when a node or a port hits it and 0
    otherwise. *)
Lemma getRoutingMatrix_cells (e : Engine) (w w' : World) (routing : Matrix) :
  reachable w →
  routingMatrix (self w) = [] →
  getRoutingMatrix e w = Return routing w' →
  ∀ row col,
    cell (store w') routing row col =
    (λ _, if decide (Exists (hit (self w') row col) (nodes e ++ linkPorts e))
          then 1%Z else 0%Z)
    <$> cell (store w') (canvasMatrix (self w')) row col.
Proof.
  intros Hreach Hempty Hr row col.
  destruct (reachable_invariant w Hreach) as (Ha & Hz & _).
  rewrite getRoutingMatrix_empty in Hr by done.
  destruct (getCanvasMatrix e w) as [canvas wc|err wc] eqn:Hc.
  2:{ by rewrite (calculateRoutingMatrix_throw _ _ _ _ Hc) in Hr. }
  destruct (calculateRoutingMatrix_frame e w wc canvas Ha Hz Hc)
    as (w2 & Hw2 & Hcanvas & _ & Hcells & _ & _ & _).
  rewrite Hw2 in Hr. injection Hr as <- <-.
  rewrite Hcanvas, Hcells.
  destruct (getCanvasMatrix_inv e w canvas wc Ha Hz Hc) as (_ & Ha1 & Hz1 & _ & _).
  rewrite (calculateRoutingMatrix_unfold _ _ _ _ Hc) in Hw2. injection Hw2 as <-.
  cbn [self store routingMatrix set_routingMatrix].
  assert (NoDup (cloneDeep canvas (store wc)).1) as Hnd.
  { rewrite (proj1 (cloneDeep_fresh _ _)). apply NoDup_seq. }
  rewrite markPorts_cell, markNodes_cell, cloneDeep_cell by done.
  change (hit (set_routingMatrix ?m ?f)) with (hit f).
  destruct (cell (store wc) canvas row col) as [v|] eqn:Hv.
  2:{ by repeat case_decide. }
  apply Hz1 in Hv as ->. cbn [fmap option_fmap option_map].
  destruct (decide (Exists (hit (self wc) row col) (nodes e))) as [Hn|Hn];
    destruct (decide (Exists (hit (self wc) row col) (linkPorts e))) as [Hp|Hp];
    cbn [fmap option_fmap option_map].
  - rewrite decide_True; [done|]. apply Exists_app. by left.
  - rewrite decide_True; [done|]. apply Exists_app. by left.
  - rewrite decide_True; [done|]. apply Exists_app. by right.
  - rewrite decide_False; [done|]. by intros [?|?]%Exists_app.
Qed.

(** * The last padding row *)

(** No index of the row [ceil((y+height)/s) + 1] is produced for a box,
    while the column [ceil((x+width)/s) + 1] is produced in every row
    that is. *)
Lemma paddedCells_last_row_and_column s b :
  (∀ cx, (cx, ceil ((y b + height b) / s) + 1)%Z ∉ paddedCells s b) ∧
  (∀ cy, (floor (y b / s) - 1 ≤ cy < ceil ((y b + height b) / s) + 1)%Z →
         (floor (x b / s) - 1 ≤ ceil ((x b + width b) / s) + 1)%Z →
         ((ceil ((x b + width b) / s) + 1)%Z, cy) ∈ paddedCells s b).
Proof.
  split.
  - intros cx [_ Hy]%elem_of_paddedCells. lia.
  - intros cy Hy Hx. apply elem_of_paddedCells. lia.
Qed.

(** C1 at the failing input.  Viewport 800×600, scaling factor 5, the
    box (100,100) of size 50×50 as a node, and as a port.  The cell of
    column 19 and row 31 belongs to the padded rectangle of the box, and
    its translation, column 20 of row 32, is inside the matrix; the cell
    is left at 0.  In the other direction the last padding column is
    marked: column 32 of row 20 is 1. *)
Theorem marking_omits_last_padding_row :
  let box := mkBox (num 100) (num 100) (num 50) (num 50) in
  let s := ROUTING_SCALING_FACTOR constructor in
  (floor (x box / s) - 1 ≤ 19 ≤ ceil ((x box + width box) / s) + 1)%Z ∧
  (floor (y box / s) - 1 ≤ 31 ≤ ceil ((y box + height box) / s) + 1)%Z ∧
  Forall (λ e,
    let o := getRoutingMatrix e initial in
    index (translateRoutingX (self (worldOf o)) (num 19) false) = Some 20%nat ∧
    index (translateRoutingY (self (worldOf o)) (num 31) false) = Some 32%nat ∧
    cell (store (worldOf o)) (matrixOf o) 32 20 = Some 0%Z ∧
    cell (store (worldOf o)) (matrixOf o) 20 32 = Some 1%Z)
    [scenarioEngine; portEngine].
Proof.
  split; [by vm_compute|]. split; [by vm_compute|].
  repeat constructor; by vm_compute.
Qed.

(** * More on the routing matrix *)



(** * Marking as a whole *)

(** X2.  [markMatrixPoint] leaves the store exactly as it is unless the
    indices name an existing cell that is not 1 yet: an index that is
    negative, fractional or past the end of the matrix or of the row is
    ignored without an error. *)
Theorem markMatrixPoint_unchanged_iff (matrix : Matrix) (x y : Qc) (h : Heap) :
  markMatrixPoint matrix x y h = h ↔
  ∀ row col, index y = Some row → index x = Some col →
    cell h matrix row col = None ∨ cell h matrix row col = Some 1%Z.
Proof.
  unfold markMatrixPoint, cell.
  destruct (index y) as [i|]; cbn [mbind option_bind]; [|by split].
  destruct (matrix !! i) as [l|] eqn:Hl; cbn [mbind option_bind].
  2:{ split; [|done]. intros _ row col [= <-] _. rewrite Hl. by left. }
  destruct (h !! l) as [r|] eqn:Hr.
  2:{ split; [|done]. intros _ row col [= <-] _. rewrite Hl. cbn. rewrite Hr. by left. }
  destruct (index x) as [j|]; [|by split].
  case_decide as Hj.
  2:{ split; [|done]. intros _ row col [= <-] [= <-]. rewrite Hl. cbn. rewrite Hr. cbn.
      left. apply lookup_ge_None. lia. }
  split.
  - intros Heq row col [= <-] [= <-]. rewrite Hl. cbn. rewrite Hr. cbn. right.
    apply (f_equal (λ h', h' !! l)) in Heq.
    rewrite list_lookup_insert_eq in Heq by (by eapply lookup_lt_Some).
    rewrite Hr in Heq. injection Heq as Heq.
    rewrite <-Heq. by apply list_lookup_insert_eq.
  - intros Hcell. specialize (Hcell i j eq_refl eq_refl).
    rewrite Hl in Hcell. cbn in Hcell. rewrite Hr in Hcell. cbn in Hcell.
    destruct Hcell as [Hnone|Hone].
    { apply lookup_ge_None in Hnone. lia. }
    rewrite (list_insert_id r j 1%Z Hone). by apply list_insert_id.
Qed.

(** One pass of [markNodes] followed by [markPorts], cell by cell. *)
Lemma marking_pass_cell e f (matrix : Matrix) (h : Heap) row col :
  NoDup matrix →
  cell (markPorts e f matrix (markNodes e f matrix h)) matrix row col =
    if decide (Exists (hit f row col) (nodes e ++ linkPorts e))
    then (λ _, 1%Z) <$> cell h matrix row col
    else cell h matrix row col.
Proof.
  intros Hnd. rewrite markPorts_cell, markNodes_cell by done.
  destruct (decide (Exists (hit f row col) (nodes e))) as [Hn|Hn];
    destruct (decide (Exists (hit f row col) (linkPorts e))) as [Hp|Hp].
  - rewrite decide_True by (apply Exists_app; by left).
    by destruct (cell h matrix row col).
  - by rewrite decide_True by (apply Exists_app; by left).
  - by rewrite decide_True by (apply Exists_app; by right).
  - rewrite decide_False; [done|]. by intros [?|?]%Exists_app.
Qed.

(** X3.  A marking pass (nodes, then ports) never creates or removes a
    cell, never clears a cell that is 1, changes a cell only to 1, and
    running it a second time changes no cell. *)
Theorem marking_pass_monotone_idempotent
    (e : Engine) (f : Factory) (matrix : Matrix) (h : Heap) (row col : nat) :
  NoDup matrix →
  let pass := λ h, markPorts e f matrix (markNodes e f matrix h) in
  (is_Some (cell (pass h) matrix row col) ↔ is_Some (cell h matrix row col)) ∧
  (cell h matrix row col = Some 1%Z → cell (pass h) matrix row col = Some 1%Z) ∧
  (cell (pass h) matrix row col = cell h matrix row col
     ∨ cell (pass h) matrix row col = Some 1%Z) ∧
  cell (pass (pass h)) matrix row col = cell (pass h) matrix row col.
Proof.
  intros Hnd pass. unfold pass.
  rewrite !marking_pass_cell by done.
  case_decide; destruct (cell h matrix row col) as [v|];
    cbn [fmap option_fmap option_map]; repeat split; eauto; done.
Qed.

Lemma marking_pass_monotone_idempotent_witness :
  let matrix := [0%nat; 1%nat] in
  let h := [[0%Z; 0%Z]; [0%Z; 1%Z]] in
  let pass := λ h, markPorts smallEngine constructor matrix
                     (markNodes smallEngine constructor matrix h) in
  cell (pass (pass h)) matrix 0 0 = cell (pass h) matrix 0 0 ∧
  cell (pass h) matrix 1 1 = Some 1%Z.
Proof.
  intros matrix h pass.
  destruct (marking_pass_monotone_idempotent smallEngine constructor matrix h 0 0)
    as (_ & _ & _ & Hidem).
  { repeat constructor; cbn; rewrite ?elem_of_cons; [intros [[=]|[]%elem_of_nil]|by intros ?%elem_of_nil]. }
  destruct (marking_pass_monotone_idempotent smallEngine constructor matrix h 1 1)
    as (_ & Hkeep & _ & _).
  { repeat constructor; cbn; rewrite ?elem_of_cons; [intros [[=]|[]%elem_of_nil]|by intros ?%elem_of_nil]. }
  split; [exact Hidem|]. by apply Hkeep.
Defined.

(** X4.  The result of a marking pass does not depend on the order of
    the nodes, of the links or of their ports: two geometries with the
    same boxes, in any order, mark the same cells. *)
Theorem marking_pass_order_independent
    (e e' : Engine) (f : Factory) (matrix : Matrix) (h : Heap) (row col : nat) :
  NoDup matrix →
  nodes e ++ linkPorts e ≡ₚ nodes e' ++ linkPorts e' →
  cell (markPorts e f matrix (markNodes e f matrix h)) matrix row col =
  cell (markPorts e' f matrix (markNodes e' f matrix h)) matrix row col.
Proof.
  intros Hnd Hperm. rewrite !marking_pass_cell by done.
  assert (Exists (hit f row col) (nodes e ++ linkPorts e)
          ↔ Exists (hit f row col) (nodes e' ++ linkPorts e')) as Hiff.
  { rewrite !Exists_exists. by setoid_rewrite Hperm. }
  destruct (decide (Exists (hit f row col) (nodes e ++ linkPorts e))) as [H1|H1].
  - by rewrite decide_True by (by apply Hiff).
  - by rewrite decide_False by (by rewrite <-Hiff).
Qed.

Lemma marking_pass_order_independent_witness :
  let a := mkBox 0 0 (num 5) (num 5) in
  let b := mkBox (num 20) (num 20) (num 5) (num 5) in
  let e := mkEngine [a; b] [] 10 10 in
  let e' := mkEngine [b] [mkLink None (Some a) []] 10 10 in
  let matrix := [0%nat; 1%nat] in
  let h := [[0%Z; 0%Z]; [0%Z; 0%Z]] in
  cell (markPorts e constructor matrix (markNodes e constructor matrix h)) matrix 1 1 =
  cell (markPorts e' constructor matrix (markNodes e' constructor matrix h)) matrix 1 1.
Proof.
  intros a b e e' matrix h.
  apply (marking_pass_order_independent e e' constructor matrix h 1 1).
  - repeat constructor; cbn; rewrite ?elem_of_cons;
      [intros [[=]|[]%elem_of_nil]|by intros ?%elem_of_nil].
  - cbn. apply Permutation_swap.
Defined.

(** * More on the canvas matrix *)





(** * Frames of the getters *)

(** X10.  A read of the routing matrix modifies no row that existed
    before it and never changes the scaling factor; when the canvas
    matrix is cached it keeps that matrix and the adjustment factors,
    whatever the geometry has become, and when the routing matrix is
    cached it changes nothing at all. *)
Theorem getRoutingMatrix_frame (e : Engine) (w w' : World) (routing : Matrix) :
  getRoutingMatrix e w = Return routing w' →
  (∀ l, (l < length (store w))%nat → store w' !! l = store w !! l) ∧
  ROUTING_SCALING_FACTOR (self w') = ROUTING_SCALING_FACTOR (self w) ∧
  (canvasMatrix (self w) ≠ [] →
     canvasMatrix (self w') = canvasMatrix (self w) ∧
     hAdjustmentFactor (self w') = hAdjustmentFactor (self w) ∧
     vAdjustmentFactor (self w') = vAdjustmentFactor (self w)) ∧
  (routingMatrix (self w) ≠ [] → w' = w ∧ routing = routingMatrix (self w)).
Proof.
  intros Hr.
  destruct (decide (routingMatrix (self w) = [])) as [Hm|Hm].
  2:{ rewrite getRoutingMatrix_cached in Hr by done. injection Hr as <- <-. done. }
  split; [|split; [|split; [|done]]].
  all: rewrite getRoutingMatrix_empty in Hr by done.
  all: destruct (getCanvasMatrix e w) as [canvas wc|err wc] eqn:Hc;
    [|by rewrite (calculateRoutingMatrix_throw _ _ _ _ Hc) in Hr].
  all: rewrite (calculateRoutingMatrix_unfold _ _ _ _ Hc) in Hr; injection Hr as <- <-.
  all: cbn [self store canvasMatrix hAdjustmentFactor vAdjustmentFactor
            ROUTING_SCALING_FACTOR set_routingMatrix].
  - intros l Hl.
    assert (∃ rows, store wc = store w ++ rows) as [rows Hrows].
    { destruct (decide (canvasMatrix (self w) = [])) as [Hcm|Hcm].
      - rewrite getCanvasMatrix_empty in Hc by done.
        destruct (calculateCanvasMatrix e w) as [[] w''|] eqn:Hcalc; [|done].
        injection Hc as _ <-.
        apply calculateCanvasMatrix_inv in Hcalc as (? & ? & -> & _). by eexists.
      - rewrite getCanvasMatrix_cached in Hc by done. injection Hc as _ <-.
        exists []. by rewrite app_nil_r. }
    destruct (cloneDeep_fresh canvas (store wc)) as [Hm' (rows' & Hh & _)].
    assert (l ∉ (cloneDeep canvas (store wc)).1) as Hnot.
    { rewrite Hm'. intros [? _]%elem_of_seq. rewrite Hrows, length_app in *. lia. }
    rewrite markPorts_frame, markNodes_frame, Hh, Hrows by done.
    rewrite <-app_assoc. by apply lookup_app_l.
  - destruct (decide (canvasMatrix (self w) = [])) as [Hcm|Hcm].
    + rewrite getCanvasMatrix_empty in Hc by done.
      destruct (calculateCanvasMatrix e w) as [[] w''|] eqn:Hcalc; [|done].
      injection Hc as _ <-.
      by apply calculateCanvasMatrix_inv in Hcalc as (? & ? & _ & _ & _ & ->).
    + rewrite getCanvasMatrix_cached in Hc by done. by injection Hc as _ <-.
  - intros Hcm. rewrite getCanvasMatrix_cached in Hc by done. by injection Hc as _ <-.
Qed.

Lemma getRoutingMatrix_frame_witness :
  ∃ canvas w1 routing w2,
    getCanvasMatrix smallEngine initial = Return canvas w1 ∧
    getRoutingMatrix scenarioEngine w1 = Return routing w2 ∧
    canvasMatrix (self w2) = canvas ∧
    hAdjustmentFactor (self w2) = hAdjustmentFactor (self w1).
Proof.
  destruct (getCanvasMatrix smallEngine initial) as [canvas w1|err w1] eqn:Hc;
    [|by vm_compute in Hc].
  destruct (getRoutingMatrix scenarioEngine w1) as [routing w2|err w2] eqn:Hr.
  2:{ exfalso. vm_compute in Hc. injection Hc as _ <-. by vm_compute in Hr. }
  exists canvas, w1, routing, w2. split; [done|]. split; [done|].
  destruct (getRoutingMatrix_frame scenarioEngine w1 w2 routing Hr)
    as (_ & _ & Hkeep & _).
  assert (canvasMatrix (self w1) = canvas ∧ canvas ≠ []) as [Hfield Hne].
  { vm_compute in Hc. by injection Hc as <- <-. }
  destruct Hkeep as (Hk1 & Hk2 & _); [by rewrite Hfield|].
  by rewrite Hk1.
Defined.

(** * The routing matrix in the reachable states *)

(** X11.  In every state the factory can be in, a cached routing matrix
    has as many rows as the canvas matrix and a cell exactly where the
    canvas matrix has one, every cell of it is 0 or 1, and it shares no
    row with the canvas matrix. *)
Theorem reachable_routing_matrix_shape (w : World) :
  reachable w →
  routingMatrix (self w) ≠ [] →
  length (routingMatrix (self w)) = length (canvasMatrix (self w)) ∧
  (∀ l, l ∈ routingMatrix (self w) → l ∉ canvasMatrix (self w)) ∧
  ∀ row col,
    (is_Some (cell (store w) (routingMatrix (self w)) row col)
       ↔ is_Some (cell (store w) (canvasMatrix (self w)) row col)) ∧
    (∀ v, cell (store w) (routingMatrix (self w)) row col = Some v →
          v = 0%Z ∨ v = 1%Z).
Proof.
  intros Hreach.
  enough (routingMatrix (self w) = [] ∨
          (length (routingMatrix (self w)) = length (canvasMatrix (self w)) ∧
           (∀ l, l ∈ routingMatrix (self w) → l ∉ canvasMatrix (self w)) ∧
           ∀ row col,
             (is_Some (cell (store w) (routingMatrix (self w)) row col)
                ↔ is_Some (cell (store w) (canvasMatrix (self w)) row col)) ∧
             (∀ v, cell (store w) (routingMatrix (self w)) row col = Some v →
                   v = 0%Z ∨ v = 1%Z))) as [?|?]; [done|done|].
  induction Hreach as [|e w canvas w' Hreach IH Hc|e w err w' Hreach IH Hc
                       |e w routing w' Hreach IH Hr|e w err w' Hreach IH Hr
                       |w Hreach IH].
  - by left.
  - destruct (decide (canvasMatrix (self w) = [])) as [Hm|Hm].
    + left.
      assert (routingMatrix (self w) = []) as Hempty.
      { destruct IH as [?|(Hlen & _)]; [done|].
        rewrite Hm in Hlen. by apply length_zero_iff_nil. }
      rewrite getCanvasMatrix_empty in Hc by done.
      destruct (calculateCanvasMatrix e w) as [[] w''|] eqn:Hcalc; [|done].
      injection Hc as _ <-.
      apply calculateCanvasMatrix_inv in Hcalc as (? & ? & _ & _ & -> & _). done.
    + rewrite getCanvasMatrix_cached in Hc by done. by injection Hc as _ <-.
  - apply getCanvasMatrix_throw_inv in Hc as (-> & -> & -> & _). done.
  - destruct (decide (routingMatrix (self w) = [])) as [Hm|Hm].
    2:{ rewrite getRoutingMatrix_cached in Hr by done. by injection Hr as _ <-. }
    right.
    pose proof (getRoutingMatrix_cells e w w' routing Hreach Hm Hr) as Hcells.
    destruct (reachable_invariant w Hreach) as (Ha & Hz & _).
    rewrite getRoutingMatrix_empty in Hr by done.
    destruct (getCanvasMatrix e w) as [canvas wc|err wc] eqn:Hc.
    2:{ by rewrite (calculateRoutingMatrix_throw _ _ _ _ Hc) in Hr. }
    destruct (calculateRoutingMatrix_frame e w wc canvas Ha Hz Hc)
      as (w2 & Hw2 & Hcanvas & _ & _ & _ & _ & Hdisj).
    rewrite Hw2 in Hr. injection Hr as <- <-.
    split; [|split].
    + rewrite Hcanvas.
      rewrite (calculateRoutingMatrix_unfold _ _ _ _ Hc) in Hw2. injection Hw2 as <-.
      cbn [self routingMatrix set_routingMatrix].
      rewrite (proj1 (cloneDeep_fresh _ _)). apply length_seq.
    + rewrite Hcanvas. exact Hdisj.
    + intros row col. rewrite Hcells.
      destruct (cell (store w2) (canvasMatrix (self w2)) row col) as [v|];
        cbn [fmap option_fmap option_map].
      * split; [by split; eauto|]. intros v' [= <-]. case_decide; eauto.
      * split; [done|]. by intros v' [=].
  - destruct (decide (routingMatrix (self w) = [])) as [Hm|Hm].
    2:{ by rewrite getRoutingMatrix_cached in Hr. }
    rewrite getRoutingMatrix_empty in Hr by done.
    destruct (getCanvasMatrix e w) as [canvas wc|err' wc] eqn:Hc.
    { by rewrite (calculateRoutingMatrix_unfold _ _ _ _ Hc) in Hr. }
    rewrite (calculateRoutingMatrix_throw _ _ _ _ Hc) in Hr. injection Hr as _ <-.
    apply getCanvasMatrix_throw_inv in Hc as (-> & -> & -> & _). done.
  - by left.
Qed.

Lemma reachable_routing_matrix_shape_witness :
  ∃ routing w,
    getRoutingMatrix smallEngine initial = Return routing w ∧
    length (routingMatrix (self w)) = length (canvasMatrix (self w)).
Proof.
  destruct (getRoutingMatrix smallEngine initial) as [routing w|err w] eqn:Hr;
    [|by vm_compute in Hr].
  exists routing, w. split; [done|].
  apply (reachable_routing_matrix_shape w).
  - by apply (reachable_getRoutingMatrix smallEngine initial routing w reachable_initial).
  - vm_compute in Hr. by injection Hr as _ <-.
Defined.

Lemma cell_fresh (h : Heap) rows cols row col :
  cell (h ++ replicate rows (replicate cols 0%Z)) (seq (length h) rows) row col =
    if decide (row < rows ∧ col < cols)%nat then Some 0%Z else None.
Proof.
  unfold cell.
  destruct (decide (row < rows)%nat) as [Hrow|Hrow].
  2:{ rewrite lookup_seq_ge by lia. rewrite decide_False; [done|]. lia. }
  rewrite lookup_seq_lt by done. cbn [mbind option_bind].
  rewrite lookup_app_r by lia.
  replace (length h + row - length h)%nat with row by lia.
  rewrite lookup_replicate_2 by done. cbn [mbind option_bind].
  destruct (decide (col < cols)%nat) as [Hcol|Hcol].
  - rewrite lookup_replicate_2 by done. by rewrite decide_True.
  - rewrite decide_False by lia. apply lookup_ge_None. rewrite length_replicate. lia.
Qed.

Lemma hit_factors f f' row col b :
  ROUTING_SCALING_FACTOR f = ROUTING_SCALING_FACTOR f' →
  hAdjustmentFactor f = hAdjustmentFactor f' →
  vAdjustmentFactor f = vAdjustmentFactor f' →
  hit f row col b ↔ hit f' row col b.
Proof.
  intros Hs Hh Hv. unfold hit, markedIndices, translateRoutingX, translateRoutingY.
  by rewrite Hs, Hh, Hv.
Qed.

(** What a first read leaves, in terms of the geometry alone. *)
Lemma first_read_cells e w routing w' :
  reachable w →
  canvasMatrix (self w) = [] →
  routingMatrix (self w) = [] →
  getRoutingMatrix e w = Return routing w' →
  ∃ d, calculateMatrixDimensions (num 5) e = Some d ∧
    ROUTING_SCALING_FACTOR (self w') = num 5 ∧
    hAdjustmentFactor (self w') = dim_hAdjustmentFactor d ∧
    vAdjustmentFactor (self w') = dim_vAdjustmentFactor d ∧
    ∀ row col,
      cell (store w') (canvasMatrix (self w')) row col =
        if decide (row < Z.to_nat (ceil (dim_height d / num 5))
                   ∧ col < Z.to_nat (ceil (dim_width d / num 5)))%nat
        then Some 0%Z else None.
Proof.
  intros Hreach Hcm Hrm Hr.
  destruct (reachable_invariant w Hreach) as (Ha & Hz & Hs).
  assert (0 < ROUTING_SCALING_FACTOR (self w)) as Hpos by (by rewrite Hs).
  destruct (decide (allCoords e = [])) as [He|He].
  { rewrite getRoutingMatrix_empty in Hr by done.
    assert (getCanvasMatrix e w = Throw TypeError w) as Hc.
    { rewrite getCanvasMatrix_empty by done. unfold calculateCanvasMatrix.
      by rewrite (proj2 (calculateMatrixDimensions_None _ e) He). }
    by rewrite (calculateRoutingMatrix_throw _ _ _ _ Hc) in Hr. }
  destruct (calculateCanvasMatrix_Return e w Hpos He) as (d & Hd & Hret).
  cbv zeta in Hret. rewrite Hs in Hd, Hret.
  assert (getCanvasMatrix e w = getCanvasMatrix e w) as Hc by done.
  rewrite getCanvasMatrix_empty in Hc at 2 by done. rewrite Hret in Hc.
  destruct (calculateRoutingMatrix_frame e w _ _ Ha Hz Hc)
    as (w2 & Hw2 & Hcanvas & _ & Hcells & _ & _ & _).
  rewrite getRoutingMatrix_empty, Hw2 in Hr by done. injection Hr as <- <-.
  exists d. split; [done|].
  cbn [self store canvasMatrix set_canvasMatrix] in Hcanvas, Hcells.
  assert (∀ row col,
    cell (store w2) (canvasMatrix (self w2)) row col =
      if decide (row < Z.to_nat (ceil (dim_height d / num 5))
                 ∧ col < Z.to_nat (ceil (dim_width d / num 5)))%nat
      then Some 0%Z else None) as Hzero.
  { intros row col. rewrite Hcanvas, Hcells. apply cell_fresh. }
  rewrite (calculateRoutingMatrix_unfold _ _ _ _ Hc) in Hw2. injection Hw2 as Hw2.
  rewrite <-Hw2 at 1 2 3.
  cbn [self hAdjustmentFactor vAdjustmentFactor
       ROUTING_SCALING_FACTOR set_routingMatrix set_canvasMatrix set_adjustmentFactors].
  done.
Qed.

(** X12.  The cells of a routing matrix computed on empty caches depend
    on the geometry only: two such reads of the same geometry, in
    whatever states of the factory and of the store, return matrices with
    the same cells, and store the same adjustment factors. *)
Theorem first_read_depends_on_geometry_only
    (e : Engine) (w1 w2 w1' w2' : World) (routing1 routing2 : Matrix) :
  reachable w1 → reachable w2 →
  canvasMatrix (self w1) = [] → routingMatrix (self w1) = [] →
  canvasMatrix (self w2) = [] → routingMatrix (self w2) = [] →
  getRoutingMatrix e w1 = Return routing1 w1' →
  getRoutingMatrix e w2 = Return routing2 w2' →
  hAdjustmentFactor (self w1') = hAdjustmentFactor (self w2') ∧
  vAdjustmentFactor (self w1') = vAdjustmentFactor (self w2') ∧
  ∀ row col,
    cell (store w1') routing1 row col = cell (store w2') routing2 row col.
Proof.
  intros Hreach1 Hreach2 Hc1 Hm1 Hc2 Hm2 Hr1 Hr2.
  destruct (first_read_cells e w1 routing1 w1' Hreach1 Hc1 Hm1 Hr1)
    as (d & Hd & Hs1 & Hh1 & Hv1 & Hcanvas1).
  destruct (first_read_cells e w2 routing2 w2' Hreach2 Hc2 Hm2 Hr2)
    as (d' & Hd' & Hs2 & Hh2 & Hv2 & Hcanvas2).
  rewrite Hd in Hd'. injection Hd' as <-.
  split; [congruence|]. split; [congruence|].
  intros row col.
  rewrite (getRoutingMatrix_cells e w1 w1' routing1 Hreach1 Hm1 Hr1).
  rewrite (getRoutingMatrix_cells e w2 w2' routing2 Hreach2 Hm2 Hr2).
  rewrite Hcanvas1, Hcanvas2.
  assert (Exists (hit (self w1') row col) (nodes e ++ linkPorts e)
          ↔ Exists (hit (self w2') row col) (nodes e ++ linkPorts e)) as Hiff.
  { rewrite !Exists_exists.
    split; intros (b & Hb & Hhit); exists b; (split; [done|]);
      revert Hhit; apply hit_factors; congruence. }
  destruct (decide (Exists (hit (self w1') row col) (nodes e ++ linkPorts e))) as [H|H].
  - by rewrite (decide_True (P := Exists (hit (self w2') row col) _)) by (by apply Hiff).
  - by rewrite (decide_False (P := Exists (hit (self w2') row col) _))
      by (by rewrite <-Hiff).
Qed.

Lemma first_read_depends_on_geometry_only_witness :
  ∃ routing1 w1 routing2 w2,
    getRoutingMatrix smallEngine initial = Return routing1 w1 ∧
    getRoutingMatrix smallEngine (invalidate w1) = Return routing2 w2 ∧
    routing1 ≠ routing2 ∧
    ∀ row col, cell (store w1) routing1 row col = cell (store w2) routing2 row col.
Proof.
  destruct (getRoutingMatrix smallEngine initial) as [routing1 w1|err w1] eqn:Hr1;
    [|by vm_compute in Hr1].
  destruct (getRoutingMatrix smallEngine (invalidate w1)) as [routing2 w2|err w2] eqn:Hr2.
  2:{ exfalso. vm_compute in Hr1. injection Hr1 as _ <-. by vm_compute in Hr2. }
  exists routing1, w1, routing2, w2. split; [done|]. split; [done|]. split.
  - vm_compute in Hr1. injection Hr1 as <- <-.
    vm_compute in Hr2. by injection Hr2 as <- _.
  - apply (first_read_depends_on_geometry_only smallEngine initial (invalidate w1)
             w1 w2 routing1 routing2); try done.
    + apply reachable_initial.
    + apply reachable_invalidate.
      by apply (reachable_getRoutingMatrix smallEngine initial routing1 w1
                  reachable_initial).
Defined.

(** * More on the emitted path *)

(** X13.  [generateDynamicPath] throws exactly on an empty list of
    points; on any other list it prints one instruction per point, and a
    point that is repeated in the input is repeated in the path. *)
Theorem generateDynamicPath_throws_iff_empty
    {Printed : Type} (print : Path → Printed) (f : Factory)
    (pathCoords : list (Qc * Qc)) :
  (generateDynamicPath print f pathCoords = None ↔ pathCoords = []) ∧
  (pathCoords ≠ [] →
     ∃ path, generateDynamicPath print f pathCoords = Some (print path) ∧
       length path = length pathCoords ∧
       ∀ i p, pathCoords !! i = Some p →
         path !! i = Some ((if decide (i = 0%nat) then M else L)
                             (p.1 * ROUTING_SCALING_FACTOR f)
                             (p.2 * ROUTING_SCALING_FACTOR f))).
Proof.
  split.
  - destruct pathCoords; [done|]. unfold generateDynamicPath. cbn. by split.
  - intros Hne. destruct pathCoords as [|first rest]; [done|].
    exists (M (first.1 * ROUTING_SCALING_FACTOR f) (first.2 * ROUTING_SCALING_FACTOR f)
            :: ((λ p, L (p.1 * ROUTING_SCALING_FACTOR f)
                        (p.2 * ROUTING_SCALING_FACTOR f)) <$> rest)).
    split; [|split].
    + unfold generateDynamicPath. cbn [lookup list_lookup mbind option_bind].
      cbv zeta. cbn [drop]. by rewrite ?drop_0, foldl_lineto.
    + cbn. by rewrite length_fmap.
    + intros [|i] p Hp.
      * cbn in Hp. by injection Hp as <-.
      * rewrite lookup_cons_ne_0 in Hp by done. cbn [Nat.pred] in Hp.
        rewrite decide_False by done.
        etrans; [apply (lookup_cons_ne_0 _ _ (S i)); done|]. cbn [Nat.pred].
        by rewrite list_lookup_fmap, Hp.
Qed.

Lemma generateDynamicPath_throws_iff_empty_witness :
  ∃ path,
    generateDynamicPath (λ p, p) constructor [(1, 1); (1, 1)] = Some path ∧
    length path = 2%nat.
Proof.
  destruct (proj2 (generateDynamicPath_throws_iff_empty (λ p, p) constructor
                     [(1, 1); (1, 1)])) as (path & Hp & Hlen & _); [done|].
  by exists path.
Defined.

(** * Link points *)

Module LinkModelFacts.
Import LinkModel.
Local Close Scope Qc_scope.

Lemma indexOf_from_spec pts t i :
  ((t ∉ pts) ∧ indexOf_from pts t i = (-1)%Z) ∨
  (∃ before after, pts = before ++ t :: after ∧ (t ∉ before) ∧
     indexOf_from pts t i = (i + Z.of_nat (length before))%Z).
Proof.
  revert i. induction pts as [|p pts IH]; intros i; cbn [indexOf_from].
  - left. split; [by intros ?%elem_of_nil|done].
  - case_decide as Hp.
    + subst p. right. exists [], pts. split; [done|]. split; [by intros ?%elem_of_nil|].
      cbn. lia.
    + destruct (IH (i + 1)%Z) as [[Hnot Hidx]|(before & after & -> & Hnot & Hidx)].
      * left. split; [|done]. by intros [->|?]%elem_of_cons.
      * right. exists (p :: before), after. split; [done|]. split.
        { by intros [->|?]%elem_of_cons. }
        rewrite Hidx. cbn [length]. lia.
Qed.

Lemma splice_remove_at {A} (before after : list A) (a : A) :
  splice (before ++ a :: after) (Z.of_nat (length before)) 1 [] = before ++ after.
Proof.
  unfold splice. rewrite length_app. cbn [length].
  rewrite decide_False by lia.
  rewrite Z.min_l by lia. rewrite Z.max_l by lia. rewrite Z.min_l by lia.
  rewrite Nat2Z.id.
  replace (Z.to_nat (Z.of_nat (length before) + 1)) with (length before + 1)%nat by lia.
  rewrite take_app_length, drop_app_add. cbn. done.
Qed.

Lemma indexOf_insert (before after : list nat) (t : nat) :
  (t ∉ before) → indexOf (before ++ t :: after) t = Z.of_nat (length before).
Proof.
  intros Hnot. unfold indexOf.
  destruct (indexOf_from_spec (before ++ t :: after) t 0)
    as [[Hnone _]|(before' & after' & Heq & Hnot' & ->)].
  { destruct Hnone. apply elem_of_app. right. by left. }
  rewrite Z.add_0_l. f_equal.
  destruct (Nat.lt_trichotomy (length before) (length before')) as [Hlt|[Heql|Hgt]];
    [|done|].
  - destruct Hnot'. apply list_elem_of_lookup. exists (length before).
    assert ((before ++ t :: after) !! length before = Some t) as Hl
      by (by rewrite lookup_app_r, Nat.sub_diag by lia).
    rewrite Heq, lookup_app_l in Hl by done. done.
  - destruct Hnot. apply list_elem_of_lookup. exists (length before').
    assert ((before' ++ t :: after') !! length before' = Some t) as Hl
      by (by rewrite lookup_app_r, Nat.sub_diag by lia).
    rewrite <-Heq, lookup_app_l in Hl by done. done.
Qed.

Lemma removePoint_first_occurrence (before after : list nat) (t : nat) :
  (t ∉ before) → removePoint (before ++ t :: after) t = before ++ after.
Proof.
  intros Hnot. unfold removePoint, getPointIndex.
  rewrite indexOf_insert by done. apply splice_remove_at.
Qed.

(** X14.  [removePoint] removes the first occurrence of a point of the
    link and nothing else; for a point that is not in the link,
    [indexOf] is -1 and the splice removes the last point of the link
    instead (nothing when the link has no point). *)
Theorem removePoint_spec (pts : list nat) (t : nat) :
  (t ∈ pts → ∃ before after,
     pts = before ++ t :: after ∧ (t ∉ before) ∧
     removePoint pts t = before ++ after) ∧
  ((t ∉ pts) → removePoint pts t = take (length pts - 1) pts).
Proof.
  unfold removePoint, getPointIndex, indexOf.
  destruct (indexOf_from_spec pts t 0) as [[Hnot ->]|(before & after & -> & Hnot & ->)].
  - split; [done|]. intros _. unfold splice.
    rewrite decide_True by lia.
    destruct pts as [|p pts]; [done|]. cbn [length].
    rewrite Z.max_l by lia. rewrite (Z.max_l 1 0) by lia. rewrite Z.min_l by lia.
    replace (Z.to_nat (Z.of_nat (S (length pts)) + -1)) with (length pts) by lia.
    replace (Z.to_nat (Z.of_nat (S (length pts)) + -1 + 1)) with (S (length pts)) by lia.
    replace (S (length pts) - 1)%nat with (length pts) by lia.
    rewrite (drop_ge (p :: pts)) by (cbn; lia). by rewrite !app_nil_r.
  - split.
    + intros _. exists before, after. split; [done|]. split; [done|].
      rewrite Z.add_0_l. apply splice_remove_at.
    + intros []. apply elem_of_app. right. by left.
Qed.

Lemma removePoint_spec_witness :
  removePoint [7; 8; 9]%nat 4%nat = [7; 8]%nat ∧
  ∃ before after, [7; 8; 9; 8]%nat = before ++ 8%nat :: after ∧
    removePoint [7; 8; 9; 8]%nat 8%nat = before ++ after.
Proof.
  split.
  - apply (removePoint_spec [7; 8; 9]%nat 4%nat).
    intros Hin. repeat (apply elem_of_cons in Hin as [?|Hin]; [done|]).
    by apply elem_of_nil in Hin.
  - destruct (proj1 (removePoint_spec [7; 8; 9; 8]%nat 8%nat))
      as (before & after & Heq & _ & Hrem).
    + apply elem_of_cons. right. by left.
    + by exists before, after.
Defined.

(** X15.  [addPoint] with an index inside the link inserts the point at
    that index; for a point that is not yet in the link the point is then
    found at that index and [removePoint] undoes the insertion.  Without
    an index the point becomes the second point (the first in an empty
    link), and an index past the end appends. *)
Theorem addPoint_removePoint (pts : list nat) (t : nat) (i : nat) :
  (t ∉ pts) →
  (i ≤ length pts)%nat →
  addPoint pts t (Some (Z.of_nat i)) = take i pts ++ t :: drop i pts ∧
  getPointIndex (addPoint pts t (Some (Z.of_nat i))) t = Z.of_nat i ∧
  removePoint (addPoint pts t (Some (Z.of_nat i))) t = pts ∧
  addPoint pts t None = take 1 pts ++ t :: drop 1 pts ∧
  (∀ j, (Z.of_nat (length pts) ≤ j)%Z → addPoint pts t (Some j) = pts ++ [t]).
Proof.
  intros Hnot Hi.
  assert (∀ k, (k ≤ length pts)%nat →
            splice pts (Z.of_nat k) 0 [t] = take k pts ++ t :: drop k pts) as Hins.
  { intros k Hk. unfold splice. rewrite decide_False by lia.
    rewrite Z.min_l by lia. rewrite Z.max_l by lia. rewrite Z.min_l by lia.
    by rewrite Z.add_0_r, Nat2Z.id. }
  assert (addPoint pts t (Some (Z.of_nat i)) = take i pts ++ t :: drop i pts) as Hadd
    by apply Hins, Hi.
  assert (t ∉ take i pts) as Hnot'.
  { intros (k & Hk & _)%elem_of_take. apply Hnot. by eapply list_elem_of_lookup_2. }
  split; [done|]. rewrite Hadd. split; [|split; [|split]].
  - unfold getPointIndex. rewrite indexOf_insert by done.
    rewrite length_take. lia.
  - rewrite removePoint_first_occurrence by done. apply take_drop.
  - unfold addPoint. cbn [default from_option id].
    destruct pts as [|p pts]; [done|].
    apply (Hins 1%nat). cbn. lia.
  - intros j Hj. unfold addPoint, splice. cbn [default from_option id].
    rewrite decide_False by lia.
    rewrite Z.min_r by lia. rewrite Z.max_l by lia. rewrite Z.min_r by lia.
    replace (Z.of_nat (length pts) + (Z.of_nat (length pts) - Z.of_nat (length pts)))%Z
      with (Z.of_nat (length pts)) by lia.
    rewrite Nat2Z.id, firstn_all, drop_all. done.
Qed.

Lemma addPoint_removePoint_witness :
  addPoint [7; 9]%nat 8%nat (Some 1%Z) = [7; 8; 9]%nat ∧
  removePoint (addPoint [7; 9]%nat 8%nat (Some 1%Z)) 8%nat = [7; 9]%nat.
Proof.
  destruct (addPoint_removePoint [7; 9]%nat 8%nat 1%nat) as (Hadd & _ & Hrem & _).
  - intros Hin. repeat (apply elem_of_cons in Hin as [?|Hin]; [done|]).
    by apply elem_of_nil in Hin.
  - cbn. lia.
  - by split.
Defined.

(** X16.  On a link without points [isLastPoint] answers true for every
    point; on a link with points that are pairwise distinct it answers
    true exactly for the point that [getLastPoint] returns. *)
Theorem isLastPoint_spec (pts : list nat) (t : nat) :
  (pts = [] → isLastPoint pts t = true ∧ getLastPoint pts = None) ∧
  (NoDup pts → pts ≠ [] →
     (isLastPoint pts t = true ↔ getLastPoint pts = Some t)).
Proof.
  split; [by intros ->|].
  intros Hnd Hne.
  unfold isLastPoint, getLastPoint, getPointIndex, indexOf.
  rewrite bool_decide_eq_true.
  assert (0 < length pts)%nat as Hlen by (destruct pts; [done|cbn; lia]).
  rewrite decide_True by lia.
  replace (Z.to_nat (Z.of_nat (length pts) - 1)) with (length pts - 1)%nat by lia.
  destruct (indexOf_from_spec pts t 0) as [[Hnot ->]|(before & after & -> & Hnot & ->)].
  - split; [lia|]. intros Hl. destruct Hnot. by eapply list_elem_of_lookup_2.
  - rewrite length_app. cbn [length]. split.
    + intros Hidx. assert (length after = 0%nat) as Hafter by lia.
      apply length_zero_iff_nil in Hafter as ->.
      rewrite lookup_app_r by (cbn; lia).
      by match goal with |- _ !! ?n = _ => replace n with 0%nat by (cbn; lia) end.
    + intros Hl. destruct after as [|a after]; [cbn; lia|]. exfalso.
      rewrite lookup_app_r in Hl by (cbn; lia).
      match type of Hl with _ !! ?n = _ =>
        replace n with (S (length after)) in Hl by (cbn; lia) end.
      cbn in Hl.
      apply NoDup_app in Hnd as (_ & _ & Hnd).
      apply NoDup_cons in Hnd as [Hin _]. apply Hin.
      by eapply list_elem_of_lookup_2.
Qed.

Lemma isLastPoint_spec_witness :
  isLastPoint [7; 8; 9]%nat 9%nat = true ∧ isLastPoint [] 9%nat = true.
Proof.
  destruct (isLastPoint_spec [7; 8; 9]%nat 9%nat) as [_ Hlast].
  destruct (isLastPoint_spec [] 9%nat) as [Hempty _].
  split; [|by apply Hempty].
  apply Hlast; [|done|done].
  apply (bool_decide_eq_true_1 (NoDup [7; 8; 9]%nat)). by vm_compute.
Defined.

End LinkModelFacts.

(** * The arithmetic on doubles *)

Module DoubleFacts.
Import Double.
Local Open Scope Q_scope.

(** ** Rounding *)

Lemma pow2_pos e : 0 < pow2 e.
Proof. by apply Qpower_0_lt. Qed.

Lemma pow2_plus a b : pow2 (a + b) == pow2 a * pow2 b.
Proof. by apply Qpower_plus. Qed.

Lemma pow2_le a b : (a ≤ b)%Z → pow2 a <= pow2 b.
Proof. intros. by apply Qpower_le_compat_l. Qed.

Lemma pow2_lt a b : (a < b)%Z → pow2 a < pow2 b.
Proof. intros. by apply Qpower_lt_compat_l. Qed.

Lemma pow2_lt_inv a b : pow2 a < pow2 b → (a < b)%Z.
Proof. intros. by apply (Qpower_lt_compat_l_inv 2). Qed.

Lemma pow2_le_inv a b : pow2 a <= pow2 b → (a ≤ b)%Z.
Proof. intros. by apply (Qpower_le_compat_l_inv 2). Qed.

Lemma pow2_Z n : (0 ≤ n)%Z → pow2 n == inject_Z (2 ^ n).
Proof. intros. symmetry. by apply (Zpower_Qpower 2). Qed.

Lemma pow2_minus a b : pow2 (a - b) == pow2 a / pow2 b.
Proof. by apply Qpower_minus. Qed.

Lemma Qabs_make n d : Qabs (n # d) == inject_Z (Z.abs n) / inject_Z (Zpos d).
Proof.
  unfold Qabs. rewrite (Qmake_Qdiv (Z.abs n) d). reflexivity.
Qed.

Lemma Qdiv_lt_pow2 A D la ld :
  0 < D → A < pow2 (la + 1) → pow2 ld <= D → 0 <= A → A / D < pow2 (la - ld + 1).
Proof.
  intros HD HA HL HA0. apply Qlt_shift_div_r; [done|].
  replace (la - ld + 1)%Z with ((la + 1) + - ld)%Z by lia.
  rewrite pow2_plus.
  pose proof (pow2_pos ld) as P1. pose proof (pow2_pos (- ld)) as P2.
  pose proof (pow2_pos (la + 1)) as P3.
  assert (pow2 (- ld) * pow2 ld == 1) as H1.
  { rewrite <-pow2_plus. by replace (- ld + ld)%Z with 0%Z by lia. }
  assert (1 <= pow2 (- ld) * D) as H2.
  { rewrite <-H1. apply Qmult_le_l; done. }
  rewrite <-Qmult_assoc.
  apply Qlt_le_trans with (pow2 (la + 1) * 1); [lra|].
  apply Qmult_le_l; done.
Qed.

Lemma Qdiv_ge_pow2 A D la ld :
  0 < D → pow2 la <= A → D < pow2 (ld + 1) → pow2 (la - ld - 1) <= A / D.
Proof.
  intros HD HA HL. apply Qle_shift_div_l; [done|].
  replace (la - ld - 1)%Z with (la + - (ld + 1))%Z by lia.
  rewrite pow2_plus.
  pose proof (pow2_pos (ld + 1)) as P1. pose proof (pow2_pos (- (ld + 1))) as P2.
  pose proof (pow2_pos la) as P3.
  assert (pow2 (- (ld + 1)) * pow2 (ld + 1) == 1) as H1.
  { rewrite <-pow2_plus. by replace (- (ld + 1) + (ld + 1))%Z with 0%Z by lia. }
  assert (pow2 (- (ld + 1)) * D <= 1) as H2.
  { rewrite <-H1. apply Qmult_le_l; [done|]. by apply Qlt_le_weak. }
  rewrite <-Qmult_assoc.
  apply Qle_trans with (pow2 la * 1); [|lra].
  apply Qmult_le_l; done.
Qed.

Lemma ilog2_spec q : ¬ q == 0 → pow2 (ilog2 q) <= Qabs q ∧ Qabs q < pow2 (ilog2 q + 1).
Proof.
  intros Hq. unfold ilog2.
  destruct q as [n d]. cbn [Qnum Qden].
  assert (0 < Z.abs n)%Z as Ha.
  { destruct n; [|lia..]. destruct Hq. reflexivity. }
  assert (Qabs (n # d) == inject_Z (Z.abs n) / inject_Z (Zpos d)) as Habs by apply Qabs_make.
  set (a := Z.abs n) in *. set (la := Z.log2 a). set (ld := Z.log2 (Zpos d)).
  pose proof (Z.log2_spec a Ha) as [Ha1 Ha2].
  pose proof (Z.log2_spec (Zpos d) eq_refl) as [Hd1 Hd2].
  pose proof (Z.log2_nonneg a) as Hla. pose proof (Z.log2_nonneg (Zpos d)) as Hld.
  fold la in Ha1, Ha2, Hla. fold ld in Hd1, Hd2, Hld.
  assert (pow2 la <= inject_Z a) as HA1 by (rewrite pow2_Z by done; by rewrite <-Zle_Qle).
  assert (inject_Z a < pow2 (la + 1)) as HA2 by (rewrite pow2_Z by lia; by rewrite <-Zlt_Qlt).
  assert (pow2 ld <= inject_Z (Zpos d)) as HD1 by (rewrite pow2_Z by done; by rewrite <-Zle_Qle).
  assert (inject_Z (Zpos d) < pow2 (ld + 1)) as HD2 by (rewrite pow2_Z by lia; by rewrite <-Zlt_Qlt).
  assert (0 < inject_Z (Zpos d)) as HD0 by (by rewrite <-(Zlt_Qlt 0)).
  assert (0 < inject_Z a) as HA0 by (by rewrite <-(Zlt_Qlt 0)).
  pose proof (Qdiv_lt_pow2 _ _ la ld HD0 HA2 HD1 (Qlt_le_weak _ _ HA0)) as Hup.
  pose proof (Qdiv_ge_pow2 _ _ la ld HD0 HA1 HD2) as Hlow.
  rewrite <-Habs in Hup, Hlow.
  destruct (Qle_bool (pow2 (la - ld)) (Qabs (n # d))) eqn:Hb.
  - apply Qle_bool_iff in Hb. done.
  - split; [done|]. replace (la - ld - 1 + 1)%Z with (la - ld)%Z by lia.
    apply Qnot_le_lt. intros Hle%Qle_bool_iff. congruence.
Qed.

Lemma ilog2_unique q e : pow2 e <= Qabs q → Qabs q < pow2 (e + 1) → ilog2 q = e.
Proof.
  intros H1 H2.
  assert (¬ q == 0) as Hq.
  { intros Hq. rewrite Hq in H1. pose proof (pow2_pos e) as P. 
    change (Qabs 0) with 0 in H1. lra. }
  destruct (ilog2_spec q Hq) as [H3 H4].
  assert (ilog2 q < e + 1)%Z by (apply pow2_lt_inv; lra).
  assert (e < ilog2 q + 1)%Z by (apply pow2_lt_inv; lra).
  lia.
Qed.

(** *** Rounding to the nearest integer *)
Lemma Qfloor_unique q z : inject_Z z <= q → q < inject_Z (z + 1) → Qfloor q = z.
Proof.
  intros H1 H2. pose proof (Qfloor_le q) as H3. pose proof (Qlt_floor q) as H4.
  assert (inject_Z z < inject_Z (Qfloor q + 1)) as H5 by lra.
  assert (inject_Z (Qfloor q) < inject_Z (z + 1)) as H6 by lra.
  rewrite <-Zlt_Qlt in H5, H6. lia.
Qed.

Lemma rne_comp a b : a == b → rne a = rne b.
Proof.
  intros H. unfold rne. rewrite (Qfloor_comp a b H).
  assert (Qcompare (a - inject_Z (Qfloor b)) (1#2) = Qcompare (b - inject_Z (Qfloor b)) (1#2)) as ->;
    [|done].
  apply Qcompare_comp; [by rewrite H|reflexivity].
Qed.

#[local] Instance rne_proper : Proper (Qeq ==> eq) rne.
Proof. intros a b. apply rne_comp. Qed.

Lemma rne_Z z : rne (inject_Z z) = z.
Proof.
  unfold rne. rewrite Qfloor_Z.
  assert (inject_Z z - inject_Z z == 0) as -> by ring. done.
Qed.

Lemma rne_cases a :
  let f := Qfloor a in
  (a - inject_Z f < 1#2 ∧ rne a = f) ∨
  (1#2 < a - inject_Z f ∧ rne a = (f + 1)%Z) ∨
  (a - inject_Z f == 1#2 ∧ rne a = if Z.even f then f else (f + 1)%Z).
Proof.
  intros f. unfold rne. fold f.
  destruct (Qcompare (a - inject_Z f) (1#2)) eqn:Hc.
  - right; right. by apply Qeq_alt in Hc.
  - left. by apply Qlt_alt in Hc.
  - right; left. by apply Qgt_alt in Hc.
Qed.

Lemma rne_mono a b : a <= b → (rne a ≤ rne b)%Z.
Proof.
  intros Hab. pose proof (Qfloor_resp_le _ _ Hab) as Hf.
  pose proof (rne_cases a) as Ha. pose proof (rne_cases b) as Hb. cbv zeta in *.
  destruct (decide (Qfloor a = Qfloor b)) as [Heq|Hne].
  - rewrite <-Heq in Hb.
    destruct Ha as [[Ha ->]|[[Ha ->]|[Ha ->]]], Hb as [[Hb ->]|[[Hb ->]|[Hb ->]]];
      first [lia | exfalso; lra | destruct (Z.even (Qfloor a)); first [lia | exfalso; lra]].

  - assert (rne a ≤ Qfloor a + 1)%Z.
    { destruct Ha as [[_ ->]|[[_ ->]|[_ ->]]]; try lia. destruct (Z.even (Qfloor a)); lia. }
    assert (Qfloor b ≤ rne b)%Z.
    { destruct Hb as [[_ ->]|[[_ ->]|[_ ->]]]; try lia. destruct (Z.even (Qfloor b)); lia. }
    lia.
Qed.

Lemma rne_opp a : rne (- a) = (- rne a)%Z.
Proof.
  pose proof (Qfloor_le a) as H1. pose proof (Qlt_floor a) as H2.
  rewrite inject_Z_plus in H2. change (inject_Z 1) with 1 in H2.
  destruct (Qeq_dec a (inject_Z (Qfloor a))) as [Heq|Hne].
  - rewrite Heq at 2. rewrite rne_Z.
    assert (- a == inject_Z (- Qfloor a)) as -> by (rewrite inject_Z_opp; lra).
    by rewrite rne_Z.
  - assert (inject_Z (Qfloor a) < a) as H3.
    { apply Qle_lteq in H1 as [|Heq]; [done|]. destruct Hne. by symmetry. }
    assert (Qfloor (- a) = - (Qfloor a + 1))%Z as Hf.
    { apply Qfloor_unique.
      - rewrite inject_Z_opp, inject_Z_plus. change (inject_Z 1) with 1. lra.
      - replace (- (Qfloor a + 1) + 1)%Z with (- Qfloor a)%Z by lia. rewrite inject_Z_opp. lra. }
    pose proof (rne_cases a) as Ha. pose proof (rne_cases (- a)) as Hb. cbv zeta in *.
    rewrite Hf in Hb.
    rewrite inject_Z_opp, inject_Z_plus in Hb. change (inject_Z 1) with 1 in Hb.
    destruct Ha as [[Ha ->]|[[Ha ->]|[Ha ->]]], Hb as [[Hb ->]|[[Hb ->]|[Hb ->]]];
      try lia; try (exfalso; lra).
    rewrite Z.even_opp, Z.even_add.
    destruct (Z.even (Qfloor a)); simpl; lia.
Qed.

(** *** Rounding to the nearest double *)
Lemma ulp_pos q : 0 < ulp q.
Proof. apply pow2_pos. Qed.

Lemma div_ulp_mul q r : q / ulp r * ulp r == q.
Proof. pose proof (ulp_pos r). field. lra. Qed.

Lemma round_le_multiple q z : q <= inject_Z z * ulp q → round q <= inject_Z z * ulp q.
Proof.
  intros H. pose proof (ulp_pos q) as Hu. unfold round.
  apply Qmult_le_compat_r; [|lra].
  rewrite <-Zle_Qle. rewrite <-(rne_Z z). apply rne_mono.
  apply Qle_shift_div_r; done.
Qed.

Lemma round_ge_multiple q z : inject_Z z * ulp q <= q → inject_Z z * ulp q <= round q.
Proof.
  intros H. pose proof (ulp_pos q) as Hu. unfold round.
  apply Qmult_le_compat_r; [|lra].
  rewrite <-Zle_Qle. rewrite <-(rne_Z z) at 1. apply rne_mono.
  apply Qle_shift_div_l; done.
Qed.

Lemma round_multiple q z : q == inject_Z z * ulp q → round q == q.
Proof.
  intros H. apply Qle_antisym.
  - apply Qle_trans with (inject_Z z * ulp q); [apply round_le_multiple|]; lra.
  - apply Qle_trans with (inject_Z z * ulp q); [|apply round_ge_multiple]; lra.
Qed.

Lemma round_zero q : q == 0 → round q == 0.
Proof.
  intros H. rewrite (round_multiple q 0); [done|]. change (inject_Z 0) with 0. lra.
Qed.

Lemma ilog2_opp q : ilog2 (- q) = ilog2 q.
Proof.
  unfold ilog2. destruct q as [n d]. cbn [Qopp Qnum Qden].
  rewrite Z.abs_opp.
  assert (Qabs (- n # d) == Qabs (n # d)) as H by apply (Qabs_opp (n # d)).
  by rewrite (Qleb_comp _ _ (reflexivity _) _ _ H).
Qed.

Lemma ulp_opp q : ulp (- q) = ulp q.
Proof. unfold ulp. by rewrite ilog2_opp. Qed.

Lemma round_opp q : round (- q) == - round q.
Proof.
  unfold round. rewrite ulp_opp.
  assert (- q / ulp q == - (q / ulp q)) as -> by (pose proof (ulp_pos q); field; lra).
  rewrite rne_opp, inject_Z_opp. ring.
Qed.

Lemma ilog2_comp q q' : q == q' → ¬ q == 0 → ilog2 q = ilog2 q'.
Proof.
  intros H Hq. destruct (ilog2_spec q Hq) as [H1 H2].
  symmetry. apply ilog2_unique; by rewrite <-H.
Qed.

Lemma round_comp q q' : q == q' → round q == round q'.
Proof.
  intros H. destruct (Qeq_dec q 0) as [Hq|Hq].
  - rewrite (round_zero q Hq). symmetry. apply round_zero. by rewrite <-H.
  - unfold round, ulp. rewrite (ilog2_comp q q' H Hq). by rewrite H.
Qed.

#[local] Instance round_proper : Proper (Qeq ==> Qeq) round.
Proof. intros a b. apply round_comp. Qed.

Lemma ilog2_pos_le a b : 0 < a → a <= b → (ilog2 a ≤ ilog2 b)%Z.
Proof.
  intros Ha Hab.
  destruct (ilog2_spec a) as [H1 H2]; [lra|].
  destruct (ilog2_spec b) as [H3 H4]; [lra|].
  rewrite Qabs_pos in H1, H2, H3, H4 by lra.
  assert (ilog2 a < ilog2 b + 1)%Z by (apply pow2_lt_inv; lra). lia.
Qed.

Lemma round_nonneg q : 0 <= q → 0 <= round q.
Proof.
  intros H. assert (0 == inject_Z 0 * ulp q) as H0 by ring.
  rewrite H0. apply round_ge_multiple. lra.
Qed.

Lemma round_nonpos q : q <= 0 → round q <= 0.
Proof.
  intros H. assert (0 == inject_Z 0 * ulp q) as H0 by ring.
  rewrite H0. apply round_le_multiple. lra.
Qed.

Lemma round_mono_pos a b : 0 < a → a <= b → round a <= round b.
Proof.
  intros Ha Hab.
  pose proof (ilog2_pos_le a b Ha Hab) as He.
  destruct (ilog2_spec a) as [H1 H2]; [lra|].
  destruct (ilog2_spec b) as [H3 H4]; [lra|].
  rewrite Qabs_pos in H1, H2, H3, H4 by lra.
  destruct (decide (Z.max (ilog2 a) (-1022) = Z.max (ilog2 b) (-1022))) as [Heq|Hne].
  - unfold round, ulp. rewrite Heq.
    apply Qmult_le_compat_r; [|apply Qlt_le_weak, pow2_pos].
    rewrite <-Zle_Qle. apply rne_mono.
    apply Qmult_le_compat_r; [done|]. apply Qlt_le_weak, Qinv_lt_0_compat, pow2_pos.
  - assert (ilog2 a < ilog2 b ∧ -1022 < ilog2 b)%Z as [Hlt Hb] by lia.
    set (ea := (Z.max (ilog2 a) (-1022) - 52)%Z).
    (* the power of two between them *)
    apply Qle_trans with (pow2 (ilog2 b)).
    + assert (pow2 (ilog2 b) == inject_Z (2 ^ (ilog2 b - ea)) * ulp a) as Ht.
      { rewrite <-pow2_Z by lia. unfold ulp. fold ea. rewrite <-pow2_plus.
        by replace (ilog2 b - ea + ea)%Z with (ilog2 b) by lia. }
      rewrite Ht. apply round_le_multiple. rewrite <-Ht.
      apply Qle_trans with (pow2 (ilog2 a + 1)); [lra|]. apply pow2_le. lia.
    + assert (pow2 (ilog2 b) == inject_Z (2 ^ 52) * ulp b) as Ht.
      { rewrite <-pow2_Z by lia. unfold ulp. rewrite <-pow2_plus.
        by replace (52 + (Z.max (ilog2 b) (-1022) - 52))%Z with (ilog2 b) by lia. }
      rewrite Ht. apply round_ge_multiple. by rewrite <-Ht.
Qed.

Lemma round_mono a b : a <= b → round a <= round b.
Proof.
  intros Hab.
  destruct (Qlt_le_dec 0 a) as [Ha|Ha]; [by apply round_mono_pos|].
  destruct (Qlt_le_dec b 0) as [Hb|Hb].
  - assert (round (- b) <= round (- a)) as H by (apply round_mono_pos; lra).
    rewrite !round_opp in H. lra.
  - apply Qle_trans with 0; [by apply round_nonpos | by apply round_nonneg].
Qed.

Lemma round_Z z : (Z.abs z ≤ 2 ^ 53)%Z → round (inject_Z z) == inject_Z z.
Proof.
  intros Hz.
  destruct (decide (z = 0%Z)) as [->|Hz0]; [by apply round_zero|].
  assert (¬ inject_Z z == 0) as Hq.
  { intros H. apply Hz0. by apply inject_Z_injective. }
  destruct (ilog2_spec _ Hq) as [H1 H2].
  change (Qabs (inject_Z z)) with (inject_Z (Z.abs z)) in H1, H2.
  assert (inject_Z 1 <= inject_Z (Z.abs z)) as Hge by (rewrite <-Zle_Qle; lia).
  assert (inject_Z (Z.abs z) <= inject_Z (2 ^ 53)) as Hle by (by rewrite <-Zle_Qle).
  rewrite <-pow2_Z in Hle by done. change (inject_Z 1) with (pow2 0) in Hge.
  assert (0 ≤ ilog2 (inject_Z z) ≤ 53)%Z as He.
  { split.
    - assert (0 < ilog2 (inject_Z z) + 1)%Z by (apply pow2_lt_inv; lra). lia.
    - apply pow2_le_inv. lra. }
  set (e := ilog2 (inject_Z z)) in *.
  destruct (decide (e = 53%Z)) as [He53|He53].
  - (* |z| = 2^53 *)
    assert (Z.abs z = 2 ^ 53)%Z as Hz53.
    { apply Z.le_antisymm; [done|]. rewrite Zle_Qle, <-pow2_Z by done. by rewrite <-He53. }
    apply (round_multiple _ (z / 2)). unfold ulp. fold e. rewrite He53.
    replace (Z.max 53 (-1022) - 52)%Z with 1%Z by lia. change (pow2 1) with (inject_Z 2).
    rewrite <-inject_Z_mult. apply inject_Z_injective.
    destruct (Z.abs_eq_or_opp z) as [Hs|Hs]; rewrite Hz53 in Hs.
    + rewrite <-Hs. done.
    + assert (z = - 2 ^ 53)%Z as -> by lia. done.
  - apply (round_multiple _ (z * 2 ^ (52 - e))). unfold ulp. fold e.
    replace (Z.max e (-1022) - 52)%Z with (- (52 - e))%Z by lia.
    rewrite inject_Z_mult, <-pow2_Z by lia. rewrite <-Qmult_assoc, <-pow2_plus.
    replace (52 - e + - (52 - e))%Z with 0%Z by lia. change (pow2 0) with 1. ring.
Qed.

(** ** Integers are computed exactly *)
Lemma rnd_comp q q' : q == q' → rnd q = rnd q'.
Proof.
  intros H. unfold rnd. cbv zeta.
  pose proof (round_comp q q' H) as Hr.
  rewrite (Qleb_comp _ _ (reflexivity _) _ _ (Qabs_wd _ _ Hr)).
  rewrite (Qleb_comp _ _ (reflexivity 0) _ _ Hr).
  by rewrite (proj2 (Q2Qc_eq_iff _ _) Hr).
Qed.

Lemma rnd_exact q : round q == q → Qabs q < pow2 1024 → rnd q = Finite (Q2Qc q).
Proof.
  intros Hr Hq. unfold rnd. cbv zeta.
  destruct (Qle_bool (pow2 1024) (Qabs (round q))) eqn:Hb.
  - apply Qle_bool_iff in Hb. rewrite Hr in Hb. lra.
  - f_equal. by apply Q2Qc_eq_iff.
Qed.

Lemma pow2_53_lt_1024 : pow2 53 < pow2 1024.
Proof. by apply pow2_lt. Qed.

Lemma Q2Qc_inject_Z z : Q2Qc (inject_Z z) = Qc_of_Z z.
Proof. apply Qc_is_canon. simpl. apply Qred_correct. Qed.

Lemma rnd_Z z : (Z.abs z ≤ 2 ^ 53)%Z → rnd (inject_Z z) = of_Z z.
Proof.
  intros Hz. unfold of_Z. rewrite <-Q2Qc_inject_Z.
  apply rnd_exact; [by apply round_Z|].
  change (Qabs (inject_Z z)) with (inject_Z (Z.abs z)).
  apply Qle_lt_trans with (pow2 53); [|apply pow2_53_lt_1024].
  rewrite pow2_Z by done. by rewrite <-Zle_Qle.
Qed.

Lemma this_of_Z z : Qc_of_Z z == inject_Z z.
Proof. reflexivity. Qed.

Lemma add_of_Z a b :
  (Z.abs (a + b) ≤ 2 ^ 53)%Z → add (of_Z a) (of_Z b) = of_Z (a + b).
Proof.
  intros H. rewrite <-(rnd_Z (a + b)) by done. unfold add, of_Z.
  apply rnd_comp. rewrite !this_of_Z, inject_Z_plus. reflexivity.
Qed.

Lemma mul_of_Z a b :
  (Z.abs (a * b) ≤ 2 ^ 53)%Z → mul (of_Z a) (of_Z b) = of_Z (a * b).
Proof.
  intros H. rewrite <-(rnd_Z (a * b)) by done. unfold mul, of_Z.
  apply rnd_comp. rewrite !this_of_Z, inject_Z_mult. reflexivity.
Qed.

Lemma neg_of_Z a : neg (of_Z a) = of_Z (- a).
Proof.
  unfold neg, of_Z. f_equal. apply Qc_is_canon.
  change (this (- Qc_of_Z a)%Qc) with (Qred (- Qc_of_Z a)).
  rewrite Qred_correct, !this_of_Z, inject_Z_opp. reflexivity.
Qed.

Lemma sub_of_Z a b :
  (Z.abs (a - b) ≤ 2 ^ 53)%Z → sub (of_Z a) (of_Z b) = of_Z (a - b).
Proof. intros H. unfold sub. rewrite neg_of_Z. by apply add_of_Z. Qed.

(** C6 (as amended).  Translating to grid space and back is the
    identity on both axes when the coordinate, the adjustment factor and
    their sum are integers of magnitude at most 2^53: the two additions
    are exact then. *)
Theorem translateRouting_round_trip_integers (f : Factory) (v h a : Z) :
  hAdjustmentFactor f = of_Z h →
  vAdjustmentFactor f = of_Z a →
  (Z.abs h ≤ 2 ^ 53)%Z → (Z.abs a ≤ 2 ^ 53)%Z →
  (Z.abs (v + h) ≤ 2 ^ 53)%Z → (Z.abs (v + a) ≤ 2 ^ 53)%Z →
  (Z.abs v ≤ 2 ^ 53)%Z →
  translateRoutingX f (translateRoutingX f (of_Z v) false) true = of_Z v ∧
  translateRoutingY f (translateRoutingY f (of_Z v) false) true = of_Z v.
Proof.
  intros Hh Ha Bh Ba Bvh Bva Bv. unfold translateRoutingX, translateRoutingY.
  rewrite Hh, Ha.
  rewrite !mul_of_Z by lia. rewrite !add_of_Z by lia.
  split; f_equal; f_equal; lia.
Qed.

Lemma translateRouting_round_trip_integers_witness :
  let f := mkFactory (of_Z 5) (of_Z 41) (of_Z 3) in
  translateRoutingX f (translateRoutingX f (of_Z (-7)) false) true = of_Z (-7) ∧
  translateRoutingY f (translateRoutingY f (of_Z (-7)) false) true = of_Z (-7).
Proof.
  apply (translateRouting_round_trip_integers _ (-7) 41 3); (reflexivity || lia).
Defined.

(** C6 (as stated) fails: the two additions round.  With the adjustment
    factor 41 the coordinate 0.1 comes back as 14073748835533/2^47
    (0.10000000000000142) on both axes, and with the adjustment factor 1
    the coordinate 2^53 comes back as 2^53 - 1. *)
Lemma translateRouting_round_trip_inexact :
  let f := mkFactory (of_Z 5) (of_Z 41) (of_Z 41) in
  let v := Finite (literal (1 # 10)) in
  eqb (translateRoutingX f (translateRoutingX f v false) true) v = false ∧
  eqb (translateRoutingY f (translateRoutingY f v false) true) v = false ∧
  eqb (translateRoutingX f (translateRoutingX f v false) true)
      (Finite (Q2Qc (14073748835533 # 2 ^ 47))) = true ∧
  let g := mkFactory (of_Z 5) (of_Z 1) (of_Z 1) in
  eqb (translateRoutingX g (translateRoutingX g (of_Z (2 ^ 53)) false) true)
      (of_Z (2 ^ 53 - 1)) = true.
Proof.
  vm_compute. repeat split.
Qed.

(** The rounding on familiar values: 0.1 is 3602879701896397/2^55,
    0.1 + 0.2 is not 0.3, 2^53 + 1 is 2^53, 0.1 + 4.9 is 5, and a
    division by 0 gives an infinity or NaN. *)
Example rounding_examples :
  literal (1 # 10) = Q2Qc (3602879701896397 # 2 ^ 55) ∧
  eqb (add (Finite (literal (1 # 10))) (Finite (literal (2 # 10))))
      (Finite (literal (3 # 10))) = false ∧
  eqb (add (of_Z (2 ^ 53)) (of_Z 1)) (of_Z (2 ^ 53)) = true ∧
  eqb (add (Finite (literal (1 # 10))) (Finite (literal (49 # 10)))) (of_Z 5) = true ∧
  div (of_Z 1) (of_Z 0) = Infinity false ∧
  div (of_Z 0) (of_Z 0) = NaN.
Proof.
  split; [apply Qc_is_canon; by vm_compute|]. by vm_compute.
Qed.

(** ** The order of numbers and monotone rounding *)
Lemma le_Finite p q : le (Finite p) (Finite q) ↔ (p <= q)%Q.
Proof. unfold le, leb. apply Qle_bool_iff. Qed.

Lemma le_refl a : a ≠ NaN → le a a.
Proof.
  destruct a as [|[]|q]; try done. intros _. apply le_Finite. lra.
Qed.

Lemma le_trans a b c : le a b → le b c → le a c.
Proof.
  destruct a as [|[]|p], b as [|[]|q], c as [|[]|r]; try done.
  rewrite !le_Finite. lra.
Qed.


Lemma le_not_NaN_r a b : le a b → b ≠ NaN.
Proof. by destruct a as [|[]|?], b. Qed.

Lemma ltb_false_le a b : a ≠ NaN → b ≠ NaN → ltb a b = false → le b a.
Proof.
  destruct a as [|[]|p], b as [|[]|q]; try done.
  intros _ _. unfold ltb, le, leb. by intros ->%negb_false_iff.
Qed.

Lemma ltb_true_le a b : ltb a b = true → le a b.
Proof.
  destruct a as [|[]|p], b as [|[]|q]; try done.
  unfold ltb. intros Hn%negb_true_iff. apply le_Finite.
  apply Qlt_le_weak, Qnot_le_lt. intros H%Qle_bool_iff. congruence.
Qed.

Lemma rnd_not_NaN q : rnd q ≠ NaN.
Proof. unfold rnd. cbv zeta. by destruct (Qle_bool _ _). Qed.

Lemma rnd_cases q :
  (pow2 1024 <= round q ∧ rnd q = Infinity false) ∨
  (round q <= - pow2 1024 ∧ rnd q = Infinity true) ∨
  (- pow2 1024 < round q ∧ round q < pow2 1024 ∧ rnd q = Finite (Q2Qc (round q))).
Proof.
  unfold rnd. cbv zeta. pose proof (pow2_pos 1024) as Hp.
  destruct (Qle_bool (pow2 1024) (Qabs (round q))) eqn:Hb.
  - apply Qle_bool_iff in Hb.
    destruct (Qle_bool 0 (round q)) eqn:Hs.
    + apply Qle_bool_iff in Hs. rewrite Qabs_pos in Hb by done. by left.
    + right; left. split; [|done].
      assert (round q < 0) as Hneg.
      { apply Qnot_le_lt. intros H%Qle_bool_iff. congruence. }
      rewrite Qabs_neg in Hb by lra. lra.
  - right; right.
    assert (Qabs (round q) < pow2 1024) as Hlt.
    { apply Qnot_le_lt. intros H%Qle_bool_iff. congruence. }
    apply Qabs_Qlt_condition in Hlt as [? ?]. done.
Qed.

Lemma rnd_mono a b : a <= b → le (rnd a) (rnd b).
Proof.
  intros Hab. pose proof (round_mono a b Hab) as Hr. pose proof (pow2_pos 1024) as Hp.
  destruct (rnd_cases a) as [[Ha ->]|[[Ha ->]|(Ha1 & Ha2 & ->)]],
           (rnd_cases b) as [[Hb ->]|[[Hb ->]|(Hb1 & Hb2 & ->)]];
    try done; try (exfalso; lra).
  apply le_Finite. simpl. by rewrite !Qred_correct.
Qed.



Lemma le_of_Z a b : le (of_Z a) (of_Z b) ↔ (a ≤ b)%Z.
Proof. unfold of_Z. rewrite le_Finite. simpl. by rewrite <-Zle_Qle. Qed.

(** ** The boxes that the dimension computation collects *)
Lemma box_eta b : mkBox (x b) (y b) (width b) (height b) = b.
Proof. by destruct b. Qed.

Lemma or_iff (A B C D : Prop) : (A ↔ C) → (B ↔ D) → (A ∨ B ↔ C ∨ D).
Proof. tauto. Qed.

Lemma elem_of_map {A B} (f : A → B) (l : list A) (b : B) :
  b ∈ map f l ↔ ∃ a, f a = b ∧ a ∈ l.
Proof. rewrite list_elem_of_In, in_map_iff. by setoid_rewrite list_elem_of_In. Qed.

Lemma elem_of_concat {A} (ls : list (list A)) (a : A) :
  a ∈ concat ls ↔ ∃ l, l ∈ ls ∧ a ∈ l.
Proof. rewrite list_elem_of_In, in_concat. by setoid_rewrite list_elem_of_In. Qed.

Lemma elem_of_allCoords e b : b ∈ allCoords e ↔ geometryBox e b.
Proof.
  unfold allCoords, geometryBox, allNodesCoords, allPortsCoords, allPointsCoords, linkPorts.
  rewrite !elem_of_app. apply or_iff; [|apply or_iff].
  - rewrite elem_of_map. split.
    + intros (b' & <- & Hin). by rewrite box_eta.
    + intros Hin. exists b. by rewrite box_eta.
  - rewrite elem_of_map. split.
    + intros (b' & <- & Hin). rewrite box_eta.
      apply list_elem_of_omap in Hin as (o & Ho & Hid). simpl in Hid. subst o.
      apply elem_of_concat in Ho as (l & Hl & Hb).
      apply elem_of_map in Hl as (link & <- & Hlink).
      exists link. split; [done|].
      rewrite !elem_of_cons in Hb. rewrite elem_of_nil in Hb.
      destruct Hb as [Hb|[Hb|[]]]; [left|right]; done.
    + intros (link & Hlink & Hb). exists b. split; [by rewrite box_eta|].
      apply list_elem_of_omap. exists (Some b). split; [|done].
      apply elem_of_concat. exists [sourcePort link; targetPort link].
      split; [apply elem_of_map; by exists link|].
      rewrite !elem_of_cons. destruct Hb as [->| ->]; auto.
  - rewrite elem_of_map. split.
    + intros (point & <- & Hin).
      apply elem_of_concat in Hin as (l & Hl & Hp).
      apply elem_of_map in Hl as (link & <- & Hlink).
      by exists link, point.
    + intros (link & point & Hlink & Hp & ->). exists point. split; [done|].
      apply elem_of_concat. exists (points link). split; [|done].
      apply elem_of_map. by exists link.
Qed.

Lemma allCoords_nonempty e : (∃ b, geometryBox e b) → allCoords e ≠ [].
Proof.
  intros (b & Hb%elem_of_allCoords) Hnil. rewrite Hnil in Hb. by apply elem_of_nil in Hb.
Qed.

(** ** The lodash reductions on doubles *)
Section BaseExtremumFacts.
Context {A : Type} (key : A → number) (cmp : number → number → bool).
Context (before : number → number → Prop).
Hypothesis before_refl : ∀ a, a ≠ NaN → before a a.
Hypothesis before_trans : ∀ a b c, before a b → before b c → before a c.
Hypothesis cmp_true : ∀ a b, cmp a b = true → before a b.
Hypothesis cmp_false : ∀ a b, a ≠ NaN → b ≠ NaN → cmp a b = false → before b a.

Lemma baseExtremum_from (l : list A) (r : A) :
  key r ≠ NaN → (∀ a, a ∈ l → key a ≠ NaN) →
  ∃ a, baseExtremum key cmp l (Some (key r)) (Some r) = Some a ∧
    (a = r ∨ a ∈ l) ∧ before (key a) (key r) ∧ ∀ b, b ∈ l → before (key a) (key b).
Proof.
  revert r. induction l as [|v l IH]; intros r Hr Hl.
  - exists r. split; [done|]. split; [by left|]. split; [by apply before_refl|].
    intros b Hb. by apply elem_of_nil in Hb.
  - cbn [baseExtremum]. destruct (cmp (key v) (key r)) eqn:Hc.
    + destruct (IH v) as (a & -> & Hin & Hav & Hall).
      { apply Hl. by left. } { intros a Ha. apply Hl. by right. }
      exists a. split; [done|]. split; [right; destruct Hin as [->|]; by constructor|].
      split; [eapply before_trans; [done|by apply cmp_true]|].
      intros b [->|Hb]%elem_of_cons; [done|by apply Hall].
    + destruct (IH r) as (a & -> & Hin & Har & Hall).
      { done. } { intros a Ha. apply Hl. by right. }
      exists a. split; [done|]. split; [destruct Hin as [->|]; [by left|right; by constructor]|].
      split; [done|].
      intros b [->|Hb]%elem_of_cons; [|by apply Hall].
      eapply before_trans; [done|]. apply cmp_false; [apply Hl; by left|done..].
Qed.

Lemma baseExtremum_Some (l : list A) :
  l ≠ [] → (∀ a, a ∈ l → key a ≠ NaN) →
  ∃ a, baseExtremum key cmp l None None = Some a ∧ a ∈ l ∧
    ∀ b, b ∈ l → before (key a) (key b).
Proof.
  destruct l as [|v l]; [done|]. intros _ Hl.
  cbn [baseExtremum].
  assert (key v ≠ NaN) as Hv by (apply Hl; by left).
  destruct (key v) eqn:Hk; [done|..]; rewrite <-Hk.
  all: destruct (baseExtremum_from l v) as (a & -> & Hin & Hav & Hall);
    [by rewrite Hk | by (intros a Ha; apply Hl; right) |].
  all: exists a; split; [done|].
  all: split; [destruct Hin as [->|]; by constructor|].
  all: intros b [->|Hb]%elem_of_cons; [done|by apply Hall].
Qed.
End BaseExtremumFacts.

Lemma minBy_least {A} (key : A → number) (l : list A) :
  l ≠ [] → (∀ a, a ∈ l → key a ≠ NaN) →
  ∃ a, minBy l key = Some a ∧ a ∈ l ∧ ∀ b, b ∈ l → le (key a) (key b).
Proof.
  apply (baseExtremum_Some key ltb le).
  - apply le_refl.
  - apply le_trans.
  - apply ltb_true_le.
  - intros a b Ha Hb. by apply ltb_false_le.
Qed.

Lemma maxBy_greatest {A} (key : A → number) (l : list A) :
  l ≠ [] → (∀ a, a ∈ l → key a ≠ NaN) →
  ∃ a, maxBy l key = Some a ∧ a ∈ l ∧ ∀ b, b ∈ l → le (key b) (key a).
Proof.
  apply (baseExtremum_Some key (λ a b, ltb b a) (λ a b, le b a)).
  - apply le_refl.
  - intros a b c H1 H2. by apply (le_trans c b a).
  - intros a b. apply ltb_true_le.
  - intros a b Ha Hb. by apply ltb_false_le.
Qed.

Lemma add_coord_not_NaN p q : add (coord p) (coord q) ≠ NaN.
Proof. apply rnd_not_NaN. Qed.

(** What the computation returns on a geometry with a box, in terms of
    the four extremal boxes. *)
Lemma calculateMatrixDimensions_extremal s e :
  (∃ b, geometryBox e b) →
  ∃ a1 a2 a3 a4,
    least_over e (λ box, coord (x box)) (coord (x a1)) ∧
    greatest_over e (λ box, add (coord (x box)) (coord (width box)))
      (add (coord (x a2)) (coord (width a2))) ∧
    least_over e (λ box, coord (y box)) (coord (y a3)) ∧
    greatest_over e (λ box, add (coord (y box)) (coord (height box)))
      (add (coord (y a4)) (coord (height a4))) ∧
    calculateMatrixDimensions s e = Some {|
      dim_width :=
        ceil (add (abs (mul (floor (div (min (coord (x a1)) (of_Z 0)) s)) s))
                  (max (add (coord (x a2)) (coord (width a2)))
                       (of_Z (Z.of_N (offsetWidth e)))));
      dim_hAdjustmentFactor :=
        add (div (abs (mul (floor (div (min (coord (x a1)) (of_Z 0)) s)) s)) s) (of_Z 1);
      dim_height :=
        ceil (add (abs (mul (floor (div (min (coord (y a3)) (of_Z 0)) s)) s))
                  (max (add (coord (y a4)) (coord (height a4)))
                       (of_Z (Z.of_N (offsetHeight e)))));
      dim_vAdjustmentFactor :=
        add (div (abs (mul (floor (div (min (coord (y a3)) (of_Z 0)) s)) s)) s) (of_Z 1) |}.
Proof.
  intros Hne%allCoords_nonempty. unfold calculateMatrixDimensions. cbv zeta.
  destruct (minBy_least (λ item, coord (x item)) _ Hne) as (a1 & -> & Hin1 & H1); [done|].
  destruct (maxBy_greatest (λ item, add (coord (x item)) (coord (width item))) _ Hne)
    as (a2 & -> & Hin2 & H2); [intros; apply add_coord_not_NaN|].
  destruct (minBy_least (λ item, coord (y item)) _ Hne) as (a3 & -> & Hin3 & H3); [done|].
  destruct (maxBy_greatest (λ item, add (coord (y item)) (coord (height item))) _ Hne)
    as (a4 & -> & Hin4 & H4); [intros; apply add_coord_not_NaN|].
  exists a1, a2, a3, a4. unfold least_over, greatest_over.
  setoid_rewrite <-elem_of_allCoords.
  repeat split; eauto.
Qed.

Lemma min_commutes a b : min a b = min b a.
Proof.
  destruct a as [|[]|p], b as [|[]|q]; try done.
  unfold min, leb.
  destruct (Qle_bool p q) eqn:H1, (Qle_bool q p) eqn:H2; try done.
  - apply Qle_bool_iff in H1, H2. f_equal. apply Qc_is_canon. lra.
  - exfalso. 
    assert (¬ p <= q)%Q as N1 by (intros H%Qle_bool_iff; congruence).
    assert (¬ q <= p)%Q as N2 by (intros H%Qle_bool_iff; congruence). lra.
Qed.

(** C5.  On every geometry with at least one node, port or point box,
    for every scaling factor and viewport, [calculateMatrixDimensions]
    returns exactly
    width = ceil(|minX| + maxX), height = ceil(|minY| + maxY),
    hAdjustmentFactor = |minX|/s + 1, vAdjustmentFactor = |minY|/s + 1,
    with minX = floor(min(0, least box.x)/s)·s,
    maxX = max(greatest box.x + box.width, viewport width),
    and the same on the Y axis.  The least and greatest values are taken
    over the boxes of the geometry ([geometryBox]: nodes, ports and link
    points), and every operation is the one of doubles. *)
Theorem calculateMatrixDimensions_result (s : number) (e : Engine) :
  (∃ box, geometryBox e box) →
  ∃ leastX greatestX leastY greatestY,
    least_over e (λ box, coord (x box)) leastX ∧
    greatest_over e (λ box, add (coord (x box)) (coord (width box))) greatestX ∧
    least_over e (λ box, coord (y box)) leastY ∧
    greatest_over e (λ box, add (coord (y box)) (coord (height box))) greatestY ∧
    let minX := mul (floor (div (min (of_Z 0) leastX) s)) s in
    let maxX := max greatestX (of_Z (Z.of_N (offsetWidth e))) in
    let minY := mul (floor (div (min (of_Z 0) leastY) s)) s in
    let maxY := max greatestY (of_Z (Z.of_N (offsetHeight e))) in
    calculateMatrixDimensions s e = Some {|
      dim_width := ceil (add (abs minX) maxX);
      dim_hAdjustmentFactor := add (div (abs minX) s) (of_Z 1);
      dim_height := ceil (add (abs minY) maxY);
      dim_vAdjustmentFactor := add (div (abs minY) s) (of_Z 1) |}.
Proof.
  intros He.
  destruct (calculateMatrixDimensions_extremal s e He)
    as (a1 & a2 & a3 & a4 & H1 & H2 & H3 & H4 & Heq).
  exists (coord (x a1)), (add (coord (x a2)) (coord (width a2))),
         (coord (y a3)), (add (coord (y a4)) (coord (height a4))).
  repeat (split; [done|]). cbv zeta.
  by rewrite (min_commutes (of_Z 0) (coord (x a1))), (min_commutes (of_Z 0) (coord (y a3))).
Qed.

Lemma geometryBox_mixedEngine box :
  geometryBox mixedEngine box →
  box = mkBox (Num.num (-200)) (Num.num (-200)) (Num.num 50) (Num.num 50) ∨
  box = mkBox (Num.num (-300)) (Num.num 40) (Num.num 10) (Num.num 10) ∨
  box = mkBox (Q2Qc (-701 # 2)) (Num.num 900) 0%Qc 0%Qc.
Proof.
  intros [Hn|[(link & Hl & Hp)|(link & point & Hl & Hp & ->)]].
  - apply list_elem_of_singleton in Hn. by left.
  - apply list_elem_of_singleton in Hl. subst link. right; left.
    destruct Hp as [Hp|Hp]; [by injection Hp|done].
  - apply list_elem_of_singleton in Hl. subst link.
    apply list_elem_of_singleton in Hp. subst point. by right; right.
Qed.

Lemma calculateMatrixDimensions_result_witness :
  ∃ leastX greatestX leastY greatestY,
    least_over mixedEngine (λ box, coord (x box)) leastX ∧
    greatest_over mixedEngine (λ box, add (coord (x box)) (coord (width box))) greatestX ∧
    least_over mixedEngine (λ box, coord (y box)) leastY ∧
    greatest_over mixedEngine (λ box, add (coord (y box)) (coord (height box))) greatestY ∧
    let minX := mul (floor (div (min (of_Z 0) leastX) (of_Z 5))) (of_Z 5) in
    let maxX := max greatestX (of_Z (Z.of_N (offsetWidth mixedEngine))) in
    let minY := mul (floor (div (min (of_Z 0) leastY) (of_Z 5))) (of_Z 5) in
    let maxY := max greatestY (of_Z (Z.of_N (offsetHeight mixedEngine))) in
    calculateMatrixDimensions (of_Z 5) mixedEngine = Some {|
      dim_width := ceil (add (abs minX) maxX);
      dim_hAdjustmentFactor := add (div (abs minX) (of_Z 5)) (of_Z 1);
      dim_height := ceil (add (abs minY) maxY);
      dim_vAdjustmentFactor := add (div (abs minY) (of_Z 5)) (of_Z 1) |}.
Proof.
  apply (calculateMatrixDimensions_result (of_Z 5) mixedEngine).
  eexists. left. apply list_elem_of_here.
Defined.

(** ** Integer scaling factors *)
Lemma abs_of_Z z : abs (of_Z z) = of_Z (Z.abs z).
Proof.
  unfold abs, of_Z. destruct (Qle_bool 0 (Qc_of_Z z)) eqn:Hb.
  - apply Qle_bool_iff in Hb. change (this (Qc_of_Z z)) with (inject_Z z) in Hb.
    change 0 with (inject_Z 0) in Hb. rewrite <-Zle_Qle in Hb.
    by rewrite Z.abs_eq.
  - assert (¬ 0 <= Qc_of_Z z) as Hn by (intros H%Qle_bool_iff; congruence).
    change (this (Qc_of_Z z)) with (inject_Z z) in Hn.
    change 0 with (inject_Z 0) in Hn. rewrite <-Zle_Qle in Hn.
    rewrite Z.abs_neq by lia. apply neg_of_Z.
Qed.

Lemma div_of_Z_exact k s :
  s ≠ 0%Z → (Z.abs k ≤ 2 ^ 53)%Z → div (of_Z (k * s)) (of_Z s) = of_Z k.
Proof.
  intros Hs Hk. rewrite <-(rnd_Z k) by done. unfold div, of_Z.
  assert (¬ inject_Z s == 0) as Hs0.
  { intros H. apply Hs. by apply inject_Z_injective. }
  destruct (Qeq_bool (Qc_of_Z s) 0) eqn:Hb.
  { apply Qeq_bool_eq in Hb. done. }
  apply rnd_comp.
  change (this (Qc_of_Z (k * s))) with (inject_Z (k * s)).
  change (this (Qc_of_Z s)) with (inject_Z s).
  rewrite inject_Z_mult. field. done.
Qed.

Lemma floor_monotone a b : le a b → le (floor a) (floor b).
Proof.
  destruct a as [|[]|p], b as [|[]|q]; try done.
  rewrite le_Finite. intros H. apply le_of_Z. by apply Qfloor_resp_le.
Qed.




(** The adjustment factor for an integer scaling factor. *)
Lemma adjustment_factor (m : Qc) (s B : Z) :
  (1 ≤ s ≤ 2 ^ 52)%Z → (0 ≤ B ≤ 2 ^ 52)%Z → - inject_Z B <= m → m <= 0 →
  ∃ k : Z, (- B ≤ k ≤ 0)%Z ∧
    floor (div (Finite m) (of_Z s)) = of_Z k ∧
    add (div (abs (mul (floor (div (Finite m) (of_Z s))) (of_Z s))) (of_Z s)) (of_Z 1)
      = of_Z (1 - k) ∧
    ∀ p : Qc, m <= p → le (of_Z k) (floor (div (Finite p) (of_Z s))).
Proof.
  intros Hs HB Hlow Hup.
  assert (0 < inject_Z s) as Hs0 by (rewrite <-(Zlt_Qlt 0); lia).
  assert (1 <= inject_Z s) as Hs1 by (rewrite <-(Zle_Qle 1); lia).
  assert (inject_Z s <= inject_Z (2 ^ 52)) as Hs2 by (rewrite <-Zle_Qle; lia).
  assert (0 <= inject_Z B) as HB0 by (rewrite <-(Zle_Qle 0); lia).
  assert (inject_Z B <= inject_Z (2 ^ 52)) as HB2 by (rewrite <-Zle_Qle; lia).
  assert (∀ p : Qc, div (Finite p) (of_Z s) = rnd (p / inject_Z s)) as Hdiv.
  { intros p. unfold div, of_Z.
    destruct (Qeq_bool (Qc_of_Z s) 0) eqn:Hb; [|done].
    apply Qeq_bool_eq in Hb. change (this (Qc_of_Z s)) with (inject_Z s) in Hb. lra. }
  set (q := m / inject_Z s).
  assert (q * inject_Z s == m) as Hqs by (unfold q; field; lra).
  assert (- inject_Z B <= q ∧ q <= 0) as [Hq1 Hq2].
  { split.
    - apply Qle_shift_div_l; [done|]. nra.
    - apply Qle_shift_div_r; [done|]. lra. }
  assert (- inject_Z B <= round q ∧ round q <= 0) as [Hr1 Hr2].
  { split; [|by apply round_nonpos].
    rewrite <-inject_Z_opp. rewrite <-(round_Z (- B)) by lia.
    apply round_mono. by rewrite inject_Z_opp. }
  assert (rnd q = Finite (Q2Qc (round q))) as Hrnd.
  { pose proof pow2_53_lt_1024 as Hp.
    assert (inject_Z (2 ^ 52) <= pow2 53) as Hp2.
    { rewrite pow2_Z by done. by rewrite <-Zle_Qle. }
    destruct (rnd_cases q) as [[H _]|[[H _]|(_ & _ & ->)]]; [exfalso; lra..|done]. }
  set (k := Qfloor (round q)).
  assert (floor (rnd q) = of_Z k) as Hfloor.
  { rewrite Hrnd. unfold floor. f_equal. apply Qfloor_comp. apply Qred_correct. }
  assert (- B ≤ k ≤ 0)%Z as Hk.
  { split.
    - rewrite <-(Qfloor_Z (- B)). apply Qfloor_resp_le. by rewrite inject_Z_opp.
    - rewrite <-(Qfloor_Z 0). by apply Qfloor_resp_le. }
  assert (- 2 ^ 53 ≤ k * s)%Z as Hks.
  { assert (Qfloor q ≤ k)%Z as Hfk.
    { assert (- B ≤ Qfloor q)%Z as Hfq.
      { rewrite <-(Qfloor_Z (- B)). apply Qfloor_resp_le. by rewrite inject_Z_opp. }
      assert (Qfloor q ≤ 0)%Z as Hfq0.
      { rewrite <-(Qfloor_Z 0). by apply Qfloor_resp_le. }
      unfold k. rewrite <-(Qfloor_Z (Qfloor q)) at 1. apply Qfloor_resp_le.
      rewrite <-(round_Z (Qfloor q)) by lia. apply round_mono, Qfloor_le. }
    assert (- 2 ^ 53 < Qfloor q * s)%Z as Hfs.
    { rewrite Zlt_Qlt, inject_Z_mult.
      pose proof (Qlt_floor q) as Hlt. rewrite inject_Z_plus in Hlt.
      change (inject_Z 1) with 1 in Hlt.
      change (inject_Z (- 2 ^ 53)) with (- inject_Z (2 ^ 52) - inject_Z (2 ^ 52)).
      nra. }
    nia. }
  exists k. split; [done|]. rewrite Hdiv. fold q. rewrite Hfloor.
  split; [done|]. split.
  - rewrite mul_of_Z by lia. rewrite abs_of_Z.
    replace (Z.abs (k * s)) with (- k * s)%Z by lia.
    rewrite div_of_Z_exact by lia. rewrite add_of_Z by lia. f_equal. lia.
  - intros p Hp. rewrite Hdiv, <-Hfloor. apply floor_monotone, rnd_mono.
    unfold q. apply Qmult_le_compat_r; [done|]. apply Qlt_le_weak, Qinv_lt_0_compat. done.
Qed.

(** ** Signs through the operations *)
Lemma min_zero (p : Qc) :
  ∃ m : Qc, min (coord p) (of_Z 0) = Finite m ∧ m <= 0 ∧ m <= p ∧
    ∀ c : Q, c <= 0 → c <= p → c <= m.
Proof.
  unfold min, coord, of_Z, leb. change (this (Qc_of_Z 0)) with 0.
  destruct (Qle_bool p 0) eqn:Hb.
  - apply Qle_bool_iff in Hb.
    exists p. repeat split; [done|lra|done].
  - assert (¬ p <= 0) as Hn by (intros H%Qle_bool_iff; congruence).
    exists (Qc_of_Z 0). change (this (Qc_of_Z 0)) with 0.
    repeat split; [lra|lra|done].
Qed.











(** ** The indices computed while marking *)

Lemma elem_of_markElement fuel f b c :
  c ∈ markElement fuel f b →
  let s := ROUTING_SCALING_FACTOR f in
  ∃ cx cy,
    cx ∈ counter false fuel (sub (floor (div (coord (x b)) s)) (of_Z 1))
           (add (ceil (div (add (coord (x b)) (coord (width b))) s)) (of_Z 1)) ∧
    cy ∈ counter true fuel (sub (floor (div (coord (y b)) s)) (of_Z 1))
           (add (ceil (div (add (coord (y b)) (coord (height b))) s)) (of_Z 1)) ∧
    c = (translateRoutingX f cx false, translateRoutingY f cy false).
Proof.
  unfold markElement. cbv zeta.
  intros (cx & (cy & Hc & Hy)%list_elem_of_bind & Hx)%list_elem_of_bind.
  apply list_elem_of_singleton in Hc. by exists cx, cy.
Qed.

Lemma geometryBox_node e node : node ∈ nodes e → geometryBox e node.
Proof. by left. Qed.

Lemma geometryBox_port e port : port ∈ linkPorts e → geometryBox e port.
Proof.
  intros Hin. right; left. unfold linkPorts in Hin.
  apply list_elem_of_omap in Hin as (o & Ho & Hid). simpl in Hid. subst o.
  apply elem_of_concat in Ho as (l & Hl & Hb).
  apply elem_of_map in Hl as (link & <- & Hlink).
  exists link. split; [done|].
  rewrite !elem_of_cons in Hb. rewrite elem_of_nil in Hb.
  destruct Hb as [Hb|[Hb|[]]]; [left|right]; done.
Qed.

(** What holds of the calls made for every box of the geometry holds of
    the calls that [markNodes] and [markPorts] make. *)
Lemma marked_boxes_suffice (e : Engine) (f : Factory) (P : number * number → Prop) :
  (∀ box, geometryBox e box → ∀ fuel c, c ∈ markElement fuel f box → P c) →
  (∀ box, geometryBox e box → ∀ fuel c, c ∈ markElement fuel f box → P c) ∧
  (∀ fuel c, c ∈ markNodes fuel e f ++ markPorts fuel e f → P c).
Proof.
  intros Hall. split; [done|]. intros fuel c.
  unfold markNodes, markPorts.
  intros [(b & Hc & Hb)%list_elem_of_bind|(b & Hc & Hb)%list_elem_of_bind]%elem_of_app.
  - eapply Hall; [by apply geometryBox_node|done].
  - eapply Hall; [by apply geometryBox_port|done].
Qed.




(** ** More on the adjustment factors *)
Lemma rnd_zero q : q == 0 → rnd q = of_Z 0.
Proof. intros H. rewrite <-(rnd_Z 0) by done. by apply rnd_comp. Qed.

Lemma zero_factor (m q : Qc) :
  ¬ q == 0 → m == 0 →
  add (div (abs (mul (floor (div (Finite m) (Finite q))) (Finite q))) (Finite q)) (of_Z 1)
    = of_Z 1.
Proof.
  intros Hq Hm.
  assert (Qeq_bool q 0 = false) as Hb.
  { destruct (Qeq_bool q 0) eqn:Hb; [|done]. by apply Qeq_bool_eq in Hb. }
  assert (∀ p : Qc, p == 0 → div (Finite p) (Finite q) = of_Z 0) as Hdiv.
  { intros p Hp. unfold div. rewrite Hb. apply rnd_zero. rewrite Hp. by field. }
  rewrite (Hdiv m Hm). change (floor (of_Z 0)) with (of_Z 0).
  assert (mul (of_Z 0) (Finite q) = of_Z 0) as ->.
  { unfold mul, of_Z at 1. apply rnd_zero. change (this (Qc_of_Z 0)) with 0. ring. }
  rewrite abs_of_Z. change (Z.abs 0) with 0%Z.
  change (of_Z 0) with (Finite (Qc_of_Z 0)) at 1.
  rewrite (Hdiv (Qc_of_Z 0)) by done. by rewrite add_of_Z.
Qed.

(** X7.  When no node, port or point has a negative coordinate, both
    adjustment factors are exactly 1, for every finite scaling factor
    other than 0, negative and fractional ones included. *)
Theorem adjustment_factors_without_negative_coordinates (q : Qc) (e : Engine) :
  q ≠ 0%Qc →
  (∃ box, geometryBox e box) →
  (∀ box, geometryBox e box → (0 ≤ x box)%Qc ∧ (0 ≤ y box)%Qc) →
  ∃ d, calculateMatrixDimensions (Finite q) e = Some d ∧
    dim_hAdjustmentFactor d = of_Z 1 ∧
    dim_vAdjustmentFactor d = of_Z 1.
Proof.
  intros Hq He Hpos.
  assert (¬ q == 0) as Hq0 by (intros H; apply Hq; by apply Qc_is_canon).
  destruct (calculateMatrixDimensions_extremal (Finite q) e He)
    as (a1 & a2 & a3 & a4 & [[b1 [Hb1 Hk1]] _] & _ & [[b3 [Hb3 Hk3]] _] & _ & Heq).
  eexists. split; [exact Heq|]. cbn [dim_hAdjustmentFactor dim_vAdjustmentFactor].
  assert (x b1 = x a1) as Hx1 by (injection Hk1; done).
  assert (y b3 = y a3) as Hy3 by (injection Hk3; done).
  destruct (min_zero (x a1)) as (mx & -> & Hmx0 & _ & Hmxlow).
  destruct (min_zero (y a3)) as (my & -> & Hmy0 & _ & Hmylow).
  split; apply zero_factor; try done.
  - apply Qle_antisym; [done|]. apply Hmxlow; [lra|]. rewrite <-Hx1. apply (Hpos b1 Hb1).
  - apply Qle_antisym; [done|]. apply Hmylow; [lra|]. rewrite <-Hy3. apply (Hpos b3 Hb3).
Qed.

Lemma adjustment_factors_without_negative_coordinates_witness :
  ∃ d, calculateMatrixDimensions (Finite (literal (-1 # 10))) scenarioEngine = Some d ∧
    dim_hAdjustmentFactor d = of_Z 1 ∧ dim_vAdjustmentFactor d = of_Z 1.
Proof.
  apply (adjustment_factors_without_negative_coordinates (literal (-1 # 10)) scenarioEngine).
  - vm_compute. discriminate.
  - eexists. left. apply list_elem_of_here.
  - intros box [Hn|[(link & Hl & _)|(link & point & Hl & _)]].
    + apply list_elem_of_singleton in Hn. subst box. vm_compute. split; discriminate.
    + by apply elem_of_nil in Hl.
    + by apply elem_of_nil in Hl.
Defined.

(** X6.  With an integer scaling factor from 1 to 2^52 and no coordinate
    below -2^52, both adjustment factors are integers, at least 1: the
    horizontal one is 1 - floor(min(0, least x)/s), the quotient rounded
    as a double before the floor is taken, and likewise the vertical
    one. *)
Theorem adjustment_factors_are_integers (s : Z) (e : Engine) :
  (1 ≤ s ≤ 2 ^ 52)%Z →
  (∃ box, geometryBox e box) →
  (∀ box, geometryBox e box →
     (Qc_of_Z (- 2 ^ 52) ≤ x box)%Qc ∧ (Qc_of_Z (- 2 ^ 52) ≤ y box)%Qc) →
  ∃ d (h v : Z) leastX leastY,
    calculateMatrixDimensions (of_Z s) e = Some d ∧
    least_over e (λ box, coord (x box)) leastX ∧
    least_over e (λ box, coord (y box)) leastY ∧
    (1 ≤ h)%Z ∧ dim_hAdjustmentFactor d = of_Z h ∧
    floor (div (min (of_Z 0) leastX) (of_Z s)) = of_Z (1 - h) ∧
    (1 ≤ v)%Z ∧ dim_vAdjustmentFactor d = of_Z v ∧
    floor (div (min (of_Z 0) leastY) (of_Z s)) = of_Z (1 - v).
Proof.
  intros Hs He Hlow.
  destruct (calculateMatrixDimensions_extremal (of_Z s) e He)
    as (a1 & a2 & a3 & a4 & H1 & _ & H3 & _ & Heq).
  pose proof H1 as [[b1 [Hb1 Hk1]] _]. pose proof H3 as [[b3 [Hb3 Hk3]] _].
  assert (x b1 = x a1) as Hx1 by (injection Hk1; done).
  assert (y b3 = y a3) as Hy3 by (injection Hk3; done).
  rewrite (min_commutes (coord (x a1))), (min_commutes (coord (y a3))) in Heq.
  destruct (min_zero (x a1)) as (mx & Hmx & Hmx0 & _ & Hmxlow).
  destruct (min_zero (y a3)) as (my & Hmy & Hmy0 & _ & Hmylow).
  rewrite min_commutes in Hmx. rewrite min_commutes in Hmy.
  destruct (adjustment_factor mx s (2 ^ 52)) as (kx & Hkx & Hflx & Hfx & _);
    [lia|lia| |done|].
  { apply Hmxlow; [done|]. rewrite <-Hx1. apply (Hlow b1 Hb1). }
  destruct (adjustment_factor my s (2 ^ 52)) as (ky & Hky & Hfly & Hfy & _);
    [lia|lia| |done|].
  { apply Hmylow; [done|]. rewrite <-Hy3. apply (Hlow b3 Hb3). }
  eexists _, (1 - kx)%Z, (1 - ky)%Z, (coord (x a1)), (coord (y a3)).
  split; [exact Heq|]. split; [done|]. split; [done|].
  cbn [dim_hAdjustmentFactor dim_vAdjustmentFactor]. rewrite Hmx, Hmy.
  split; [lia|]. split; [done|]. split; [rewrite Hflx; f_equal; lia|].
  split; [lia|]. split; [done|]. rewrite Hfly; f_equal; lia.
Qed.

Lemma adjustment_factors_are_integers_witness :
  ∃ d (h v : Z),
    calculateMatrixDimensions (of_Z 5) mixedEngine = Some d ∧
    (1 ≤ h)%Z ∧ dim_hAdjustmentFactor d = of_Z h ∧
    (1 ≤ v)%Z ∧ dim_vAdjustmentFactor d = of_Z v.
Proof.
  destruct (adjustment_factors_are_integers 5 mixedEngine)
    as (d & h & v & lx & ly & Hd & _ & _ & Hh1 & Hh & _ & Hv1 & Hv & _).
  - lia.
  - eexists. left. apply list_elem_of_here.
  - intros box [->|[->| ->]]%geometryBox_mixedEngine; vm_compute; split; discriminate.
  - exists d, h, v. repeat (split; [assumption|]). assumption.
Defined.

(** ** Array indices *)
Lemma rnd_bounded (q : Q) (B : Z) :
  (0 ≤ B ≤ 2 ^ 53)%Z → - inject_Z B <= q → q <= inject_Z B →
  ∃ r : Qc, rnd q = Finite r ∧ - inject_Z B <= r ∧ r <= inject_Z B.
Proof.
  intros HB H1 H2.
  assert (- inject_Z B <= round q ∧ round q <= inject_Z B) as [Hr1 Hr2].
  { split.
    - rewrite <-inject_Z_opp. rewrite <-(round_Z (- B)) by lia.
      apply round_mono. by rewrite inject_Z_opp.
    - rewrite <-(round_Z B) by lia. by apply round_mono. }
  assert (inject_Z B <= pow2 53) as HB2.
  { rewrite pow2_Z by done. rewrite <-Zle_Qle. lia. }
  pose proof pow2_53_lt_1024 as Hp.
  exists (Q2Qc (round q)). split.
  - destruct (rnd_cases q) as [[H _]|[[H _]|(_ & _ & ->)]]; [exfalso; lra..|done].
  - simpl. rewrite Qred_correct. done.
Qed.

Lemma div_bounded (p : Qc) (s B : Z) :
  (1 ≤ s)%Z → (0 ≤ B ≤ 2 ^ 53)%Z → - inject_Z B <= p → p <= inject_Z B →
  ∃ r : Qc, div (Finite p) (of_Z s) = Finite r ∧ - inject_Z B <= r ∧ r <= inject_Z B.
Proof.
  intros Hs HB H1 H2.
  assert (0 < inject_Z s) as Hs0 by (rewrite <-(Zlt_Qlt 0); lia).
  assert (1 <= inject_Z s) as Hs1 by (rewrite <-(Zle_Qle 1); lia).
  assert (0 <= inject_Z B) as HB0 by (rewrite <-(Zle_Qle 0); lia).
  unfold div, of_Z. destruct (Qeq_bool (Qc_of_Z s) 0) eqn:Hb.
  { apply Qeq_bool_eq in Hb. change (this (Qc_of_Z s)) with (inject_Z s) in Hb. lra. }
  change (this (Qc_of_Z s)) with (inject_Z s).
  apply rnd_bounded; [done|..].
  - apply Qle_shift_div_l; [done|]. nra.
  - apply Qle_shift_div_r; [done|]. nra.
Qed.

Lemma floor_bounded (r : Qc) (B : Z) :
  - inject_Z B <= r → r <= inject_Z B →
  ∃ k : Z, floor (Finite r) = of_Z k ∧ (- B ≤ k ≤ B)%Z.
Proof.
  intros H1 H2. exists (Qfloor r). split; [done|]. split.
  - rewrite <-(Qfloor_Z (- B)). apply Qfloor_resp_le. by rewrite inject_Z_opp.
  - rewrite <-(Qfloor_Z B). by apply Qfloor_resp_le.
Qed.

Lemma ceil_bounded (r : Qc) (B : Z) :
  - inject_Z B <= r → r <= inject_Z B →
  ∃ k : Z, ceil (Finite r) = of_Z k ∧ (- B ≤ k ≤ B)%Z.
Proof.
  intros H1 H2. exists (Qceiling r). split; [done|]. split.
  - rewrite <-(Qceiling_Z (- B)). apply Qceiling_resp_le. by rewrite inject_Z_opp.
  - rewrite <-(Qceiling_Z B). by apply Qceiling_resp_le.
Qed.

(** On integers that stay below 2^53 the counter of a loop takes the
    integers from its start on. *)
Lemma counter_of_Z (strict : bool) (fuel : nat) (n hi : Z) :
  (- 2 ^ 53 ≤ n)%Z → (hi ≤ 2 ^ 53 - 1)%Z →
  ∀ v, v ∈ counter strict fuel (of_Z n) (of_Z hi) →
  ∃ i : Z, (n ≤ i ≤ hi)%Z ∧ v = of_Z i.
Proof.
  intros Hn Hhi. revert n Hn. induction fuel as [|fuel IH]; intros n Hn v Hv.
  { by apply elem_of_nil in Hv. }
  cbn [counter] in Hv.
  destruct (if strict then ltb (of_Z n) (of_Z hi) else leb (of_Z n) (of_Z hi)) eqn:Hg;
    [|by apply elem_of_nil in Hv].
  assert (n ≤ hi)%Z as Hle.
  { apply le_of_Z. destruct strict; [by apply ltb_true_le|done]. }
  apply elem_of_cons in Hv as [->|Hv]; [exists n; split; [lia|done]|].
  rewrite add_of_Z in Hv by lia.
  destruct (IH (n + 1)%Z) with (v := v) as (i & Hi & ->); [lia|done|].
  exists i. split; [lia|done].
Qed.

(** X8.  With an integer scaling factor from 1 to 2^51 and boxes whose
    edges lie within ±2^51, every index that the loops of marking compute
    for a node, port or point box is a non-negative integer on both axes,
    that is an array index; so is every index that [markNodes] and
    [markPorts] pass to [markMatrixPoint].  The cell of the corner of a
    box itself lands at column and row 1 or later: column 0 and row 0 are
    only reached by the padding. *)
Theorem marked_indices_are_array_indices (s : Z) (e : Engine) :
  (1 ≤ s ≤ 2 ^ 51)%Z →
  (∃ box, geometryBox e box) →
  (∀ box, geometryBox e box →
     (Qc_of_Z (- 2 ^ 51) ≤ x box ≤ Qc_of_Z (2 ^ 51))%Qc ∧
     (Qc_of_Z (- 2 ^ 51) ≤ y box ≤ Qc_of_Z (2 ^ 51))%Qc ∧
     (Qc_of_Z (- 2 ^ 51) ≤ x box + width box ≤ Qc_of_Z (2 ^ 51))%Qc ∧
     (Qc_of_Z (- 2 ^ 51) ≤ y box + height box ≤ Qc_of_Z (2 ^ 51))%Qc) →
  ∃ d, calculateMatrixDimensions (of_Z s) e = Some d ∧
    let f := mkFactory (of_Z s) (dim_hAdjustmentFactor d) (dim_vAdjustmentFactor d) in
    (∀ box, geometryBox e box →
       ∀ fuel c, c ∈ markElement fuel f box →
         ∃ col row : nat, c = (of_Z (Z.of_nat col), of_Z (Z.of_nat row))) ∧
    (∀ fuel c, c ∈ markNodes fuel e f ++ markPorts fuel e f →
       ∃ col row : nat, c = (of_Z (Z.of_nat col), of_Z (Z.of_nat row))) ∧
    ∀ box, geometryBox e box →
      ∃ col row : nat,
        translateRoutingX f (floor (div (coord (x box)) (of_Z s))) false
          = of_Z (Z.of_nat (S col)) ∧
        translateRoutingY f (floor (div (coord (y box)) (of_Z s))) false
          = of_Z (Z.of_nat (S row)).
Proof.
  intros Hs He Hbound.
  destruct (calculateMatrixDimensions_extremal (of_Z s) e He)
    as (a1 & a2 & a3 & a4 & [[b1 [Hb1 Hk1]] H1] & _ & [[b3 [Hb3 Hk3]] H3] & _ & Heq).
  eexists. split; [exact Heq|]. cbn [dim_hAdjustmentFactor dim_vAdjustmentFactor].
  assert (x b1 = x a1) as Hx1 by (injection Hk1; done).
  assert (y b3 = y a3) as Hy3 by (injection Hk3; done).
  destruct (min_zero (x a1)) as (mx & -> & Hmx0 & Hmx1 & Hmxlow).
  destruct (min_zero (y a3)) as (my & -> & Hmy0 & Hmy1 & Hmylow).
  destruct (adjustment_factor mx s (2 ^ 51)) as (kx & Hkx & _ & -> & Hstartx);
    [lia|lia| |done|].
  { apply Hmxlow; [done|]. rewrite <-Hx1. apply (Hbound b1 Hb1). }
  destruct (adjustment_factor my s (2 ^ 51)) as (ky & Hky & _ & -> & Hstarty);
    [lia|lia| |done|].
  { apply Hmylow; [done|]. rewrite <-Hy3. apply (Hbound b3 Hb3). }
  cbv zeta.
  enough (∀ box, geometryBox e box →
    (∀ fuel c,
       c ∈ markElement fuel (mkFactory (of_Z s) (of_Z (1 - kx)) (of_Z (1 - ky))) box →
       ∃ col row : nat, c = (of_Z (Z.of_nat col), of_Z (Z.of_nat row))) ∧
    ∃ col row : nat,
      translateRoutingX (mkFactory (of_Z s) (of_Z (1 - kx)) (of_Z (1 - ky)))
        (floor (div (coord (x box)) (of_Z s))) false = of_Z (Z.of_nat (S col)) ∧
      translateRoutingY (mkFactory (of_Z s) (of_Z (1 - kx)) (of_Z (1 - ky)))
        (floor (div (coord (y box)) (of_Z s))) false = of_Z (Z.of_nat (S row))) as Hen.
  { destruct (marked_boxes_suffice e
        (mkFactory (of_Z s) (of_Z (1 - kx)) (of_Z (1 - ky)))
        (λ c, ∃ col row : nat, c = (of_Z (Z.of_nat col), of_Z (Z.of_nat row)))
        (λ box Hbox, proj1 (Hen box Hbox))) as [HA HB].
    split; [exact HA|]. split; [exact HB|].
    intros box Hbox. apply (Hen box Hbox). }
  intros box Hbox.
  destruct (Hbound box Hbox) as ([Bx1 Bx2] & [By1 By2] & [Bw1 Bw2] & [Bh1 Bh2]).
  unfold Qcle in *.
  change (this (Qc_of_Z (- 2 ^ 51))) with (- inject_Z (2 ^ 51)) in *.
  change (this (Qc_of_Z (2 ^ 51))) with (inject_Z (2 ^ 51)) in *.
  change (this (x box + width box)%Qc) with (Qred (x box + width box)) in *.
  change (this (y box + height box)%Qc) with (Qred (y box + height box)) in *.
  rewrite Qred_correct in Bw1, Bw2, Bh1, Bh2.
  (* the four loop bounds are integers *)
  destruct (div_bounded (x box) s (2 ^ 51)) as (rx & Hrx & Hrx1 & Hrx2); [lia|lia|done..|].
  destruct (floor_bounded rx (2 ^ 51)) as (sx & Hsx & Bsx); [done..|].
  destruct (div_bounded (y box) s (2 ^ 51)) as (ry & Hry & Hry1 & Hry2); [lia|lia|done..|].
  destruct (floor_bounded ry (2 ^ 51)) as (sy & Hsy & Bsy); [done..|].
  destruct (rnd_bounded (x box + width box) (2 ^ 51)) as (wx & Hwx & Hwx1 & Hwx2);
    [lia|done..|].
  destruct (div_bounded wx s (2 ^ 51)) as (rwx & Hrwx & Hrwx1 & Hrwx2); [lia|lia|done..|].
  destruct (ceil_bounded rwx (2 ^ 51)) as (ex & Hex & Bex); [done..|].
  destruct (rnd_bounded (y box + height box) (2 ^ 51)) as (wy & Hwy & Hwy1 & Hwy2);
    [lia|done..|].
  destruct (div_bounded wy s (2 ^ 51)) as (rwy & Hrwy & Hrwy1 & Hrwy2); [lia|lia|done..|].
  destruct (ceil_bounded rwy (2 ^ 51)) as (ey & Hey & Bey); [done..|].
  assert (kx ≤ sx)%Z as Hkx_sx.
  { apply le_of_Z. rewrite <-Hsx, <-Hrx. apply Hstartx.
    apply Qle_trans with (x a1); [done|]. by apply le_Finite, (H1 box). }
  assert (ky ≤ sy)%Z as Hky_sy.
  { apply le_of_Z. rewrite <-Hsy, <-Hry. apply Hstarty.
    apply Qle_trans with (y a3); [done|]. by apply le_Finite, (H3 box). }
  split.
  - intros fuel c Hc.
    apply elem_of_markElement in Hc as (cx & cy & Hcx & Hcy & ->).
    cbn [ROUTING_SCALING_FACTOR] in Hcx, Hcy.
    unfold coord in Hcx, Hcy. unfold add at 2 in Hcx. unfold add at 2 in Hcy.
    rewrite Hrx, Hsx, Hwx, Hrwx, Hex in Hcx. rewrite Hry, Hsy, Hwy, Hrwy, Hey in Hcy.
    rewrite sub_of_Z, add_of_Z in Hcx, Hcy by lia.
    apply counter_of_Z in Hcx as (i & Hi & ->); [|lia..].
    apply counter_of_Z in Hcy as (j & Hj & ->); [|lia..].
    unfold translateRoutingX, translateRoutingY.
    cbn [hAdjustmentFactor vAdjustmentFactor].
    rewrite !mul_of_Z by lia. rewrite !add_of_Z by lia.
    exists (Z.to_nat (i + (1 - kx) * 1)), (Z.to_nat (j + (1 - ky) * 1)).
    rewrite !Z2Nat.id by lia. done.
  - unfold coord. rewrite Hrx, Hsx, Hry, Hsy.
    unfold translateRoutingX, translateRoutingY.
    cbn [hAdjustmentFactor vAdjustmentFactor].
    rewrite !mul_of_Z by lia. rewrite !add_of_Z by lia.
    exists (Z.to_nat (sx - kx)), (Z.to_nat (sy - ky)).
    split; f_equal; lia.
Qed.

Lemma marked_indices_are_array_indices_witness :
  ∃ d, calculateMatrixDimensions (of_Z 5) mixedEngine = Some d ∧
    ∀ box, geometryBox mixedEngine box →
    ∀ fuel c,
      c ∈ markElement fuel
            (mkFactory (of_Z 5) (dim_hAdjustmentFactor d) (dim_vAdjustmentFactor d)) box →
      ∃ col row : nat, c = (of_Z (Z.of_nat col), of_Z (Z.of_nat row)).
Proof.
  destruct (marked_indices_are_array_indices 5 mixedEngine) as (d & Hd & Hidx).
  - lia.
  - eexists. left. apply list_elem_of_here.
  - intros box [->|[->| ->]]%geometryBox_mixedEngine; vm_compute;
      repeat split; discriminate.
  - exists d. split; [exact Hd|]. exact (proj1 Hidx).
Defined.

(** ** A zero scaling factor *)

Lemma minX_of_zero_scaling_factor (p : Qc) :
  mul (floor (div (min (coord p) (of_Z 0)) (of_Z 0))) (of_Z 0) = NaN.
Proof.
  destruct (min_zero p) as (m & -> & _).
  unfold div, of_Z. change (Qeq_bool (Qc_of_Z 0) 0) with true. cbv iota.
  by destruct (Qeq_bool m 0).
Qed.

(** X17.  With the scaling factor 0 the dimension computation returns
    NaN in all four fields, on every geometry with at least one box and
    for every viewport: 0/0 is NaN, and the infinity that a negative
    coordinate divided by 0 gives is multiplied by 0. *)
Theorem dimensions_of_zero_scaling_factor (e : Engine) :
  (∃ box, geometryBox e box) →
  calculateMatrixDimensions (of_Z 0) e = Some (mkDimensions NaN NaN NaN NaN).
Proof.
  intros He.
  destruct (calculateMatrixDimensions_extremal (of_Z 0) e He)
    as (a1 & a2 & a3 & a4 & _ & _ & _ & _ & ->).
  by rewrite !minX_of_zero_scaling_factor.
Qed.

Lemma dimensions_of_zero_scaling_factor_witness :
  calculateMatrixDimensions (of_Z 0) mixedEngine = Some (mkDimensions NaN NaN NaN NaN).
Proof.
  apply (dimensions_of_zero_scaling_factor mixedEngine).
  eexists. left. apply list_elem_of_here.
Defined.

End DoubleFacts.
